(** * go-libs-config: the configuration builder

    A shallow embedding of package [builder] (builder.go, internal.go,
    types.go) and the properties of its three algorithms: the tree
    assembler, the deep merger and the dependency sorter.

    Conventions of the embedding:
    - a Go [interface{}] holding decoded JSON or YAML is a [value];
    - a Go [map[string]T] is a [gmap string T]; the trees of one build are
      built from freshly decoded values and never shared between two
      owners, so an in-place update is modelled by returning the updated
      map;
    - Go leaves the order of [for k, v := range m] unspecified: the order
      is supplied by a [MapOrder], which picks an enumeration for every
      map, and every property is proved for all of them;
    - the in-degrees are Go [int]s; they count list entries and stay far
      from the bounds of the type, so they are kept in [Z];
    - [encoding/json], [yaml.v3] and the SSM client are collaborators and
      are taken as parameters ([Decoders], [getParametersByPath]); the
      serializers are applied to the map the build ends with, which is
      what [BuildConfigFromPrefixes] returns here. *)

From Stdlib Require Import Ascii String ZArith Lia.
From stdpp Require Import base gmap sets list strings relations sorting.
From Equations Require Import Equations.

Local Open Scope string_scope.
Local Open Scope list_scope.
Local Open Scope nat_scope.

(** ** Data model *)

(** What [json.Unmarshal] and [yaml.Unmarshal] store in an [interface{}].
    Numbers are decoded as float64 by Go; the builder never computes with
    them, so only their identity matters and the payload is kept in [Z]. *)
#[local] Unset Elimination Schemes.
Inductive value : Type :=
| VNull
| VBool (b : bool)
| VNum (n : Z)
| VStr (s : string)
| VSeq (l : list value)
| VMap (m : gmap string value).
#[local] Set Elimination Schemes.

(** The SSM SDK's parameter type, reduced to the two fields read here. *)
Record SsmParameter : Type := mkSsmParameter { Name : string; Value : string }.

(** The errors built with [fmt.Errorf] in the package, one constructor per
    message. *)
Inductive BuildError : Type :=
| SourceFetchError (prefix : string)
| UnsupportedNestingError (name : string)
| ValueParseError (name : string)
| DuplicateKeyError (key : string)
| TypesNotFoundError
| TypesNotSliceError
| QueryNotFoundError
| CyclicDependencyError
| SortError (cause : BuildError).

Inductive outcome (A : Type) : Type :=
| Ok (a : A)
| Err (e : BuildError).
Arguments Ok {A} a.
Arguments Err {A} e.

Definition is_Ok {A} (r : outcome A) : Prop :=
  match r with Ok _ => True | Err _ => False end.

Definition is_Err {A} (r : outcome A) : Prop :=
  match r with Ok _ => False | Err _ => True end.

(** The iteration order of Go maps. *)
Record MapOrder : Type := mkMapOrder {
  range : ∀ A : Type, gmap string A → list (string * A);
  range_perm : ∀ (A : Type) (m : gmap string A), range A m ≡ₚ map_to_list m
}.
Arguments range _ {A} m.

(** The decoders of [encoding/json] and [yaml.v3]: [None] is a decoding
    error. *)
Record Decoders : Type := mkDecoders {
  json_unmarshal : string → option value;
  yaml_unmarshal_map : string → option (gmap string value);
  yaml_unmarshal_slice : string → option (list value)
}.

(** ** The functions of package [strings] used by the builder *)
Module GoStrings.

Definition slash : ascii := "/"%char.

Fixpoint HasPrefix (s prefix : string) : bool :=
  match prefix, s with
  | EmptyString, _ => true
  | String p prefix', String c s' =>
      if decide (p = c) then HasPrefix s' prefix' else false
  | String _ _, EmptyString => false
  end.

Fixpoint drop (n : nat) (s : string) : string :=
  match n, s with
  | S n', String _ s' => drop n' s'
  | _, _ => s
  end.

Definition TrimPrefix (s prefix : string) : string :=
  if HasPrefix s prefix then drop (String.length prefix) s else s.

Definition TrimSuffix (s suffix : string) : string :=
  String.rev (TrimPrefix (String.rev s) (String.rev suffix)).

Fixpoint inCutset (c : ascii) (cutset : string) : bool :=
  match cutset with
  | EmptyString => false
  | String d cutset' => if decide (c = d) then true else inCutset c cutset'
  end.

Fixpoint TrimLeft (s cutset : string) : string :=
  match s with
  | EmptyString => EmptyString
  | String c s' => if inCutset c cutset then TrimLeft s' cutset else s
  end.

Fixpoint TrimRight (s cutset : string) : string :=
  match s with
  | EmptyString => EmptyString
  | String c s' =>
      match TrimRight s' cutset with
      | EmptyString => if inCutset c cutset then EmptyString else String c EmptyString
      | r => String c r
      end
  end.

Definition Trim (s cutset : string) : string :=
  TrimRight (TrimLeft s cutset) cutset.

(** [strings.Split(s, "/")], [strings.Count(s, "/")] and
    [strings.Contains(s, "/")]: the separator is always the one byte. *)
Fixpoint Split (s : string) : list string :=
  match s with
  | EmptyString => [EmptyString]
  | String c s' =>
      if decide (c = slash) then EmptyString :: Split s'
      else match Split s' with
           | part :: parts => String c part :: parts
           | [] => [String c EmptyString]
           end
  end.

Fixpoint Count (s : string) : Z :=
  match s with
  | EmptyString => 0
  | String c s' => (if decide (c = slash) then 1 else 0) + Count s'
  end.

Fixpoint Contains (s : string) : bool :=
  match s with
  | EmptyString => false
  | String c s' => if decide (c = slash) then true else Contains s'
  end.

(** [strings.Join(parts, "/")]. *)
Fixpoint Join (parts : list string) : string :=
  match parts with
  | [] => EmptyString
  | [part] => part
  | part :: parts' => part +:+ String slash (Join parts')
  end.

End GoStrings.

(** ** Deep merger (internal.go, [mergeMaps]) *)

(** What ends up under [dest[key]] when both sides hold a value; the
    recursion of [mergeMaps] is on the source tree. The loop over [src] is
    written with stdpp's fold; [mergeMaps_keywise] shows that the order of
    the traversal does not matter. *)
Fixpoint mergeValue (destValue srcValue : value) {struct srcValue} : value :=
  match destValue, srcValue with
  | VMap destMap, VMap srcMap =>
      VMap (map_fold (λ key v dest,
              <[key := match dest !! key with
                       | Some d => mergeValue d v
                       | None => v
                       end]> dest) destMap srcMap)
  | VSeq destArray, VSeq srcArray => VSeq (destArray ++ srcArray)
  | _, _ => srcValue
  end.

(** One iteration of the loop of [mergeMaps]. *)
Definition mergeKey (dest : gmap string value) (key : string) (srcValue : value)
  : gmap string value :=
  <[key := match dest !! key with
           | Some destValue => mergeValue destValue srcValue
           | None => srcValue
           end]> dest.

Definition mergeMaps (dest src : gmap string value) : gmap string value :=
  map_fold (λ key v dest, mergeKey dest key v) dest src.

(** ** Value parser (internal.go, [parseParameterValue]) *)

Section value_parser.
Variable dec : Decoders.

Definition parseParameterValue (v : string) : value :=
  match json_unmarshal dec v with
  | Some r => r
  | None => VStr v
  end.
End value_parser.

(** ** Path classifier (internal.go) *)

Definition extractRelativePath (fullPath basePath : string) (stripPrefix : bool)
  : string :=
  if stripPrefix then
    let basePath := GoStrings.TrimSuffix basePath "/" in
    let relative := GoStrings.TrimPrefix fullPath basePath in
    GoStrings.Trim relative "/"
  else fullPath.

Definition getLastPathSegment (path : string) : string :=
  List.last (GoStrings.Split path) "".

(** [levels[levelKey][childKey] = param], creating the inner map on demand. *)
Definition putLevel (levelKey childKey : string) (param : SsmParameter)
    (levels : gmap string (gmap string SsmParameter))
  : gmap string (gmap string SsmParameter) :=
  <[levelKey := <[childKey := param]> (default ∅ (levels !! levelKey))]> levels.

(** The level and the child key a parameter is filed under: one iteration of
    the loop of [organizeParametersByLevel]. *)
Definition levelOf (basePath : string) (stripPrefix : bool) (param : SsmParameter)
  : string * string :=
  let relativePath := extractRelativePath (Name param) basePath stripPrefix in
  if decide (relativePath = "") then (".", getLastPathSegment (Name param))
  else
    match GoStrings.Split relativePath with
    | [levelKey] => (levelKey, ".")
    | parentLevel :: rest => (parentLevel, GoStrings.Join rest)
    | [] => ("", "")
    end.

Definition fileParameter (basePath : string) (stripPrefix : bool)
    (levels : gmap string (gmap string SsmParameter)) (param : SsmParameter)
  : gmap string (gmap string SsmParameter) :=
  let '(levelKey, childKey) := levelOf basePath stripPrefix param in
  putLevel levelKey childKey param levels.

Definition organizeParametersByLevel (params : list SsmParameter)
    (basePath : string) (stripPrefix : bool)
  : gmap string (gmap string SsmParameter) :=
  foldl (fileParameter basePath stripPrefix) ∅ params.

(** ** Tree assembler (internal.go) *)

Section assembler.
Variable o : MapOrder.
Variable dec : Decoders.

Definition buildArrayFromMap (params : gmap string SsmParameter) : list value :=
  (λ kv, parseParameterValue dec (Value kv.2)) <$> range o params.

(** The loop of [shouldBeArray]; [firstDepth] is the loop variable and the
    early [return false] ends the scan. *)
Fixpoint depthScan (firstDepth : Z) (children : list (string * SsmParameter))
  : bool :=
  match children with
  | [] => bool_decide (firstDepth = 0)
  | (childPath, _) :: rest =>
      let depth := GoStrings.Count childPath in
      if decide (firstDepth = -1) then depthScan depth rest
      else if decide (depth ≠ firstDepth) then false
      else depthScan firstDepth rest
  end%Z.

Definition shouldBeArray (levelParams : gmap string SsmParameter) : bool :=
  if decide (size levelParams ≤ 1)%nat then false
  else depthScan (-1) (range o levelParams).

(** [buildNestedObject]: one mapping per path segment, the parsed value at
    the last one. *)
Fixpoint nestedObject (pathParts : list string) (leaf : value)
  : gmap string value :=
  match pathParts with
  | [] => ∅
  | [part] => {[ part := leaf ]}
  | part :: rest => {[ part := VMap (nestedObject rest leaf) ]}
  end.

Definition buildNestedObject (childPath : string) (param : SsmParameter)
  : gmap string value :=
  nestedObject (GoStrings.Split childPath) (parseParameterValue dec (Value param)).

(** The inner loop of [buildNestedStructure]: [current] walks down the
    tree, entering an existing mapping and replacing anything else by a
    fresh one. *)
Fixpoint setPath (pathParts : list string) (leaf : value)
    (current : gmap string value) : gmap string value :=
  match pathParts with
  | [] => current
  | [part] => <[part := leaf]> current
  | part :: rest =>
      let child := match current !! part with
                   | Some (VMap childMap) => childMap
                   | _ => ∅
                   end in
      <[part := VMap (setPath rest leaf child)]> current
  end.

Definition buildNestedStructure (levelParams : gmap string SsmParameter)
  : gmap string value :=
  foldl (λ result kv,
           setPath (GoStrings.Split kv.1)
                   (parseParameterValue dec (Value kv.2)) result)
        ∅ (range o levelParams).

Definition processRootLevel (result : gmap string value)
    (levelParams : gmap string SsmParameter) : gmap string value :=
  if decide (1 < size levelParams)%nat then
    <["items" := VSeq (buildArrayFromMap levelParams)]> result
  else
    foldl (λ result kv,
             <[kv.1 := parseParameterValue dec (Value kv.2)]> result)
          result (range o levelParams).

Definition processNestedLevel (result : gmap string value) (levelKey : string)
    (levelParams : gmap string SsmParameter) : gmap string value :=
  if decide (size levelParams = 1) then
    foldl (λ result kv,
             if decide (kv.1 = ".") then
               <[levelKey := parseParameterValue dec (Value kv.2)]> result
             else
               <[levelKey := VMap (buildNestedObject kv.1 kv.2)]> result)
          result (range o levelParams)
  else if shouldBeArray levelParams then
    <[levelKey := VSeq (buildArrayFromMap levelParams)]> result
  else
    <[levelKey := VMap (buildNestedStructure levelParams)]> result.

(** One iteration of the loop of [buildGenericStructure]. *)
Definition emitLevel (result : gmap string value)
    (kv : string * gmap string SsmParameter) : gmap string value :=
  if decide (kv.1 = ".") then processRootLevel result kv.2
  else processNestedLevel result kv.1 kv.2.

Definition buildGenericStructure (levels : gmap string (gmap string SsmParameter))
  : gmap string value :=
  foldl emitLevel ∅ (range o levels).

Definition buildStructure (params : list SsmParameter) (basePath : string)
    (stripPrefix sortByDependencies : bool) : gmap string value :=
  match params with
  | [] => ∅
  | _ => buildGenericStructure (organizeParametersByLevel params basePath stripPrefix)
  end.

(** ** YAML rules (internal.go, [buildYAMLStructure]) *)

(** The key a flat parameter is filed under: its relative path, or the
    last segment of its name when the relative path is empty. *)
Definition ruleKey (basePath : string) (stripPrefix : bool) (param : SsmParameter)
  : string :=
  let relative := extractRelativePath (Name param) basePath stripPrefix in
  if decide (relative = "") then getLastPathSegment (Name param) else relative.

(** One iteration of the loop; an [Err] is the early return. *)
Definition yamlRule (basePath : string) (stripPrefix : bool)
    (result : gmap string value) (param : SsmParameter)
  : outcome (gmap string value) :=
  let relative := extractRelativePath (Name param) basePath stripPrefix in
  if GoStrings.Contains relative then Err (UnsupportedNestingError (Name param))
  else
    let relative := if decide (relative = "")
                    then getLastPathSegment (Name param) else relative in
    match yaml_unmarshal_map dec (Value param) with
    | Some m => Ok (mergeMaps result m)
    | None =>
        match yaml_unmarshal_slice dec (Value param) with
        | None => Err (ValueParseError (Name param))
        | Some l =>
            if decide (is_Some (result !! relative))
            then Err (DuplicateKeyError relative)
            else Ok (<[relative := VSeq l]> result)
        end
    end.

Fixpoint yamlRules (basePath : string) (stripPrefix : bool)
    (result : gmap string value) (params : list SsmParameter)
  : outcome (gmap string value) :=
  match params with
  | [] => Ok result
  | param :: rest =>
      match yamlRule basePath stripPrefix result param with
      | Ok result' => yamlRules basePath stripPrefix result' rest
      | Err e => Err e
      end
  end.

Definition buildYAMLStructure (params : list SsmParameter) (basePath : string)
    (stripPrefix : bool) : outcome (gmap string value) :=
  yamlRules basePath stripPrefix ∅ params.

End assembler.

(** ** Dependency sorter (types.go, [sortTypesByDependency]) *)

(** Step 3, first loop: index the entries of [types] by name. Entries that
    are not mappings, or whose [name] is not a string, are skipped. *)
Record typeIndex : Type := mkTypeIndex {
  typeDefinitions : gmap string value;
  typeNames : gmap string bool
}.

Definition indexType (ix : typeIndex) (t : value) : typeIndex :=
  match t with
  | VMap typeMap =>
      match typeMap !! "name" with
      | Some (VStr name) =>
          {| typeDefinitions := <[name := t]> (typeDefinitions ix);
             typeNames := <[name := true]> (typeNames ix) |}
      | _ => ix
      end
  | _ => ix
  end.

Definition indexTypes (rawTypes : list value) : typeIndex :=
  foldl indexType {| typeDefinitions := ∅; typeNames := ∅ |} rawTypes.

(** The graph: [adjacencia[d]] lists the dependents of [d], and
    [grauEntrada[n]] counts the dependencies of [n]. *)
Record graph : Type := mkGraph {
  adjacencia : gmap string (list string);
  grauEntrada : gmap string Z
}.

(** [adjacencia[dependencyName] = append(adjacencia[dependencyName], name)]
    and [grauEntrada[name]++]. *)
Definition addEdge (name : string) (g : graph) (dependencyName : string) : graph :=
  {| adjacencia :=
       <[dependencyName :=
           default [] (adjacencia g !! dependencyName) ++ [name]]>
         (adjacencia g);
     grauEntrada :=
       <[name := (default 0 (grauEntrada g !! name) + 1)%Z]> (grauEntrada g) |}.

(** The body shared by the field and the argument case: an [ofType] that
    is a string and names a declared type adds the edge to [name]. *)
Definition addDependency (names : gmap string bool) (name : string)
    (ofType : option value) (g : graph) : graph :=
  match ofType with
  | Some (VStr dependencyName) =>
      if decide (is_Some (names !! dependencyName))
      then addEdge name g dependencyName
      else g
  | _ => g
  end.

Definition scanArg (names : gmap string bool) (name : string) (g : graph)
    (a : value) : graph :=
  match a with
  | VMap arg => addDependency names name (arg !! "ofType") g
  | _ => g
  end.

Definition scanField (names : gmap string bool) (name : string) (g : graph)
    (f : value) : graph :=
  match f with
  | VMap field =>
      let g := addDependency names name (field !! "ofType") g in
      match field !! "args" with
      | Some (VSeq args) => foldl (scanArg names name) g args
      | _ => g
      end
  | _ => g
  end.

Definition scanType (ix : typeIndex) (g : graph) (name : string) : graph :=
  match typeDefinitions ix !! name with
  | Some (VMap typeDef) =>
      match typeDef !! "fields" with
      | Some (VSeq fields) => foldl (scanField (typeNames ix) name) g fields
      | _ => g
      end
  | _ => g
  end.

(** The inner loop of Kahn's algorithm, over the dependents of the node
    just dequeued. *)
Definition relax (st : gmap string Z * list string) (neighbor : string)
  : gmap string Z * list string :=
  let grau := (default 0 (st.1 !! neighbor) - 1)%Z in
  (<[neighbor := grau]> st.1,
   if decide (grau = 0%Z) then (st.2 ++ [neighbor])%list else st.2).

(** What bounds the number of iterations left: the queue and the nodes
    that can still enter it. *)
Definition pending (grau : gmap string Z) (fila : list string) : nat :=
  length fila + size (filter (λ kv, (0 < kv.2)%Z) grau).

(** The loop [for len(fila) > 0]. It ends because an iteration removes one
    name from the queue, and the inner loop adds a name only when its
    in-degree drops from one to zero. *)
Equations? drain (defs : gmap string value) (adj : gmap string (list string))
    (grau : gmap string Z) (fila : list string) (sortedTypes : list value)
  : list value by wf (pending grau fila) lt :=
  drain defs adj grau [] sortedTypes := sortedTypes;
  drain defs adj grau (currentName :: fila) sortedTypes :=
    drain defs adj
      (foldl relax (grau, fila) (default [] (adj !! currentName))).1
      (foldl relax (grau, fila) (default [] (adj !! currentName))).2
      (sortedTypes ++ [default VNull (defs !! currentName)]).
Proof.
  set (P := λ kv : string * Z, (0 < kv.2)%Z).
  assert (∀ grau fila neighbor,
    pending (relax (grau, fila) neighbor).1 (relax (grau, fila) neighbor).2
    ≤ pending grau fila) as Hstep.
  { clear. intros grau fila neighbor. unfold relax, pending; simpl.
    set (P := λ kv : string * Z, (0 < kv.2)%Z).
    rewrite map_filter_insert.
    assert (size (delete neighbor (filter P grau)) ≤ size (filter P grau)) as Hdel.
    { rewrite map_size_delete. destruct (filter P grau !! neighbor); simpl; lia. }
    destruct (grau !! neighbor) as [g|] eqn:Hg; simpl.
    - destruct (decide (g - 1 = 0)%Z) as [Hz|Hz].
      + rewrite decide_False by (unfold P; simpl; lia).
        rewrite length_app; simpl.
        assert (filter P grau !! neighbor = Some g) as Hf.
        { apply map_lookup_filter_Some; split; [done|unfold P; simpl; lia]. }
        rewrite map_filter_delete, map_size_delete, Hf.
        assert (size (filter P grau) ≠ 0) by (eapply map_size_ne_0_lookup_2; eauto).
        lia.
      + destruct (decide (P (neighbor, (g - 1)%Z))) as [Hp|Hp].
        * rewrite map_size_insert_Some; [lia|].
          exists g. apply map_lookup_filter_Some; split; [done|].
          unfold P in *; simpl in *; lia.
        * rewrite map_filter_delete. lia.
    - rewrite map_filter_delete. lia. }
  assert (∀ neighbors grau fila,
    pending (foldl relax (grau, fila) neighbors).1
            (foldl relax (grau, fila) neighbors).2 ≤ pending grau fila) as Hall.
  { clear -Hstep. intros neighbors.
    induction neighbors as [|n ns IH]; intros grau fila; [done|].
    simpl. specialize (Hstep grau fila n).
    destruct (relax (grau, fila) n) as [g' f']. etrans; [apply IH|done]. }
  specialize (Hall (default [] (adj !! currentName)) grau fila).
  unfold pending in *. simpl. lia.
Qed.

Section sorter.
Variable o : MapOrder.

(** Step 3, second and third loop: the graph of the declared types. *)
Definition emptyGraph (names : gmap string bool) : graph :=
  foldl (λ g kv,
           {| adjacencia := <[kv.1 := []]> (adjacencia g);
              grauEntrada := <[kv.1 := 0%Z]> (grauEntrada g) |})
        {| adjacencia := ∅; grauEntrada := ∅ |} (range o names).

Definition buildGraph (ix : typeIndex) : graph :=
  foldl (scanType ix) (emptyGraph (typeNames ix)) (range o (typeNames ix)).*1.

(** The queue is seeded with the nodes of in-degree zero. *)
Definition seedQueue (grau : gmap string Z) : list string :=
  (filter (λ kv, kv.2 = 0%Z) (range o grau)).*1.

(** Kahn's algorithm over the entries of [types]. *)
Definition kahn (rawTypes : list value) : list value :=
  let ix := indexTypes rawTypes in
  let g := buildGraph ix in
  drain (typeDefinitions ix) (adjacencia g) (grauEntrada g)
        (seedQueue (grauEntrada g)) [].

(** [sortTypesByDependency]: the schema behind the pointer is replaced by
    the returned one on success and left as it was on error. *)
Definition sortTypesByDependency (schema : gmap string value)
  : outcome (gmap string value) :=
  match schema !! "types" with
  | None => Err TypesNotFoundError
  | Some (VSeq rawTypes) =>
      match schema !! "query" with
      | None => Err QueryNotFoundError
      | Some query =>
          let sortedTypes := kahn rawTypes in
          if decide (length sortedTypes ≠ length rawTypes)
          then Err CyclicDependencyError
          else Ok (<["query" := query]> (<["types" := VSeq sortedTypes]> ∅))
      end
  | Some _ => Err TypesNotSliceError
  end.

End sorter.

(** ** Façade (builder.go, [BuildConfigFromPrefixes]) *)

Record BuildOptions : Type := mkBuildOptions {
  Prefixes : list string;
  StripPrefix : bool;
  JSONOutput : bool;
  YAMLRules : bool;
  SortByDependencies : bool
}.

(** The map handed to the serializer, and which serializer it is handed
    to: [yaml.Marshal], [json.MarshalIndent] or [json.Marshal]. *)
Inductive document : Type :=
| YAMLDocument (configMap : gmap string value)
| IndentedJSON (configMap : gmap string value)
| CompactJSON (configMap : gmap string value).

Section facade.
Variable o : MapOrder.
Variable dec : Decoders.
(** The SSM client: the parameters under a path, or a failed call. *)
Variable getParametersByPath : string → option (list SsmParameter).

Fixpoint yamlPrefixes (opts : BuildOptions) (configMap : gmap string value)
    (prefixes : list string) : outcome (gmap string value) :=
  match prefixes with
  | [] => Ok configMap
  | prefix :: rest =>
      match getParametersByPath prefix with
      | None => Err (SourceFetchError prefix)
      | Some params =>
          match buildYAMLStructure dec params prefix (StripPrefix opts) with
          | Err e => Err e
          | Ok prefixConfig =>
              yamlPrefixes opts (mergeMaps configMap prefixConfig) rest
          end
      end
  end.

Fixpoint jsonPrefixes (opts : BuildOptions) (configMap : gmap string value)
    (prefixes : list string) : outcome (gmap string value) :=
  match prefixes with
  | [] => Ok configMap
  | prefix :: rest =>
      match getParametersByPath prefix with
      | None => Err (SourceFetchError prefix)
      | Some params =>
          let prefixConfig :=
            buildStructure o dec params prefix (StripPrefix opts)
                           (SortByDependencies opts) in
          jsonPrefixes opts (mergeMaps configMap prefixConfig) rest
      end
  end.

Definition BuildConfigFromPrefixes (opts : BuildOptions) : outcome document :=
  if YAMLRules opts then
    match yamlPrefixes opts ∅ (Prefixes opts) with
    | Err e => Err e
    | Ok configMap => Ok (YAMLDocument configMap)
    end
  else
    match jsonPrefixes opts ∅ (Prefixes opts) with
    | Err e => Err e
    | Ok configMap =>
        let sorted :=
          if SortByDependencies opts then
            match sortTypesByDependency o configMap with
            | Err e => Err (SortError e)
            | Ok configMap => Ok configMap
            end
          else Ok configMap in
        match sorted with
        | Err e => Err e
        | Ok configMap =>
            if JSONOutput opts then Ok (IndentedJSON configMap)
            else Ok (CompactJSON configMap)
        end
    end.

Definition BuildJsonFromPrefix (prefix : string) (sortByDependencies : bool)
  : outcome document :=
  BuildConfigFromPrefixes
    {| Prefixes := [prefix]; StripPrefix := true; JSONOutput := true;
       YAMLRules := false; SortByDependencies := sortByDependencies |}.

Definition BuildYamlFromPrefix (prefix : string) (sortByDependencies : bool)
  : outcome document :=
  BuildConfigFromPrefixes
    {| Prefixes := [prefix]; StripPrefix := true; JSONOutput := false;
       YAMLRules := true; SortByDependencies := sortByDependencies |}.

End facade.

(** ** Concrete collaborators for the worked examples *)

(** The order in which stdpp enumerates a map, and the opposite one. *)
Definition canonicalOrder : MapOrder :=
  {| range := λ A m, map_to_list m;
     range_perm := λ A m, reflexivity (map_to_list m) |}.

Definition reverseOrder : MapOrder :=
  {| range := λ A m, reverse (map_to_list m);
     range_perm := λ A m, reverse_Permutation (map_to_list m) |}.

(** Decoders restricted to the literals that occur in the worked examples
    below, where they agree with [encoding/json] and [yaml.v3]: JSON
    decimal naturals and the three JSON constants; two YAML flow sequences
    and two YAML block mappings. Any other text is outside their domain
    and is reported as a decoding error. *)
Definition digitValue (c : ascii) : option Z :=
  let n := nat_of_ascii c in
  if decide (48 ≤ n ∧ n ≤ 57) then Some (Z.of_nat (n - 48)) else None.

Fixpoint decimal (acc : Z) (s : string) : option Z :=
  match s with
  | EmptyString => Some acc
  | String c s' =>
      match digitValue c with
      | Some d => decimal (10 * acc + d)%Z s'
      | None => None
      end
  end.

Definition exampleJSON (s : string) : option value :=
  if decide (s = "null") then Some VNull
  else if decide (s = "true") then Some (VBool true)
  else if decide (s = "false") then Some (VBool false)
  else
    match s with
    | EmptyString => None
    | String c s' =>
        if decide (c = "0"%char ∧ s' ≠ EmptyString) then None
        else VNum <$> decimal 0 s
    end.

Definition exampleYAMLMap (s : string) : option (gmap string value) :=
  if decide (s = "blockedIps: [1.2.3.4]")
  then Some {[ "blockedIps" := VSeq [VStr "1.2.3.4"] ]}
  else if decide (s = "blockedIps: [5.6.7.8]")
  then Some {[ "blockedIps" := VSeq [VStr "5.6.7.8"] ]}
  else None.

Definition exampleYAMLSlice (s : string) : option (list value) :=
  if decide (s = "[1.2.3.4]") then Some [VStr "1.2.3.4"]
  else if decide (s = "[5.6.7.8]") then Some [VStr "5.6.7.8"]
  else None.

Definition exampleDecoders : Decoders :=
  {| json_unmarshal := exampleJSON;
     yaml_unmarshal_map := exampleYAMLMap;
     yaml_unmarshal_slice := exampleYAMLSlice |}.

(** ** Notions used to state the properties of the dependency sorter *)

(** The name an entry of [types] declares, when it declares one. *)
Definition entryName (t : value) : option string :=
  match t with
  | VMap typeMap =>
      match typeMap !! "name" with
      | Some (VStr name) => Some name
      | _ => None
      end
  | _ => None
  end.

(** Entry [t] has a field, or an argument of a field, whose [ofType] is
    the name [dependency]. *)
Definition references (t : value) (dependency : string) : Prop :=
  ∃ typeDef fields field,
    t = VMap typeDef
    ∧ typeDef !! "fields" = Some (VSeq fields)
    ∧ VMap field ∈ fields
    ∧ (field !! "ofType" = Some (VStr dependency)
       ∨ ∃ args arg,
           field !! "args" = Some (VSeq args)
           ∧ VMap arg ∈ args
           ∧ arg !! "ofType" = Some (VStr dependency)).

(** [E] depends on [D]: both are entries of [rawTypes] and [E] references
    the name that [D] declares. *)
Definition dependsOn (rawTypes : list value) (D E : value) : Prop :=
  D ∈ rawTypes ∧ E ∈ rawTypes
  ∧ ∃ d, entryName D = Some d ∧ references E d.

(** Every entry declares a name and no name is declared twice. *)
Definition wellFormed (rawTypes : list value) : Prop :=
  Forall (λ t, is_Some (entryName t)) rawTypes
  ∧ NoDup (entryName <$> rawTypes).

Definition acyclic (rawTypes : list value) : Prop :=
  ∀ t, ¬ tc (dependsOn rawTypes) t t.

(** [D] stands before [E] in [sorted]. *)
Definition precedes (sorted : list value) (D E : value) : Prop :=
  ∃ i j, i < j ∧ sorted !! i = Some D ∧ sorted !! j = Some E.

(** How often [n] is listed in [l], and in all the lists of [adj]. *)
Definition occurrences (n : string) (l : list string) : nat :=
  length (filter (λ x, x = n) l).

Definition inDegreeFrom (adj : gmap string (list string)) (n : string) : nat :=
  map_fold (λ _ l acc, occurrences n l + acc) 0 adj.

(** The declared names an [ofType], an argument, a field and an entry
    refer to, in the order in which the scan meets them. *)
Definition ofTypeDeps (names : gmap string bool) (ofType : option value)
  : list string :=
  match ofType with
  | Some (VStr dependencyName) =>
      if decide (is_Some (names !! dependencyName)) then [dependencyName] else []
  | _ => []
  end.

Definition argDeps (names : gmap string bool) (a : value) : list string :=
  match a with
  | VMap arg => ofTypeDeps names (arg !! "ofType")
  | _ => []
  end.

Definition fieldDeps (names : gmap string bool) (f : value) : list string :=
  match f with
  | VMap field =>
      ofTypeDeps names (field !! "ofType")
      ++ match field !! "args" with
         | Some (VSeq args) => args ≫= argDeps names
         | _ => []
         end
  | _ => []
  end.

Definition typeDeps (names : gmap string bool) (t : option value) : list string :=
  match t with
  | Some (VMap typeDef) =>
      match typeDef !! "fields" with
      | Some (VSeq fields) => fields ≫= fieldDeps names
      | _ => []
      end
  | _ => []
  end.

(** The edges of the graph, dependency first, in scan order. *)
Definition edgesOf (ix : typeIndex) (names : list string) : list (string * string) :=
  names ≫= λ name,
    (λ d, (d, name)) <$> typeDeps (typeNames ix) (typeDefinitions ix !! name).

(** What the second and third loop leave in the graph. *)
Record graphOf (names : gmap string bool) (edges : list (string * string))
    (g : graph) : Prop := mkGraphOf {
  graph_adj_dom : ∀ k, is_Some (adjacencia g !! k) ↔ is_Some (names !! k);
  graph_grau_dom : ∀ k, is_Some (grauEntrada g !! k) ↔ is_Some (names !! k);
  graph_grau : ∀ n,
    default 0%Z (grauEntrada g !! n) = Z.of_nat (inDegreeFrom (adjacencia g) n);
  graph_edges : ∀ d n, n ∈ default [] (adjacencia g !! d) ↔ (d, n) ∈ edges
}.

(** The adjacency lists of the names not dequeued yet. *)
Definition remaining (adj : gmap string (list string)) (done : list string)
  : gmap string (list string) :=
  filter (λ kv, kv.1 ∉ done) adj.

(** The in-degree of [n], zero when [grauEntrada] has no entry for it. *)
Definition degree (grau : gmap string Z) (n : string) : Z :=
  default 0%Z (grau !! n).

(** The entries of [defs] for the names of [done], as the loop appends
    them. *)
Definition entriesOf (defs : gmap string value) (done : list string) : list value :=
  (λ n, default VNull (defs !! n)) <$> done.

(** The loop invariant of [drain]; [done] lists the names dequeued so
    far. *)
Record drainInv (defs : gmap string value) (adj : gmap string (list string))
    (names : gmap string bool) (grau : gmap string Z) (fila : list string)
    (sortedTypes : list value) (done : list string) : Prop := mkDrainInv {
  inv_sorted : sortedTypes = entriesOf defs done;
  inv_nodup : NoDup (done ++ fila);
  inv_names : ∀ n, n ∈ done ++ fila → is_Some (names !! n);
  inv_grau : ∀ n, degree grau n = Z.of_nat (inDegreeFrom (remaining adj done) n);
  inv_queue : ∀ n, is_Some (names !! n) → n ∉ done →
                   (n ∈ fila ↔ degree grau n = 0%Z);
  inv_order : ∀ i n d, done !! i = Some n → n ∈ default [] (adj !! d) →
                       ∃ j, j < i ∧ done !! j = Some d
}.

(** What [drain] returns: the dequeued names are distinct declared names,
    each after all the names it depends on, and a name left out depends
    on a name left out. *)
Record drained (adj : gmap string (list string)) (names : gmap string bool)
    (done : list string) : Prop := mkDrained {
  drained_nodup : NoDup done;
  drained_names : ∀ n, n ∈ done → is_Some (names !! n);
  drained_order : ∀ i n d, done !! i = Some n → n ∈ default [] (adj !! d) →
                           ∃ j, j < i ∧ done !! j = Some d;
  drained_stuck : ∀ n, is_Some (names !! n) → n ∉ done →
                       ∃ d, (d ∉ done) ∧ n ∈ default [] (adj !! d)
}.

(** A certificate of acyclicity that can be checked by computation: no
    entry stands earlier in [order] than an entry it depends on. *)
Definition positionIn (order : list string) (t : value) : nat :=
  match entryName t with
  | Some n => default (length order) (fst <$> list_find (λ x, x = n) order)
  | None => length order
  end.

Definition respectsOrder (rawTypes : list value) (order : list string) : bool :=
  forallb (λ E,
    forallb (λ D,
      match entryName D with
      | Some d =>
          if decide (d ∈ typeDeps (typeNames (indexTypes rawTypes)) (Some E))
          then bool_decide (positionIn order D < positionIn order E)
          else true
      | None => true
      end) rawTypes) rawTypes.

(** ** Worked examples *)

(** An entry of [types] with one field per dependency. *)
Definition typeEntry (name : string) (dependencies : list string) : value :=
  VMap {[ "name" := VStr name;
          "fields" := VSeq ((λ d, VMap {[ "ofType" := VStr d ]}) <$> dependencies) ]}.

(** [Query] has a field of type [User] with an argument of type [Filter];
    [User] has a field of the undeclared type [ID] and one of type
    [Address]. *)
Definition exampleTypes : list value :=
  [ VMap {[ "name" := VStr "Query";
            "fields" := VSeq [VMap {[ "ofType" := VStr "User";
                                      "args" := VSeq [VMap {[ "ofType" := VStr "Filter" ]}] ]}] ]};
    typeEntry "User" ["ID"; "Address"];
    typeEntry "Address" [];
    typeEntry "Filter" [] ].

Definition exampleSchema : gmap string value :=
  {[ "types" := VSeq exampleTypes; "query" := VStr "Query" ]}.



(** ** Notions used to state the properties of the paths and of the tree *)

(** The first and the last byte of a string. *)
Definition firstByte (s : string) : option ascii :=
  match s with
  | EmptyString => None
  | String c _ => Some c
  end.

Fixpoint lastByte (s : string) : option ascii :=
  match s with
  | EmptyString => None
  | String c s' =>
      match s' with
      | EmptyString => Some c
      | String _ _ => lastByte s'
      end
  end.

(** No slash at either end: what [strings.Trim(s, "/")] leaves alone. *)
Definition noEdgeSlash (s : string) : Prop :=
  firstByte s ≠ Some GoStrings.slash ∧ lastByte s ≠ Some GoStrings.slash.

(** The value reached from [v] by descending through nested mappings along
    the keys of [path]. *)
Fixpoint getPath (path : list string) (v : value) : option value :=
  match path with
  | [] => Some v
  | part :: rest =>
      match v with
      | VMap m => m !! part ≫= getPath rest
      | _ => None
      end
  end.

(** No child path of the level continues another one segment by segment. *)
Definition prefixFree (levelParams : gmap string SsmParameter) : Prop :=
  ∀ c1 c2, is_Some (levelParams !! c1) → is_Some (levelParams !! c2) →
           GoStrings.Split c1 `prefix_of` GoStrings.Split c2 → c1 = c2.

(** The map a [document] serializes. *)
Definition configMapOf (d : document) : gmap string value :=
  match d with
  | YAMLDocument configMap | IndentedJSON configMap | CompactJSON configMap =>
      configMap
  end.

(** The parameter filed under [levels[levelKey][childKey]]. *)
Definition filed (levels : gmap string (gmap string SsmParameter))
    (levelKey childKey : string) : option SsmParameter :=
  levels !! levelKey ≫= (.!! childKey).

(** ** Parameter fetch (internal.go, [getParametersByPath]) *)

(** The part of [ssm.GetParametersByPathOutput] that is read. *)
Record SsmPage : Type := mkSsmPage {
  Parameters : list SsmParameter;
  NextToken : option string
}.

(** [sort.Slice] with the comparison [less(i, j) = Name(i) < Name(j)]: the
    library promises a rearrangement of the slice in which no element is
    less than an earlier one, and nothing about the order of elements that
    compare equal. On strings, which Go compares byte by byte, "not less"
    is [String.le] the other way round. *)
Definition nameLe (p q : SsmParameter) : Prop := String.le (Name p) (Name q).

Record SliceSort : Type := mkSliceSort {
  sortSlice : list SsmParameter → list SsmParameter;
  sortSlice_perm : ∀ l, sortSlice l ≡ₚ l;
  sortSlice_sorted : ∀ l, Sorted nameLe (sortSlice l)
}.

Section fetcher.
(** The SSM client, called with the path and the token of the page: [None]
    is a failed call. *)
Variable ssmClient : string → option string → option SsmPage.
Variable sorter : SliceSort.

(** The loop [for { ... }] over the pages. The loop has no bound of its
    own: [fuel] bounds the number of calls, and the outer [None] says that
    the bound was reached before a page came without a token. The inner
    [None] is the early [return nil, err]. *)
Fixpoint fetchPages (fuel : nat) (path : string) (nextToken : option string)
    (allParams : list SsmParameter) : option (option (list SsmParameter)) :=
  match fuel with
  | 0 => None
  | S fuel =>
      match ssmClient path nextToken with
      | None => Some None
      | Some result =>
          let allParams := allParams ++ Parameters result in
          match NextToken result with
          | None => Some (Some allParams)
          | Some token => fetchPages fuel path (Some token) allParams
          end
      end
  end.

Definition getParametersByPath (fuel : nat) (path : string)
  : option (option (list SsmParameter)) :=
  match fetchPages fuel path None [] with
  | Some (Some allParams) => Some (Some (sortSlice sorter allParams))
  | Some None => Some None
  | None => None
  end.

(** The client answers the calls that start with [nextToken] with
    [pages], of which the last one, and only that one, has no token. *)
Fixpoint pagesFrom (path : string) (nextToken : option string)
    (pages : list SsmPage) : Prop :=
  match pages with
  | [] => False
  | page :: rest =>
      ssmClient path nextToken = Some page
      ∧ match rest with
        | [] => NextToken page = None
        | _ :: _ => is_Some (NextToken page) ∧ pagesFrom path (NextToken page) rest
        end
  end.

(** The client answers with [pages], each with a token, and fails the
    call after them. *)
Fixpoint failsAfter (path : string) (nextToken : option string)
    (pages : list SsmPage) : Prop :=
  match pages with
  | [] => ssmClient path nextToken = None
  | page :: rest =>
      ssmClient path nextToken = Some page
      ∧ is_Some (NextToken page)
      ∧ failsAfter path (NextToken page) rest
  end.

End fetcher.

(** One of the functions [sort.Slice] may behave as, and a parameter
    store that answers with two pages, for the worked examples. *)
Definition exampleSorter : SliceSort :=
  {| sortSlice := merge_sort nameLe;
     sortSlice_perm := merge_sort_Permutation nameLe;
     sortSlice_sorted :=
       @Sorted_merge_sort _ nameLe _
         (λ p q, total String.le (Name p) (Name q)) |}.

Definition examplePages : list SsmPage :=
  [ mkSsmPage [mkSsmParameter "/p/b" "2"; mkSsmParameter "/p/c" "3"] (Some "page2");
    mkSsmPage [mkSsmParameter "/p/a" "1"] None ].

Definition exampleClient (path : string) (nextToken : option string)
  : option SsmPage :=
  match nextToken with
  | None => examplePages !! 0
  | Some token => if decide (token = "page2") then examplePages !! 1 else None
  end.

(** * Properties *)

(** ** Iteration orders *)

Lemma map_size_1_singleton {A} (m : gmap string A) :
  size m = 1 → ∃ k v, m = {[ k := v ]}.
Proof.
  rewrite <-length_map_to_list. intros Hlen.
  destruct (map_to_list m) as [|[k v] [|]] eqn:Hl; simplify_eq/=.
  exists k, v. rewrite <-(list_to_map_to_list m), Hl. simpl.
  by rewrite insert_empty.
Qed.

Section range_facts.
Context (o : MapOrder) {A : Type}.
Implicit Types m : gmap string A.

Lemma elem_of_range m k v : (k, v) ∈ range o m ↔ m !! k = Some v.
Proof. by rewrite (range_perm o A m), elem_of_map_to_list. Qed.

Lemma NoDup_fst_range m : NoDup (range o m).*1.
Proof. rewrite (range_perm o A m). apply NoDup_fst_map_to_list. Qed.

Lemma length_range m : length (range o m) = size m.
Proof. by rewrite (range_perm o A m), length_map_to_list. Qed.

Lemma range_to_map m : list_to_map (range o m) = m.
Proof.
  rewrite <-(list_to_map_to_list m) at 2.
  apply list_to_map_proper; [apply NoDup_fst_range | apply range_perm].
Qed.

Lemma elem_of_range_fst m k : k ∈ (range o m).*1 ↔ is_Some (m !! k).
Proof.
  rewrite list_elem_of_fmap. split.
  - intros [[k' v] [-> Hin]]. apply elem_of_range in Hin. eauto.
  - intros [v Hv]. exists (k, v). split; [done|]. by apply elem_of_range.
Qed.

Lemma range_empty : range o (∅ : gmap string A) = [].
Proof.
  apply Permutation_nil_r. by rewrite (range_perm o A ∅), map_to_list_empty.
Qed.

Lemma range_singleton_size m :
  size m = 1 → ∃ k v, m = {[ k := v ]} ∧ range o m = [(k, v)].
Proof.
  intros Hsz. apply map_size_1_singleton in Hsz as (k & v & ->). exists k, v. split; [done|].
  apply Permutation_singleton_r. by rewrite (range_perm o A _), map_to_list_singleton.
Qed.

End range_facts.

(** ** Deep merger *)

Lemma mergeValue_maps destMap srcMap :
  mergeValue (VMap destMap) (VMap srcMap) = VMap (mergeMaps destMap srcMap).
Proof. reflexivity. Qed.

Lemma mergeKey_lookup dest key srcValue k :
  mergeKey dest key srcValue !! k =
    if decide (key = k)
    then Some (match dest !! key with
               | Some destValue => mergeValue destValue srcValue
               | None => srcValue
               end)
    else dest !! k.
Proof. unfold mergeKey. by rewrite lookup_insert. Qed.

(** The loop of [mergeMaps] run over the keys of [src] in any order. *)
Lemma mergeLoop_lookup (l : list (string * value)) dest k :
  NoDup l.*1 →
  foldl (λ d kv, mergeKey d kv.1 kv.2) dest l !! k =
    match (list_to_map l : gmap string value) !! k with
    | None => dest !! k
    | Some srcValue =>
        Some (match dest !! k with
              | Some destValue => mergeValue destValue srcValue
              | None => srcValue
              end)
    end.
Proof.
  revert dest. induction l as [|[key v] l IH]; intros dest Hnd; simpl.
  - by rewrite lookup_empty.
  - apply NoDup_cons in Hnd as [Hkey Hnd]. rewrite (IH _ Hnd).
    rewrite mergeKey_lookup, lookup_insert.
    destruct (decide (key = k)) as [->|Hne].
    + rewrite (not_elem_of_list_to_map_1 l k Hkey). done.
    + done.
Qed.

Lemma mergeMaps_lookup dest src k :
  mergeMaps dest src !! k =
    match src !! k with
    | None => dest !! k
    | Some srcValue =>
        Some (match dest !! k with
              | Some destValue => mergeValue destValue srcValue
              | None => srcValue
              end)
    end.
Proof.
  unfold mergeMaps. revert k.
  apply (map_fold_weak_ind (λ r m, ∀ k, r !! k = match m !! k with
    | None => dest !! k
    | Some srcValue => Some (match dest !! k with
                             | Some destValue => mergeValue destValue srcValue
                             | None => srcValue end) end)).
  - intros k. by rewrite lookup_empty.
  - intros i x m r Hi IH k. rewrite mergeKey_lookup, lookup_insert.
    destruct (decide (i = k)) as [->|Hne]; [|apply IH].
    by rewrite (IH k), Hi.
Qed.

(** C4. [mergeMaps] proceeds key-wise over [src], whatever order the keys
    of [src] are visited in: a key only in [dest] keeps its value, a key
    only in [src] is added, two mappings under one key are merged
    recursively, two sequences are concatenated ([dest]'s elements first),
    and in every other case the value of [src] replaces the one of
    [dest]. *)
Theorem mergeMaps_keywise (dest src : gmap string value) :
  (∀ o : MapOrder,
     foldl (λ d kv, mergeKey d kv.1 kv.2) dest (range o src) = mergeMaps dest src)
  ∧ (∀ key : string,
       mergeMaps dest src !! key =
         match src !! key with
         | None => dest !! key
         | Some srcValue =>
             Some (match dest !! key, srcValue with
                   | Some (VMap destMap), VMap srcMap =>
                       VMap (mergeMaps destMap srcMap)
                   | Some (VSeq destArray), VSeq srcArray =>
                       VSeq (destArray ++ srcArray)
                   | _, _ => srcValue
                   end)
         end).
Proof.
  split.
  - intros o. apply map_eq. intros k.
    rewrite mergeLoop_lookup by apply NoDup_fst_range.
    by rewrite range_to_map, mergeMaps_lookup.
  - intros key. rewrite mergeMaps_lookup.
    destruct (src !! key) as [srcValue|]; [|done]. f_equal.
    destruct (dest !! key) as [[]|], srcValue; reflexivity.
Qed.

(** Two mappings under one key are merged, two sequences are joined. *)
Lemma mergeMaps_keywise_witness :
  mergeMaps {[ "a" := VMap {[ "x" := VNum 1 ]}; "l" := VSeq [VNum 1; VNum 2] ]}
            {[ "a" := VMap {[ "y" := VNum 2 ]}; "l" := VSeq [VNum 3] ]}
  !! "a" = Some (VMap {[ "x" := VNum 1; "y" := VNum 2 ]})
  ∧ mergeMaps {[ "a" := VMap {[ "x" := VNum 1 ]}; "l" := VSeq [VNum 1; VNum 2] ]}
              {[ "a" := VMap {[ "y" := VNum 2 ]}; "l" := VSeq [VNum 3] ]}
    !! "l" = Some (VSeq [VNum 1; VNum 2; VNum 3]).
Proof.
  split;
    rewrite (proj2 (mergeMaps_keywise
      {[ "a" := VMap {[ "x" := VNum 1 ]}; "l" := VSeq [VNum 1; VNum 2] ]}
      {[ "a" := VMap {[ "y" := VNum 2 ]}; "l" := VSeq [VNum 3] ]}));
    vm_compute; reflexivity.
Defined.

(** ** Value parser *)

Lemma jsonPrefixes_Err o dec fetch opts prefixes configMap e :
  jsonPrefixes o dec fetch opts configMap prefixes = Err e →
  ∃ prefix, prefix ∈ prefixes ∧ fetch prefix = None ∧ e = SourceFetchError prefix.
Proof.
  revert configMap. induction prefixes as [|prefix rest IH]; intros configMap; simpl.
  - discriminate.
  - destruct (fetch prefix) as [params|] eqn:Hf.
    + intros (p & Hp & ? & ?)%IH. exists p. by rewrite elem_of_cons; auto.
    + intros [= <-]. exists prefix. by rewrite elem_of_cons; auto.
Qed.

(** C8. In JSON mode the value parser is total: a value that decodes as
    JSON is replaced by what it decodes to, any other value is kept as
    the string it is. No build error comes from it: a JSON-mode build
    can only fail in the fetch of a prefix or in the dependency sort, and
    it succeeds when every fetch succeeds and no sort is asked for. *)
Theorem parseParameterValue_total (o : MapOrder) (dec : Decoders)
    (getParametersByPath : string → option (list SsmParameter)) :
  (∀ v parsed,
     json_unmarshal dec v = Some parsed → parseParameterValue dec v = parsed)
  ∧ (∀ v, json_unmarshal dec v = None → parseParameterValue dec v = VStr v)
  ∧ (∀ opts e,
       YAMLRules opts = false →
       BuildConfigFromPrefixes o dec getParametersByPath opts = Err e →
       (∃ prefix, prefix ∈ Prefixes opts ∧ getParametersByPath prefix = None
                  ∧ e = SourceFetchError prefix)
       ∨ (SortByDependencies opts = true ∧ ∃ cause, e = SortError cause))
  ∧ (∀ opts,
       YAMLRules opts = false → SortByDependencies opts = false →
       (∀ prefix, prefix ∈ Prefixes opts → is_Some (getParametersByPath prefix)) →
       is_Ok (BuildConfigFromPrefixes o dec getParametersByPath opts)).
Proof.
  assert (∀ opts e,
    YAMLRules opts = false →
    BuildConfigFromPrefixes o dec getParametersByPath opts = Err e →
    (∃ prefix, prefix ∈ Prefixes opts ∧ getParametersByPath prefix = None
               ∧ e = SourceFetchError prefix)
    ∨ (SortByDependencies opts = true ∧ ∃ cause, e = SortError cause)) as Herr.
  { intros opts e Hy. unfold BuildConfigFromPrefixes. rewrite Hy.
    destruct (jsonPrefixes _ _ _ _ _ _) as [configMap|e'] eqn:Hj.
    - destruct (SortByDependencies opts).
      + destruct (sortTypesByDependency o configMap).
        * destruct (JSONOutput opts); discriminate.
        * intros [= <-]. right. eauto.
      + destruct (JSONOutput opts); discriminate.
    - intros [= <-]. left. by eapply jsonPrefixes_Err. }
  split_and!.
  - intros v parsed Hv. unfold parseParameterValue. by rewrite Hv.
  - intros v Hv. unfold parseParameterValue. by rewrite Hv.
  - done.
  - intros opts Hy Hs Hfetch.
    destruct (BuildConfigFromPrefixes _ _ _ opts) as [d|e] eqn:Hb; [done|].
    destruct (Herr opts e Hy Hb) as [(p & Hp & Hnone & _)|[Hsort _]].
    + destruct (Hfetch p Hp) as [? ?]. congruence.
    + congruence.
Qed.

(** For a value that is no JSON text the string itself is kept. *)
Lemma parseParameterValue_total_witness :
  parseParameterValue exampleDecoders "1" = VNum 1
  ∧ parseParameterValue exampleDecoders "/dev/null" = VStr "/dev/null"
  ∧ is_Ok (BuildConfigFromPrefixes canonicalOrder exampleDecoders
             (λ _, Some [mkSsmParameter "/p/a" "/dev/null"])
             (mkBuildOptions ["/p"] true true false false)).
Proof.
  pose proof (parseParameterValue_total canonicalOrder exampleDecoders
                (λ _, Some [mkSsmParameter "/p/a" "/dev/null"]))
    as (Hsome & Hnone & _ & Hok).
  split_and!.
  - apply Hsome. reflexivity.
  - apply Hnone. reflexivity.
  - apply Hok; [reflexivity|reflexivity|]. intros prefix _. by eexists.
Defined.

(** ** Path classifier *)

Example extractRelativePath_examples :
  extractRelativePath "/p/a" "/p" true = "a"
  ∧ extractRelativePath "/p/a" "/p/" true = "a"
  ∧ extractRelativePath "/app/schema/types/User" "/app/schema" true = "types/User"
  ∧ extractRelativePath "/p" "/p" true = ""
  ∧ extractRelativePath "/p/a" "/p" false = "/p/a"
  ∧ getLastPathSegment "/app/schema/types/User" = "User".
Proof. by vm_compute. Qed.

Example GoStrings_examples :
  GoStrings.Split "a//b" = ["a"; ""; "b"]
  ∧ GoStrings.Split "" = [""]
  ∧ GoStrings.Join ["a"; "b"; "c"] = "a/b/c"
  ∧ GoStrings.TrimSuffix "/p/" "/" = "/p"
  ∧ GoStrings.TrimPrefix "/prod/x" "/p" = "rod/x"
  ∧ GoStrings.Trim "//a/b//" "/" = "a/b".
Proof. by vm_compute. Qed.

Lemma Split_nonempty s : GoStrings.Split s ≠ [].
Proof.
  destruct s as [|c s]; simpl; [done|].
  case_decide; [done|]. by destruct (GoStrings.Split s).
Qed.

Lemma Count_nonneg s : (0 ≤ GoStrings.Count s)%Z.
Proof. induction s as [|c s IH]; simpl; [lia|]. case_decide; lia. Qed.

(** Joining the parts of a path gives the path back, and a path has one
    part more than it has slashes. *)
Lemma Join_Split s : GoStrings.Join (GoStrings.Split s) = s.
Proof.
  induction s as [|c s IH]; [done|]. simpl.
  pose proof (Split_nonempty s) as Hne. case_decide as Hc.
  - subst c. destruct (GoStrings.Split s) as [|part parts]; [done|].
    simpl in *. by rewrite IH.
  - destruct (GoStrings.Split s) as [|part parts]; [done|].
    destruct parts as [|part' parts]; simpl in *; by rewrite <-IH.
Qed.

Lemma length_Split s :
  Z.of_nat (length (GoStrings.Split s)) = (GoStrings.Count s + 1)%Z.
Proof.
  induction s as [|c s IH]; [done|]. simpl.
  pose proof (Split_nonempty s) as Hne. case_decide.
  - simpl. lia.
  - destruct (GoStrings.Split s) as [|part parts]; [done|]. simpl in *. lia.
Qed.

Lemma Contains_Count s : GoStrings.Contains s = true ↔ (0 < GoStrings.Count s)%Z.
Proof.
  induction s as [|c s IH]; simpl; [split; [done|lia]|].
  pose proof (Count_nonneg s). case_decide; [split; [lia|done]|].
  rewrite IH. split; lia.
Qed.

(** ** Tree assembler: the array/object policy *)

Lemma depthScan_known firstDepth (children : list (string * SsmParameter)) :
  firstDepth ≠ (-1)%Z →
  depthScan firstDepth children = true ↔
    firstDepth = 0%Z ∧ ∀ kv, kv ∈ children → GoStrings.Count kv.1 = firstDepth.
Proof.
  intros Hfd. induction children as [|[childPath param] rest IH]; simpl.
  - rewrite bool_decide_eq_true. split; [|tauto].
    intros ->. split; [done|]. by intros kv ?%elem_of_nil.
  - rewrite decide_False by done.
    destruct (decide (GoStrings.Count childPath ≠ firstDepth)) as [Hne|Heq].
    + split; [done|]. intros [_ Hall]. destruct Hne.
      apply (Hall (childPath, param)). by left.
    + apply dec_stable in Heq. rewrite IH. split.
      * intros [-> Hall]. split; [done|].
        intros kv [->|?]%elem_of_cons; [done|by apply Hall].
      * intros [-> Hall]. split; [done|]. intros kv ?. apply Hall. by right.
Qed.

Lemma depthScan_start (children : list (string * SsmParameter)) :
  depthScan (-1) children = true ↔
    children ≠ [] ∧ ∀ kv, kv ∈ children → GoStrings.Count kv.1 = 0%Z.
Proof.
  destruct children as [|[childPath param] rest]; simpl.
  - split; [done|]. by intros [? _].
  - pose proof (Count_nonneg childPath).
    rewrite depthScan_known by lia. split.
    + intros [Hz Hall]. split; [done|].
      intros kv [->|?]%elem_of_cons; [done|]. rewrite Hall by done. done.
    + intros [_ Hall]. assert (GoStrings.Count childPath = 0%Z) as Hz.
      { apply (Hall (childPath, param)). by left. }
      split; [done|]. intros kv ?. rewrite Hz. apply Hall. by right.
Qed.

Lemma shouldBeArray_spec o (levelParams : gmap string SsmParameter) :
  shouldBeArray o levelParams = true ↔
    1 < size levelParams
    ∧ ∀ childPath, is_Some (levelParams !! childPath) →
                   GoStrings.Count childPath = 0%Z.
Proof.
  unfold shouldBeArray. case_decide as Hsz.
  - split; [done|]. lia.
  - rewrite depthScan_start. split.
    + intros [_ Hall]. split; [lia|]. intros childPath [param Hp].
      apply (Hall (childPath, param)). by apply elem_of_range.
    + intros [_ Hall]. split.
      * intros Hnil. pose proof (length_range o levelParams) as Hlen.
        rewrite Hnil in Hlen. simpl in Hlen. lia.
      * intros [childPath param] Hin%elem_of_range. apply Hall. by eexists.
Qed.

(** C7. A non-root level with more than one child is emitted as a
    sequence exactly when all its child keys hold the same number of
    slashes and that number is zero, and as a nested mapping otherwise;
    the policy never asks for a sequence at a level with at most one
    child. *)
Theorem processNestedLevel_policy (o : MapOrder) (dec : Decoders)
    (result : gmap string value) (levelKey : string)
    (levelParams : gmap string SsmParameter) :
  let sameDepthZero :=
    ∃ depth : Z,
      (∀ childPath, is_Some (levelParams !! childPath) →
                    GoStrings.Count childPath = depth)
      ∧ depth = 0%Z in
  let emitted := processNestedLevel o dec result levelKey levelParams !! levelKey in
  (1 < size levelParams →
     ((∃ items, emitted = Some (VSeq items)) ↔ sameDepthZero)
     ∧ (sameDepthZero → emitted = Some (VSeq (buildArrayFromMap o dec levelParams)))
     ∧ (¬ sameDepthZero →
        emitted = Some (VMap (buildNestedStructure o dec levelParams))))
  ∧ (size levelParams ≤ 1 → shouldBeArray o levelParams = false).
Proof.
  intros sameDepthZero emitted.
  assert (sameDepthZero ↔ ∀ childPath, is_Some (levelParams !! childPath) →
                                        GoStrings.Count childPath = 0%Z) as Hsame.
  { unfold sameDepthZero. split.
    - intros (depth & Hall & ->). done.
    - intros Hall. by exists 0%Z. }
  split.
  - intros Hsz. unfold emitted, processNestedLevel.
    rewrite decide_False by lia.
    destruct (shouldBeArray o levelParams) eqn:Hsba.
    + apply shouldBeArray_spec in Hsba as [_ Hall].
      rewrite lookup_insert_eq. split_and!.
      * split; [by rewrite Hsame | eauto].
      * done.
      * intros Hn. destruct Hn. by apply Hsame.
    + assert (¬ sameDepthZero) as Hn.
      { rewrite Hsame. intros Hall.
        assert (shouldBeArray o levelParams = true) as Ht
          by (by apply shouldBeArray_spec).
        congruence. }
      rewrite lookup_insert_eq. split_and!.
      * split; [by intros [items [=]] | done].
      * done.
      * done.
  - intros Hsz. unfold shouldBeArray. by rewrite decide_True.
Qed.

(** Two leaf children give a sequence of two elements; a leaf and a
    nested child give a mapping. *)
Lemma processNestedLevel_policy_witness :
  (∃ items,
     processNestedLevel canonicalOrder exampleDecoders ∅ "l"
       {[ "a" := mkSsmParameter "/p/l/a" "1"; "b" := mkSsmParameter "/p/l/b" "2" ]}
     !! "l" = Some (VSeq items))
  ∧ shouldBeArray canonicalOrder
      ({[ "a" := mkSsmParameter "/p/l/a" "1" ]} : gmap string SsmParameter) = false.
Proof.
  destruct (processNestedLevel_policy canonicalOrder exampleDecoders ∅ "l"
              {[ "a" := mkSsmParameter "/p/l/a" "1";
                 "b" := mkSsmParameter "/p/l/b" "2" ]})
    as [Hmany _].
  destruct (processNestedLevel_policy canonicalOrder exampleDecoders ∅ "l"
              ({[ "a" := mkSsmParameter "/p/l/a" "1" ]})) as [_ Hone].
  split.
  - destruct Hmany as (Hiff & _ & _); [vm_compute; lia|].
    apply Hiff. exists 0%Z. split; [|done].
    intros childPath [param Hp].
    apply lookup_insert_Some in Hp as [[<- _]|[_ Hp]]; [done|].
    apply lookup_singleton_Some in Hp as [<- _]. done.
  - apply Hone. vm_compute. lia.
Defined.

(** ** Tree assembler: levels *)

Lemma levelOf_root basePath stripPrefix q :
  extractRelativePath (Name q) basePath stripPrefix = "" →
  levelOf basePath stripPrefix q = (".", getLastPathSegment (Name q)).
Proof. intros Hrel. unfold levelOf. by rewrite Hrel, decide_True. Qed.

Lemma levelOf_nested basePath stripPrefix q :
  extractRelativePath (Name q) basePath stripPrefix ≠ "" →
  (levelOf basePath stripPrefix q).1 =
    default "" (head (GoStrings.Split
                        (extractRelativePath (Name q) basePath stripPrefix))).
Proof.
  intros Hrel. unfold levelOf. rewrite decide_False by done.
  pose proof (Split_nonempty (extractRelativePath (Name q) basePath stripPrefix)).
  by destruct (GoStrings.Split _) as [|part [|]].
Qed.

Section organize_facts.
Context (basePath : string) (stripPrefix : bool).

Local Abbreviation file := (fileParameter basePath stripPrefix).

Lemma file_lookup levels q L :
  file levels q !! L =
    if decide ((levelOf basePath stripPrefix q).1 = L)
    then Some (<[(levelOf basePath stripPrefix q).2 := q]> (default ∅ (levels !! L)))
    else levels !! L.
Proof.
  unfold fileParameter, putLevel.
  destruct (levelOf basePath stripPrefix q) as [lk ck]; simpl.
  rewrite lookup_insert. destruct (decide (lk = L)) as [->|]; done.
Qed.

Lemma organize_untouched (l : list SsmParameter) levels L :
  (∀ q, q ∈ l → (levelOf basePath stripPrefix q).1 ≠ L) →
  foldl file levels l !! L = levels !! L.
Proof.
  revert levels. induction l as [|q l IH]; intros levels Hl; simpl; [done|].
  rewrite IH by (intros q' ?; apply Hl; by right).
  rewrite file_lookup, decide_False; [done|]. apply Hl. by left.
Qed.

Lemma organize_is_Some (l : list SsmParameter) levels L :
  is_Some (foldl file levels l !! L) ↔
    is_Some (levels !! L) ∨ ∃ q, q ∈ l ∧ (levelOf basePath stripPrefix q).1 = L.
Proof.
  revert levels. induction l as [|q l IH]; intros levels; simpl.
  - split; [auto|]. intros [?|(q & []%elem_of_nil & _)]. done.
  - rewrite IH, file_lookup. case_decide as Hq.
    + split; [|eauto]. intros _. right. exists q. split; [by left|done].
    + split.
      * intros [?|(q' & ? & ?)]; [by left|]. right. exists q'. split; [by right|done].
      * intros [?|(q' & [->|?]%elem_of_cons & ?)]; [by left|done|].
        right. by exists q'.
Qed.

Lemma organize_fold params :
  organizeParametersByLevel params basePath stripPrefix = foldl file ∅ params.
Proof. reflexivity. Qed.

End organize_facts.

Section assemble_facts.
Context (o : MapOrder) (dec : Decoders).

Lemma processNestedLevel_insert levelKey (levelParams : gmap string SsmParameter) :
  ∃ v, ∀ result,
    processNestedLevel o dec result levelKey levelParams = <[levelKey := v]> result.
Proof.
  unfold processNestedLevel. case_decide as Hsz.
  - destruct (range_singleton_size o levelParams Hsz) as (c & q & _ & ->). simpl.
    case_decide; eauto.
  - destruct (shouldBeArray o levelParams); eauto.
Qed.

Lemma processNestedLevel_leaf result levelKey (q : SsmParameter) :
  processNestedLevel o dec result levelKey {[ "." := q ]}
  = <[levelKey := parseParameterValue dec (Value q)]> result.
Proof.
  unfold processNestedLevel. rewrite map_size_singleton, decide_True by done.
  destruct (range_singleton_size o ({[ "." := q ]} : gmap string SsmParameter))
    as (c & q' & Heq & ->); [apply map_size_singleton|].
  assert (({[ "." := q ]} : gmap string SsmParameter) !! c = Some q') as Hc
    by (rewrite Heq; apply lookup_singleton_eq).
  apply lookup_singleton_Some in Hc as [<- <-]. done.
Qed.

Lemma processRootLevel_single result key (q : SsmParameter) :
  processRootLevel o dec result {[ key := q ]}
  = <[key := parseParameterValue dec (Value q)]> result.
Proof.
  unfold processRootLevel. rewrite map_size_singleton, decide_False by lia.
  destruct (range_singleton_size o ({[ key := q ]} : gmap string SsmParameter))
    as (c & q' & Heq & ->); [apply map_size_singleton|].
  assert (({[ key := q ]} : gmap string SsmParameter) !! c = Some q') as Hc
    by (rewrite Heq; apply lookup_singleton_eq).
  apply lookup_singleton_Some in Hc as [<- <-]. done.
Qed.

Local Abbreviation emit := (emitLevel o dec).

Lemma emit_union result kv : emit result kv = emit ∅ kv ∪ result.
Proof.
  unfold emitLevel. case_decide.
  - unfold processRootLevel. case_decide as Hsz.
    + by rewrite insert_empty, insert_union_singleton_l.
    + destruct (decide (size kv.2 = 1)) as [H1|H1].
      * destruct (range_singleton_size o kv.2 H1) as (c & q & _ & ->). simpl.
        by rewrite insert_empty, insert_union_singleton_l.
      * assert (kv.2 = ∅) as -> by (apply map_size_empty_inv; lia).
        rewrite range_empty. simpl. by rewrite (left_id_L ∅ (∪)).
  - destruct (processNestedLevel_insert kv.1 kv.2) as [v Hv].
    by rewrite !Hv, insert_empty, insert_union_singleton_l.
Qed.

Lemma emit_fold_none (l : list (string * gmap string SsmParameter)) init key :
  (∀ kv, kv ∈ l → emit ∅ kv !! key = None) →
  foldl emit init l !! key = init !! key.
Proof.
  revert init. induction l as [|kv l IH]; intros init Hl; simpl; [done|].
  rewrite IH by (intros kv' ?; apply Hl; by right).
  rewrite emit_union, lookup_union_r; [done|]. apply Hl. by left.
Qed.

Lemma emit_fold_unique (l1 l2 : list (string * gmap string SsmParameter)) kv init key v :
  emit ∅ kv !! key = Some v →
  (∀ kv', kv' ∈ l2 → emit ∅ kv' !! key = None) →
  foldl emit init (l1 ++ kv :: l2) !! key = Some v.
Proof.
  intros Hkv Hl2. rewrite foldl_app. simpl.
  rewrite emit_fold_none by done.
  rewrite emit_union. by apply lookup_union_Some_l.
Qed.

Lemma emit_fold_is_Some (l : list (string * gmap string SsmParameter)) init key :
  is_Some (foldl emit init l !! key) ↔
    is_Some (init !! key) ∨ ∃ kv, kv ∈ l ∧ is_Some (emit ∅ kv !! key).
Proof.
  revert init. induction l as [|kv l IH]; intros init; simpl.
  - split; [auto|]. intros [?|(kv & []%elem_of_nil & _)]. done.
  - rewrite IH, emit_union, lookup_union_is_Some. split.
    + intros [[?|?]|(kv' & ? & ?)].
      * right. exists kv. split; [by left|done].
      * by left.
      * right. exists kv'. split; [by right|done].
    + intros [?|(kv' & [->|?]%elem_of_cons & ?)]; [by auto|by auto|].
      right. by exists kv'.
Qed.

Lemma buildGenericStructure_fold levels :
  buildGenericStructure o dec levels = foldl emit ∅ (range o levels).
Proof. reflexivity. Qed.

Lemma emit_nested_lookup L (m : gmap string SsmParameter) key :
  L ≠ "." → is_Some (emit ∅ (L, m) !! key) ↔ key = L.
Proof.
  intros HL. unfold emitLevel. simpl. rewrite decide_False by done.
  destruct (processNestedLevel_insert L m) as [v ->].
  rewrite insert_empty. split.
  - intros [w [-> _]%lookup_singleton_Some]. done.
  - intros ->. rewrite lookup_singleton_eq. eauto.
Qed.

Lemma range_split {A} (m : gmap string A) k v :
  m !! k = Some v →
  ∃ l1 l2, range o m = l1 ++ (k, v) :: l2 ∧ (k ∉ l2.*1) ∧ (k ∉ l1.*1).
Proof.
  intros Hk. assert ((k, v) ∈ range o m) as Hin by (by apply elem_of_range).
  apply list_elem_of_split in Hin as (l1 & l2 & Heq).
  exists l1, l2. split; [done|].
  pose proof (NoDup_fst_range o m) as Hnd. rewrite Heq, fmap_app, fmap_cons in Hnd.
  apply NoDup_app in Hnd as (_ & Hdisj & [Hk2 _]%NoDup_cons). split; [done|].
  intros Hin. apply (Hdisj _ Hin). by left.
Qed.

Lemma buildGenericStructure_root levels (m0 : gmap string SsmParameter) key v :
  levels !! "." = Some m0 →
  emit ∅ (".", m0) !! key = Some v →
  levels !! key = None →
  buildGenericStructure o dec levels !! key = Some v.
Proof.
  intros Hroot Hv Hkey.
  destruct (range_split levels "." m0 Hroot) as (l1 & l2 & Heq & Hl2 & _).
  rewrite buildGenericStructure_fold, Heq.
  apply emit_fold_unique; [done|]. intros [L m] Hin.
  assert (L ≠ ".") as HL.
  { intros ->. apply Hl2. apply list_elem_of_fmap. by exists (".", m). }
  destruct (emit ∅ (L, m) !! key) eqn:He; [|done].
  assert (key = L) as -> by (apply (emit_nested_lookup L m key HL); eauto).
  assert ((L, m) ∈ range o levels) as Hin'.
  { rewrite Heq. apply elem_of_app. right. by right. }
  apply elem_of_range in Hin'. congruence.
Qed.

Lemma buildGenericStructure_nested levels L (m : gmap string SsmParameter) v :
  L ≠ "." →
  levels !! L = Some m →
  (∀ result, processNestedLevel o dec result L m = <[L := v]> result) →
  (∀ m0, levels !! "." = Some m0 → emit ∅ (".", m0) !! L = None) →
  buildGenericStructure o dec levels !! L = Some v.
Proof.
  intros HL Hm Hv Hroot.
  destruct (range_split levels L m Hm) as (l1 & l2 & Heq & Hl2 & _).
  rewrite buildGenericStructure_fold, Heq.
  apply emit_fold_unique.
  - unfold emitLevel. simpl. rewrite decide_False by done.
    rewrite Hv. apply lookup_insert_eq.
  - intros [L' m'] Hin.
    assert ((L', m') ∈ range o levels) as Hin'.
    { rewrite Heq. apply elem_of_app. right. by right. }
    apply elem_of_range in Hin'.
    destruct (decide (L' = ".")) as [->|HL']; [by apply Hroot|].
    destruct (emit ∅ (L', m') !! L) eqn:He; [|done].
    assert (L = L') as <- by (apply (emit_nested_lookup L' m' L HL'); eauto).
    destruct Hl2. apply list_elem_of_fmap. by exists (L, m').
Qed.

Lemma buildGenericStructure_is_Some levels key :
  is_Some (buildGenericStructure o dec levels !! key) ↔
    (∃ m0, levels !! "." = Some m0 ∧ is_Some (emit ∅ (".", m0) !! key))
    ∨ (key ≠ "." ∧ is_Some (levels !! key)).
Proof.
  rewrite buildGenericStructure_fold, emit_fold_is_Some, lookup_empty. split.
  - intros [[? [=]]|([L m] & Hin%elem_of_range & Hsome)].
    destruct (decide (L = ".")) as [->|HL]; [left; eauto|].
    right. apply (emit_nested_lookup L m key HL) in Hsome as ->. eauto.
  - intros [(m0 & Hm0 & Hsome)|[Hkey [m Hm]]]; right.
    + exists (".", m0). split; [by apply elem_of_range|done].
    + exists (key, m). split; [by apply elem_of_range|].
      by apply emit_nested_lookup.
Qed.

End assemble_facts.

(** ** Tree assembler: the two scenarios at the root *)

(** C5 (as the code has it). The parameters [/p/a = 1] and [/p/b = 2]
    under prefix [/p], prefix stripped, have the one-segment relative
    paths [a] and [b]: each is the only child of its own level, and the
    document maps [a] to the number 1 and [b] to the number 2. *)
Theorem two_leaves_document (o : MapOrder) (dec : Decoders)
    (sortByDependencies : bool) :
  json_unmarshal dec "1" = Some (VNum 1) →
  json_unmarshal dec "2" = Some (VNum 2) →
  let params := [mkSsmParameter "/p/a" "1"; mkSsmParameter "/p/b" "2"] in
  buildStructure o dec params "/p" true sortByDependencies
  = {[ "a" := VNum 1; "b" := VNum 2 ]}
  ∧ ∀ getParametersByPath,
      getParametersByPath "/p" = Some params →
      BuildJsonFromPrefix o dec getParametersByPath "/p" false
      = Ok (IndentedJSON {[ "a" := VNum 1; "b" := VNum 2 ]}).
Proof.
  intros H1 H2 params.
  assert (∀ sort, buildStructure o dec params "/p" true sort
                  = {[ "a" := VNum 1; "b" := VNum 2 ]}) as Hdoc.
  { intros sort. unfold buildStructure, params.
    assert (organizeParametersByLevel
              [mkSsmParameter "/p/a" "1"; mkSsmParameter "/p/b" "2"] "/p" true
            = {[ "a" := {[ "." := mkSsmParameter "/p/a" "1" ]};
                 "b" := {[ "." := mkSsmParameter "/p/b" "2" ]} ]}) as ->
      by (vm_compute; reflexivity).
    apply map_eq. intros key.
    destruct (decide (key = "a")) as [->|Ha]; [|destruct (decide (key = "b")) as [->|Hb]].
    - rewrite (buildGenericStructure_nested o dec _ "a"
                 {[ "." := mkSsmParameter "/p/a" "1" ]} (VNum 1)); try done.
      intros result. rewrite processNestedLevel_leaf.
      unfold parseParameterValue. simpl. by rewrite H1.
    - rewrite (buildGenericStructure_nested o dec _ "b"
                 {[ "." := mkSsmParameter "/p/b" "2" ]} (VNum 2)); try done.
      intros result. rewrite processNestedLevel_leaf.
      unfold parseParameterValue. simpl. by rewrite H2.
    - rewrite lookup_insert_ne, lookup_singleton_ne by done.
      apply eq_None_not_Some.
      rewrite buildGenericStructure_is_Some.
      intros [(m0 & Hm0 & _)|[_ [m Hm]]].
      + done.
      + rewrite lookup_insert_ne, lookup_singleton_ne in Hm by done. done. }
  split; [done|].
  intros fetch Hfetch.
  unfold BuildJsonFromPrefix, BuildConfigFromPrefixes.
  cbn -[buildStructure mergeMaps]. rewrite Hfetch, Hdoc.
  assert (mergeMaps ∅ ({[ "a" := VNum 1; "b" := VNum 2 ]} : gmap string value)
          = {[ "a" := VNum 1; "b" := VNum 2 ]}) as -> by (vm_compute; reflexivity).
  done.
Qed.

Lemma two_leaves_document_witness :
  buildStructure canonicalOrder exampleDecoders
    [mkSsmParameter "/p/a" "1"; mkSsmParameter "/p/b" "2"] "/p" true false
  = {[ "a" := VNum 1; "b" := VNum 2 ]}.
Proof.
  apply (two_leaves_document canonicalOrder exampleDecoders false);
    reflexivity.
Defined.

(** C5 as stated fails: the document has no [items] key at all. *)
Lemma two_leaves_document_counterexample :
  ¬ ∃ items,
      buildStructure canonicalOrder exampleDecoders
        [mkSsmParameter "/p/a" "1"; mkSsmParameter "/p/b" "2"] "/p" true false
      = {[ "items" := VSeq items ]}
      ∧ items ≡ₚ [VNum 1; VNum 2].
Proof.
  intros (items & Hdoc & _).
  apply (f_equal (λ m : gmap string value, m !! "a")) in Hdoc.
  vm_compute in Hdoc. discriminate.
Qed.

(** C6 (as the code has it). When exactly one parameter is at the root
    level, and no other parameter's relative path starts with the segment
    [.] or with the last path segment of the root-level one, the tree maps
    that last segment to the parsed value itself, in every iteration
    order; the other keys of the tree are the first segments of the other
    parameters, so that nothing is put under [items] on behalf of the
    root-level entry. *)
Theorem single_root_entry (o : MapOrder) (dec : Decoders)
    (before after : list SsmParameter) (p : SsmParameter)
    (basePath : string) (stripPrefix sortByDependencies : bool) :
  let relative q := extractRelativePath (Name q) basePath stripPrefix in
  let firstSegment q := default "" (head (GoStrings.Split (relative q))) in
  let key := getLastPathSegment (Name p) in
  let tree :=
    buildStructure o dec (before ++ p :: after) basePath stripPrefix
                   sortByDependencies in
  relative p = "" →
  (∀ q, q ∈ before ++ after → relative q ≠ "") →
  (∀ q, q ∈ before ++ after → firstSegment q ≠ "." ∧ firstSegment q ≠ key) →
  tree !! key = Some (parseParameterValue dec (Value p))
  ∧ (∀ k, is_Some (tree !! k) ↔
          k = key ∨ ∃ q, q ∈ before ++ after ∧ firstSegment q = k).
Proof.
  intros relative firstSegment key tree Hroot Hothers Hfree.
  set (levels := organizeParametersByLevel (before ++ p :: after) basePath stripPrefix).
  assert (tree = buildGenericStructure o dec levels) as Htree.
  { unfold tree, buildStructure. by destruct before. }
  assert (∀ q, q ∈ before ++ after →
               (levelOf basePath stripPrefix q).1 = firstSegment q) as Hlevel.
  { intros q Hq. apply levelOf_nested. by apply Hothers. }
  assert (levels !! "." = Some {[ key := p ]}) as Hdot.
  { unfold levels. rewrite organize_fold, foldl_app. simpl.
    rewrite organize_untouched.
    2:{ intros q Hq. rewrite Hlevel by (apply elem_of_app; by right).
        apply Hfree. apply elem_of_app. by right. }
    rewrite file_lookup, levelOf_root by done. simpl.
    rewrite organize_untouched.
    2:{ intros q Hq. rewrite Hlevel by (apply elem_of_app; by left).
        apply Hfree. apply elem_of_app. by left. }
    rewrite lookup_empty. simpl. by rewrite insert_empty. }
  assert (∀ L, L ≠ "." →
            is_Some (levels !! L) ↔ ∃ q, q ∈ before ++ after ∧ firstSegment q = L)
    as Hnested.
  { intros L HL. unfold levels. rewrite organize_fold, organize_is_Some, lookup_empty.
    split.
    - intros [[? [=]]|(q & Hq & HqL)].
      apply elem_of_app in Hq as [Hq|[->|Hq]%elem_of_cons].
      + exists q. split; [apply elem_of_app; by left|].
        rewrite <-Hlevel; [done|]. apply elem_of_app; by left.
      + rewrite levelOf_root in HqL by done. done.
      + exists q. split; [apply elem_of_app; by right|].
        rewrite <-Hlevel; [done|]. apply elem_of_app; by right.
    - intros (q & Hq & HqL). right. exists q. split.
      + apply elem_of_app in Hq as [?|?]; apply elem_of_app; [by left|right; by right].
      + by rewrite Hlevel. }
  assert (key ≠ "." → levels !! key = None) as Hkey.
  { intros Hk. apply eq_None_not_Some. rewrite Hnested by done.
    intros (q & Hq & Hqk). by apply (Hfree q Hq). }
  split.
  - rewrite Htree.
    destruct (range_split o levels "." _ Hdot) as (l1 & l2 & Heq & Hl2 & _).
    rewrite buildGenericStructure_fold, Heq.
    apply emit_fold_unique.
    + unfold emitLevel. simpl. rewrite processRootLevel_single, insert_empty.
      apply lookup_singleton_eq.
    + intros [L m] Hin.
      assert (L ≠ ".") as HL.
      { intros ->. apply Hl2. apply list_elem_of_fmap. by exists (".", m). }
      unfold emitLevel. simpl. rewrite decide_False by done.
      destruct (processNestedLevel_insert o dec L m) as [v ->].
      rewrite insert_empty. apply lookup_singleton_ne. intros ->.
      assert ((key, m) ∈ range o levels) as Hin'.
      { rewrite Heq. apply elem_of_app. right. by right. }
      apply elem_of_range in Hin'. rewrite Hkey in Hin' by done. done.
  - intros k. rewrite Htree, buildGenericStructure_is_Some. split.
    + intros [(m0 & Hm0 & Hsome)|[Hk Hsome]].
      * left. rewrite Hdot in Hm0. injection Hm0 as <-.
        unfold emitLevel in Hsome. simpl in Hsome.
        rewrite processRootLevel_single, insert_empty in Hsome.
        destruct Hsome as [v [-> _]%lookup_singleton_Some]. done.
      * right. by apply Hnested.
    + intros [->|Hq].
      * left. exists {[ key := p ]}. split; [done|].
        unfold emitLevel. simpl.
        rewrite processRootLevel_single, insert_empty, lookup_singleton_eq.
        eauto.
      * right. destruct Hq as (q & Hq & <-). split; [by apply Hfree|].
        apply Hnested; [by apply Hfree|eauto].
Qed.

(** A root-level parameter next to an unrelated nested one. *)
Lemma single_root_entry_witness :
  buildStructure canonicalOrder exampleDecoders
    ([] ++ mkSsmParameter "/p" "1" :: [mkSsmParameter "/p/q/r" "2"]) "/p" true false
  !! "p" = Some (VNum 1).
Proof.
  apply (single_root_entry canonicalOrder exampleDecoders
           [] [mkSsmParameter "/p/q/r" "2"] (mkSsmParameter "/p" "1") "/p" true false).
  - reflexivity.
  - intros q ->%list_elem_of_singleton. vm_compute. discriminate.
  - intros q ->%list_elem_of_singleton. vm_compute. split; discriminate.
Defined.

(** C6 as stated fails on both counts. With [/p] at the root level and
    [/p/p] below it, the level [p] is emitted under the key the root-level
    entry uses: which of the two values the tree keeps depends on the
    iteration order, and in stdpp's enumeration order it is the other
    one. With [/p] and [/p/.], the second parameter is filed under the
    root level's own name, and the root-level value ends up inside
    [items]. *)
Lemma single_root_entry_counterexample :
  (extractRelativePath "/p" "/p" true = ""
   ∧ extractRelativePath "/p/p" "/p" true ≠ ""
   ∧ buildStructure canonicalOrder exampleDecoders
       [mkSsmParameter "/p" "1"; mkSsmParameter "/p/p" "2"] "/p" true false
     !! getLastPathSegment "/p"
     ≠ Some (parseParameterValue exampleDecoders "1")
   ∧ buildStructure canonicalOrder exampleDecoders
       [mkSsmParameter "/p" "1"; mkSsmParameter "/p/p" "2"] "/p" true false
     ≠ buildStructure reverseOrder exampleDecoders
         [mkSsmParameter "/p" "1"; mkSsmParameter "/p/p" "2"] "/p" true false)
  ∧ (extractRelativePath "/p/." "/p" true ≠ ""
     ∧ buildStructure canonicalOrder exampleDecoders
         [mkSsmParameter "/p" "1"; mkSsmParameter "/p/." "2"] "/p" true false
       = {[ "items" := VSeq [VNum 2; VNum 1] ]}).
Proof.
  vm_compute. split_and!; try done.
Qed.

(** Two leaves under one level make a sequence, in the order of the
    iteration; a leaf next to a deeper path makes a mapping. *)
Example siblings_examples :
  buildStructure canonicalOrder exampleDecoders
    [mkSsmParameter "/p/user/age" "30"; mkSsmParameter "/p/user/zip" "10115"]
    "/p" true false
  = {[ "user" := VSeq [VNum 30; VNum 10115] ]}
  ∧ buildStructure reverseOrder exampleDecoders
      [mkSsmParameter "/p/user/age" "30"; mkSsmParameter "/p/user/zip" "10115"]
      "/p" true false
    = {[ "user" := VSeq [VNum 10115; VNum 30] ]}
  ∧ buildStructure canonicalOrder exampleDecoders
      [mkSsmParameter "/p/user/address/zip" "10115";
       mkSsmParameter "/p/user/age" "30"] "/p" true false
    = {[ "user" := VMap {[ "address" := VMap {[ "zip" := VNum 10115 ]};
                           "age" := VNum 30 ]} ]}.
Proof. by vm_compute. Qed.

(** ** YAML rules *)

Section yaml_facts.
Context (dec : Decoders) (basePath : string) (stripPrefix : bool).

Local Abbreviation relative q := (extractRelativePath (Name q) basePath stripPrefix).
Local Abbreviation key := (ruleKey basePath stripPrefix).

Lemma yamlRules_app result (l1 l2 : list SsmParameter) :
  yamlRules dec basePath stripPrefix result (l1 ++ l2) =
    match yamlRules dec basePath stripPrefix result l1 with
    | Ok result' => yamlRules dec basePath stripPrefix result' l2
    | Err e => Err e
    end.
Proof.
  revert result. induction l1 as [|q l1 IH]; intros result; simpl; [done|].
  destruct (yamlRule dec basePath stripPrefix result q); [apply IH|done].
Qed.

Lemma yamlRule_slice result q l :
  GoStrings.Contains (relative q) = false →
  yaml_unmarshal_map dec (Value q) = None →
  yaml_unmarshal_slice dec (Value q) = Some l →
  yamlRule dec basePath stripPrefix result q =
    if decide (is_Some (result !! key q))
    then Err (DuplicateKeyError (key q))
    else Ok (<[key q := VSeq l]> result).
Proof.
  intros Hflat Hmap Hslice. unfold yamlRule, ruleKey.
  by rewrite Hflat, Hmap, Hslice.
Qed.

Lemma yamlRule_map result q m :
  GoStrings.Contains (relative q) = false →
  yaml_unmarshal_map dec (Value q) = Some m →
  yamlRule dec basePath stripPrefix result q = Ok (mergeMaps result m).
Proof.
  intros Hflat Hmap. unfold yamlRule. by rewrite Hflat, Hmap.
Qed.

Lemma yamlRule_keeps result q result' k :
  yamlRule dec basePath stripPrefix result q = Ok result' →
  is_Some (result !! k) → is_Some (result' !! k).
Proof.
  unfold yamlRule. destruct (GoStrings.Contains _); [done|].
  destruct (yaml_unmarshal_map dec (Value q)) as [m|].
  - intros [= <-] [v Hv]. rewrite mergeMaps_lookup, Hv. by destruct (m !! k).
  - destruct (yaml_unmarshal_slice dec (Value q)) as [l|]; [|done].
    destruct (decide (is_Some _)); [done|]. intros [= <-] Hk.
    rewrite lookup_insert. destruct (decide (_ = k)); eauto.
Qed.

Lemma yamlRules_keeps (l : list SsmParameter) result result' k :
  yamlRules dec basePath stripPrefix result l = Ok result' →
  is_Some (result !! k) → is_Some (result' !! k).
Proof.
  revert result. induction l as [|q l IH]; intros result; simpl.
  - by intros [= <-].
  - destruct (yamlRule dec basePath stripPrefix result q) as [r|] eqn:Hq; [|done].
    intros Hl Hk. eapply IH; [done|]. by eapply yamlRule_keeps.
Qed.

Lemma yamlRules_slices (l : list SsmParameter) result :
  (∀ q, q ∈ l →
        GoStrings.Contains (relative q) = false
        ∧ yaml_unmarshal_map dec (Value q) = None
        ∧ is_Some (yaml_unmarshal_slice dec (Value q))) →
  NoDup (key <$> l) →
  (∀ q, q ∈ l → result !! key q = None) →
  yamlRules dec basePath stripPrefix result l =
    Ok (list_to_map
          ((λ q, (key q,
                  VSeq (default [] (yaml_unmarshal_slice dec (Value q))))) <$> l)
        ∪ result).
Proof.
  revert result. induction l as [|q l IH]; intros result Hall Hnd Hfresh; simpl.
  - by rewrite (left_id_L ∅ (∪)).
  - apply NoDup_cons in Hnd as [Hq Hnd].
    destruct (Hall q) as (Hflat & Hmap & [s Hs]); [by left|].
    rewrite (yamlRule_slice result q s Hflat Hmap Hs).
    rewrite decide_False by (rewrite Hfresh; [by intros [? [=]]|by left]).
    rewrite IH; [|intros q' ?; apply Hall; by right|done|].
    + f_equal. rewrite Hs. simpl.
      rewrite <-insert_union_l. rewrite <-insert_union_r; [done|].
      apply not_elem_of_list_to_map_1. rewrite <-list_fmap_compose.
      intros Hin. apply Hq.
      apply list_elem_of_fmap in Hin as (q' & Hk & Hq').
      apply list_elem_of_fmap. by exists q'.
    + intros q' Hq'. rewrite lookup_insert_ne.
      * apply Hfresh. by right.
      * intros Heq. apply Hq. apply list_elem_of_fmap. by exists q'.
Qed.

End yaml_facts.

(** C9 (as the code has it). The duplicate check of the YAML rules is made
    for a parameter whose value decodes as a sequence and not as a
    mapping: when its rule key is already in the document built from the
    parameters before it, the build fails with the duplicate-key error,
    and so it does for two such parameters with one rule key, once the
    parameters before the second have been taken without error. Such
    parameters with pairwise distinct rule keys are kept side by side,
    each under its own key. A parameter whose value decodes as a mapping
    is deep-merged into the document, without any duplicate check. *)
Theorem yaml_rule_keys (dec : Decoders) (basePath : string) (stripPrefix : bool) :
  let key := ruleKey basePath stripPrefix in
  let flat q :=
    GoStrings.Contains (extractRelativePath (Name q) basePath stripPrefix) = false in
  let sequenceRule q :=
    flat q ∧ yaml_unmarshal_map dec (Value q) = None
    ∧ is_Some (yaml_unmarshal_slice dec (Value q)) in
  let build params := buildYAMLStructure dec params basePath stripPrefix in
  (∀ before p after doc,
     sequenceRule p → build before = Ok doc → is_Some (doc !! key p) →
     build (before ++ p :: after) = Err (DuplicateKeyError (key p)))
  ∧ (∀ before p1 between p2 after doc,
       sequenceRule p1 → sequenceRule p2 → key p1 = key p2 →
       build (before ++ p1 :: between) = Ok doc →
       build (before ++ p1 :: between ++ p2 :: after)
       = Err (DuplicateKeyError (key p2)))
  ∧ (∀ params,
       (∀ q, q ∈ params → sequenceRule q) → NoDup (key <$> params) →
       build params =
         Ok (list_to_map
               ((λ q, (key q,
                       VSeq (default [] (yaml_unmarshal_slice dec (Value q)))))
                  <$> params)))
  ∧ (∀ before p m doc,
       flat p → yaml_unmarshal_map dec (Value p) = Some m →
       build before = Ok doc →
       build (before ++ [p]) = Ok (mergeMaps doc m)).
Proof.
  intros key flat sequenceRule build.
  assert (∀ before p after doc,
     sequenceRule p → build before = Ok doc → is_Some (doc !! key p) →
     build (before ++ p :: after) = Err (DuplicateKeyError (key p))) as Hdup.
  { intros before p after doc (Hflat & Hmap & [l Hl]) Hdoc Hkey.
    unfold build, buildYAMLStructure in *. rewrite yamlRules_app, Hdoc. simpl.
    rewrite (yamlRule_slice dec basePath stripPrefix doc p l Hflat Hmap Hl).
    by rewrite decide_True. }
  split_and!.
  - done.
  - intros before p1 between p2 after doc Hp1 Hp2 Hkeys Hdoc.
    replace (before ++ p1 :: between ++ p2 :: after)
      with ((before ++ p1 :: between) ++ p2 :: after)
      by (by rewrite <-app_assoc).
    apply (Hdup _ _ _ doc); [done|done|].
    unfold build, buildYAMLStructure in Hdoc.
    rewrite yamlRules_app in Hdoc.
    destruct (yamlRules dec basePath stripPrefix ∅ before) as [d0|] eqn:Hd0; [|done].
    simpl in Hdoc.
    destruct Hp1 as (Hflat & Hmap & [l Hl]).
    rewrite (yamlRule_slice dec basePath stripPrefix d0 p1 l Hflat Hmap Hl) in Hdoc.
    destruct (decide (is_Some (d0 !! ruleKey basePath stripPrefix p1))); [done|].
    eapply yamlRules_keeps; [exact Hdoc|].
    unfold key in *. rewrite <-Hkeys, lookup_insert_eq. eauto.
  - intros params Hall Hnd. unfold build, buildYAMLStructure.
    rewrite (yamlRules_slices dec basePath stripPrefix params ∅); try done.
    by rewrite (right_id_L ∅ (∪)).
  - intros before p m doc Hflat Hmap Hdoc.
    unfold build, buildYAMLStructure in *. rewrite yamlRules_app, Hdoc. simpl.
    by rewrite (yamlRule_map dec basePath stripPrefix doc p m Hflat Hmap).
Qed.

(** Decides the three conditions of a sequence-valued flat parameter at a
    concrete parameter. *)
Ltac sequence_rule := vm_compute; split_and!; [done | done | by eexists].

(** The scenario of the two block lists: under one key the second is
    refused, under two keys both are kept; a list is also refused when
    its key came in with an earlier mapping. *)
Lemma yaml_rule_keys_witness :
  buildYAMLStructure exampleDecoders
    ([] ++ mkSsmParameter "/r/blockedIps" "[1.2.3.4]"
        :: [] ++ mkSsmParameter "/r/blockedIps" "[5.6.7.8]" :: [])
    "/r" true
  = Err (DuplicateKeyError "blockedIps")
  ∧ buildYAMLStructure exampleDecoders
      [mkSsmParameter "/r/blockedIps" "[1.2.3.4]";
       mkSsmParameter "/r/blockedIps2" "[5.6.7.8]"] "/r" true
    = Ok {[ "blockedIps" := VSeq [VStr "1.2.3.4"];
            "blockedIps2" := VSeq [VStr "5.6.7.8"] ]}
  ∧ buildYAMLStructure exampleDecoders
      ([mkSsmParameter "/r/all" "blockedIps: [1.2.3.4]"]
         ++ mkSsmParameter "/r/blockedIps" "[5.6.7.8]" :: [])
      "/r" true
    = Err (DuplicateKeyError "blockedIps").
Proof.
  destruct (yaml_rule_keys exampleDecoders "/r" true) as (Hdup & Htwo & Hkept & _).
  split_and!.
  - apply (Htwo [] (mkSsmParameter "/r/blockedIps" "[1.2.3.4]") []
                (mkSsmParameter "/r/blockedIps" "[5.6.7.8]") []
                {[ "blockedIps" := VSeq [VStr "1.2.3.4"] ]}).
    + sequence_rule.
    + sequence_rule.
    + reflexivity.
    + vm_compute. reflexivity.
  - rewrite Hkept.
    + vm_compute. reflexivity.
    + intros q [->|[->|[]%elem_of_nil]%elem_of_cons]%elem_of_cons;
        sequence_rule.
    + vm_compute. apply NoDup_cons. split; [|apply NoDup_singleton].
      intros [=]%list_elem_of_singleton.
  - apply (Hdup [mkSsmParameter "/r/all" "blockedIps: [1.2.3.4]"]
                (mkSsmParameter "/r/blockedIps" "[5.6.7.8]") []
                {[ "blockedIps" := VSeq [VStr "1.2.3.4"] ]}).
    + sequence_rule.
    + vm_compute. reflexivity.
    + vm_compute. by eexists.
Defined.

(** C9 as stated fails: two parameters whose values are mappings with the
    same top-level key are merged, and so are a list under a key and a
    later mapping with that key; no error is raised. *)
Lemma yaml_rule_keys_counterexample :
  buildYAMLStructure exampleDecoders
    [mkSsmParameter "/r/a" "blockedIps: [1.2.3.4]";
     mkSsmParameter "/r/b" "blockedIps: [5.6.7.8]"] "/r" true
  = Ok {[ "blockedIps" := VSeq [VStr "1.2.3.4"; VStr "5.6.7.8"] ]}
  ∧ buildYAMLStructure exampleDecoders
      [mkSsmParameter "/r/blockedIps" "[1.2.3.4]";
       mkSsmParameter "/r/more" "blockedIps: [5.6.7.8]"] "/r" true
    = Ok {[ "blockedIps" := VSeq [VStr "1.2.3.4"; VStr "5.6.7.8"] ]}.
Proof. split; vm_compute; reflexivity. Qed.

(** ** Dependency sorter: the guards *)

(** C10. A mapping without a [query] key is refused by the dependency
    sort, whatever its [types] are, and a JSON-mode build that asks for
    the sort then fails with the error of the sort. *)
Theorem sort_requires_query (o : MapOrder) (schema : gmap string value) :
  schema !! "query" = None →
  is_Err (sortTypesByDependency o schema)
  ∧ (∀ rawTypes, schema !! "types" = Some (VSeq rawTypes) →
       sortTypesByDependency o schema = Err QueryNotFoundError)
  ∧ (∀ dec getParametersByPath opts,
       YAMLRules opts = false → SortByDependencies opts = true →
       jsonPrefixes o dec getParametersByPath opts ∅ (Prefixes opts) = Ok schema →
       ∃ cause,
         BuildConfigFromPrefixes o dec getParametersByPath opts
         = Err (SortError cause)).
Proof.
  intros Hq.
  assert (is_Err (sortTypesByDependency o schema)) as Herr.
  { unfold sortTypesByDependency. rewrite Hq.
    by destruct (schema !! "types") as [[]|]. }
  split_and!.
  - done.
  - intros rawTypes Ht. unfold sortTypesByDependency. by rewrite Ht, Hq.
  - intros dec fetch opts Hy Hs Hj.
    unfold BuildConfigFromPrefixes. rewrite Hy, Hj, Hs.
    destruct (sortTypesByDependency o schema) as [|e]; [done|]. by exists e.
Qed.

(** An acyclic [types] sequence without [query]: the sort fails, and so
    does the build of a prefix that holds types and no query. *)
Lemma sort_requires_query_witness :
  sortTypesByDependency canonicalOrder
    {[ "types" := VSeq [VMap {[ "name" := VStr "A" ]}] ]}
  = Err QueryNotFoundError
  ∧ is_Err (BuildJsonFromPrefix canonicalOrder exampleDecoders
              (λ _, Some [mkSsmParameter "/s/types/a" "1";
                          mkSsmParameter "/s/types/b" "2"])
              "/s" true).
Proof.
  split.
  - destruct (sort_requires_query canonicalOrder
                {[ "types" := VSeq [VMap {[ "name" := VStr "A" ]}] ]})
      as (_ & Hq & _); [reflexivity|].
    by apply (Hq [VMap {[ "name" := VStr "A" ]}]).
  - destruct (sort_requires_query canonicalOrder
                {[ "types" := VSeq [VNum 1; VNum 2] ]})
      as (_ & _ & Hbuild); [reflexivity|].
    destruct (Hbuild exampleDecoders
                (λ _, Some [mkSsmParameter "/s/types/a" "1";
                            mkSsmParameter "/s/types/b" "2"])
                (mkBuildOptions ["/s"] true true false true))
      as [cause Hcause]; [reflexivity|reflexivity|by vm_compute|].
    unfold BuildJsonFromPrefix. by rewrite Hcause.
Defined.

(** ** Dependency sorter: the index of the declared types *)

Lemma indexType_named ix t name :
  entryName t = Some name →
  indexType ix t = {| typeDefinitions := <[name := t]> (typeDefinitions ix);
                      typeNames := <[name := true]> (typeNames ix) |}.
Proof.
  unfold entryName, indexType. destruct t as [| | | | |typeMap]; try done.
  destruct (typeMap !! "name") as [[]|]; try done. by intros [= ->].
Qed.

Lemma indexType_unnamed ix t : entryName t = None → indexType ix t = ix.
Proof.
  unfold entryName, indexType. destruct t as [| | | | |typeMap]; try done.
  by destruct (typeMap !! "name") as [[]|].
Qed.

Lemma indexTypes_snoc rawTypes t :
  indexTypes (rawTypes ++ [t]) = indexType (indexTypes rawTypes) t.
Proof. unfold indexTypes. by rewrite foldl_snoc. Qed.

Lemma indexTypes_names rawTypes name :
  typeNames (indexTypes rawTypes) !! name =
    (λ _, true) <$> typeDefinitions (indexTypes rawTypes) !! name.
Proof.
  induction rawTypes as [|t rawTypes IH] using rev_ind; [done|].
  rewrite indexTypes_snoc. destruct (entryName t) as [n|] eqn:Hn.
  - rewrite (indexType_named _ t n Hn). simpl.
    rewrite !lookup_insert. by case_decide.
  - by rewrite (indexType_unnamed _ t Hn).
Qed.

Lemma indexTypes_declared rawTypes name :
  is_Some (typeNames (indexTypes rawTypes) !! name) ↔
  is_Some (typeDefinitions (indexTypes rawTypes) !! name).
Proof. rewrite indexTypes_names. by rewrite fmap_is_Some. Qed.

Lemma indexTypes_lookup rawTypes name t :
  typeDefinitions (indexTypes rawTypes) !! name = Some t →
  t ∈ rawTypes ∧ entryName t = Some name.
Proof.
  induction rawTypes as [|t' rawTypes IH] using rev_ind; [done|].
  rewrite indexTypes_snoc. destruct (entryName t') as [n|] eqn:Hn.
  - rewrite (indexType_named _ t' n Hn). simpl. rewrite lookup_insert.
    case_decide as Heq.
    + intros [= <-]. subst. split; [|done]. apply elem_of_app. right. by left.
    + intros [? ?]%IH. split; [|done]. apply elem_of_app. by left.
  - rewrite (indexType_unnamed _ t' Hn).
    intros [? ?]%IH. split; [|done]. apply elem_of_app. by left.
Qed.

Lemma indexTypes_is_Some rawTypes name :
  is_Some (typeDefinitions (indexTypes rawTypes) !! name) ↔
  Some name ∈ entryName <$> rawTypes.
Proof.
  induction rawTypes as [|t rawTypes IH] using rev_ind.
  - simpl. split; [by intros [? ?]|by intros ?%elem_of_nil].
  - rewrite indexTypes_snoc, fmap_app, elem_of_app, <-IH. simpl.
    rewrite list_elem_of_singleton.
    destruct (entryName t) as [n|] eqn:Hn.
    + rewrite (indexType_named _ t n Hn). simpl. rewrite lookup_insert_is_Some.
      split.
      * intros [->|[_ ?]]; [by right|by left].
      * intros [?|[= ->]]; [|by left].
        destruct (decide (n = name)); [by left|by right].
    + rewrite (indexType_unnamed _ t Hn). split; [by left|]. by intros [?|[=]].
Qed.

Lemma indexTypes_size rawTypes :
  size (typeDefinitions (indexTypes rawTypes)) ≤ length rawTypes.
Proof.
  induction rawTypes as [|t rawTypes IH] using rev_ind; [done|].
  rewrite indexTypes_snoc, length_app. simpl.
  destruct (entryName t) as [n|] eqn:Hn.
  - rewrite (indexType_named _ t n Hn). simpl. rewrite map_size_insert.
    destruct (_ !! n); simpl; lia.
  - rewrite (indexType_unnamed _ t Hn). lia.
Qed.

Lemma indexTypes_full rawTypes :
  size (typeDefinitions (indexTypes rawTypes)) = length rawTypes ↔
  wellFormed rawTypes.
Proof.
  unfold wellFormed.
  induction rawTypes as [|t rawTypes IH] using rev_ind.
  - simpl. split; [|done]. intros _. split; [done|apply NoDup_nil_2].
  - rewrite indexTypes_snoc, length_app, Forall_app, Forall_singleton, fmap_app.
    simpl. pose proof (indexTypes_size rawTypes) as Hle.
    pose proof (indexTypes_is_Some rawTypes) as Hdom.
    rewrite NoDup_app. setoid_rewrite list_elem_of_singleton.
    destruct (entryName t) as [n|] eqn:Hn.
    + rewrite (indexType_named _ t n Hn). simpl. rewrite map_size_insert.
      destruct (typeDefinitions (indexTypes rawTypes) !! n) as [t'|] eqn:Ht'; simpl.
      * split; [lia|]. intros [_ (_ & Hfresh & _)]. destruct (Hfresh (Some n)); [|done].
        apply Hdom. eauto.
      * split.
        -- intros Hsz. assert (size (typeDefinitions (indexTypes rawTypes))
                               = length rawTypes) as [Hall Hnd]%IH by lia.
           split_and!; [done|eauto|done| |apply NoDup_singleton].
           intros x Hx ->. apply Hdom in Hx as [? ?]. congruence.
        -- intros [[Hall _] (Hnd & _ & _)].
           assert (size (typeDefinitions (indexTypes rawTypes)) = length rawTypes)
             by (by apply IH). lia.
    + rewrite (indexType_unnamed _ t Hn). split; [lia|].
      by intros [[_ [? ?]] _].
Qed.

Lemma indexTypes_wellFormed_lookup rawTypes t name :
  wellFormed rawTypes → t ∈ rawTypes → entryName t = Some name →
  typeDefinitions (indexTypes rawTypes) !! name = Some t.
Proof.
  intros Hwf Ht Hname.
  assert (is_Some (typeDefinitions (indexTypes rawTypes) !! name)) as [t' Ht'].
  { apply indexTypes_is_Some. rewrite <-Hname. by apply list_elem_of_fmap_2. }
  rewrite Ht'. f_equal.
  apply indexTypes_lookup in Ht' as [Hin' Hname'].
  destruct Hwf as [_ Hnd].
  apply list_elem_of_lookup in Ht as [i Hi]. apply list_elem_of_lookup in Hin' as [j Hj].
  assert (i = j) as ->; [|congruence].
  apply (NoDup_lookup _ _ _ (Some name) Hnd); rewrite list_lookup_fmap.
  - by rewrite Hi; simpl; rewrite Hname.
  - by rewrite Hj; simpl; rewrite Hname'.
Qed.

(** ** Dependency sorter: the graph *)

Lemma occurrences_nil n : occurrences n [] = 0.
Proof. reflexivity. Qed.

Lemma occurrences_cons n x l :
  occurrences n (x :: l) = (if decide (x = n) then 1 else 0) + occurrences n l.
Proof. unfold occurrences. rewrite filter_cons. by case_decide. Qed.

Lemma occurrences_app n l1 l2 :
  occurrences n (l1 ++ l2) = occurrences n l1 + occurrences n l2.
Proof. unfold occurrences. by rewrite filter_app, length_app. Qed.

Lemma occurrences_pos n l : 0 < occurrences n l ↔ n ∈ l.
Proof.
  induction l as [|x l IH].
  - rewrite occurrences_nil. split; [lia|by intros ?%elem_of_nil].
  - rewrite occurrences_cons, elem_of_cons. case_decide; subst.
    + split; [by left|lia].
    + rewrite <-IH. split; [by right|]. intros [?|?]; [congruence|lia].
Qed.

Lemma occurrences_zero n l : occurrences n l = 0 ↔ n ∉ l.
Proof. rewrite <-occurrences_pos. lia. Qed.

Lemma inDegreeFrom_empty n : inDegreeFrom ∅ n = 0.
Proof. unfold inDegreeFrom. by rewrite map_fold_empty. Qed.

Lemma inDegreeFrom_insert adj k l n :
  adj !! k = None →
  inDegreeFrom (<[k := l]> adj) n = occurrences n l + inDegreeFrom adj n.
Proof.
  intros Hk. unfold inDegreeFrom.
  rewrite map_fold_insert_L; [done| |done]. intros; lia.
Qed.

Lemma inDegreeFrom_delete adj k l n :
  adj !! k = Some l →
  inDegreeFrom adj n = occurrences n l + inDegreeFrom (delete k adj) n.
Proof.
  intros Hk. rewrite <-(insert_delete_id adj k l Hk) at 1.
  apply inDegreeFrom_insert, lookup_delete_eq.
Qed.

Lemma inDegreeFrom_pos adj n :
  0 < inDegreeFrom adj n ↔ ∃ k l, adj !! k = Some l ∧ n ∈ l.
Proof.
  induction adj as [|k l adj Hk IH] using map_ind.
  - rewrite inDegreeFrom_empty. split; [lia|].
    intros (k & l & Hl & _). by rewrite lookup_empty in Hl.
  - rewrite inDegreeFrom_insert by done. split.
    + intros Hpos. destruct (decide (0 < occurrences n l)) as [Hl|Hl].
      * exists k, l. rewrite lookup_insert_eq. split; [done|].
        by apply occurrences_pos.
      * destruct IH as [(k' & l' & Hk' & Hn) _]; [lia|].
        exists k', l'. split; [|done]. rewrite lookup_insert_ne; [done|congruence].
    + intros (k' & l' & Hk' & Hn). apply lookup_insert_Some in Hk' as [[<- <-]|[? Hk']].
      * apply occurrences_pos in Hn. lia.
      * assert (0 < inDegreeFrom adj n) by (apply IH; eauto). lia.
Qed.

(** Adding one dependent to a list of the map. *)
Lemma inDegreeFrom_snoc adj d name n :
  inDegreeFrom (<[d := default [] (adj !! d) ++ [name]]> adj) n
  = (if decide (name = n) then 1 else 0) + inDegreeFrom adj n.
Proof.
  destruct (adj !! d) as [l|] eqn:Hd; simpl.
  - rewrite <-(insert_delete_eq adj).
    rewrite inDegreeFrom_insert by apply lookup_delete_eq.
    rewrite (inDegreeFrom_delete adj d l n Hd).
    rewrite occurrences_app, occurrences_cons, occurrences_nil. lia.
  - rewrite inDegreeFrom_insert by done.
    rewrite occurrences_cons, occurrences_nil. lia.
Qed.

Lemma in_ofTypeDeps names ofType d :
  d ∈ ofTypeDeps names ofType ↔ ofType = Some (VStr d) ∧ is_Some (names !! d).
Proof.
  unfold ofTypeDeps. destruct ofType as [[| | |s| |]|];
    try (split; [by intros ?%elem_of_nil|by intros [[=] _]]).
  case_decide as Hs.
  - rewrite list_elem_of_singleton. split; [by intros ->|by intros [[= ->] _]].
  - split; [by intros ?%elem_of_nil|]. by intros [[= ->] ?].
Qed.

Lemma in_typeDeps names t d :
  d ∈ typeDeps names (Some t) ↔ is_Some (names !! d) ∧ references t d.
Proof.
  unfold typeDeps, references. split.
  - destruct t as [| | | | |typeDef]; try by intros ?%elem_of_nil.
    destruct (typeDef !! "fields") as [[| | | |fields|]|] eqn:Hf;
      try by intros ?%elem_of_nil.
    intros (f & Hd & Hin)%list_elem_of_bind.
    destruct f as [| | | | |field]; try by apply elem_of_nil in Hd.
    simpl in Hd. apply elem_of_app in Hd as [Hd|Hd].
    + apply in_ofTypeDeps in Hd as [Hd ?]. split; [done|].
      exists typeDef, fields, field. eauto.
    + destruct (field !! "args") as [[| | | |args|]|] eqn:Ha;
        try by apply elem_of_nil in Hd.
      apply list_elem_of_bind in Hd as (a & Hd & Hina).
      destruct a as [| | | | |arg]; try by apply elem_of_nil in Hd.
      apply in_ofTypeDeps in Hd as [Hd ?]. split; [done|].
      exists typeDef, fields, field. split_and!; try done.
      right. by exists args, arg.
  - intros [Hname (typeDef & fields & field & -> & Hf & Hin & Hd)].
    rewrite Hf. apply list_elem_of_bind. exists (VMap field). split; [|done].
    simpl. apply elem_of_app. destruct Hd as [Hd|(args & arg & Ha & Hina & Hd)].
    + left. by apply in_ofTypeDeps.
    + right. rewrite Ha. apply list_elem_of_bind. exists (VMap arg).
      split; [|done]. by apply in_ofTypeDeps.
Qed.

Lemma addDependency_deps names name ofType g :
  addDependency names name ofType g = foldl (addEdge name) g (ofTypeDeps names ofType).
Proof.
  unfold addDependency, ofTypeDeps. destruct ofType as [[]|]; try done.
  by case_decide.
Qed.

Lemma scanArgs_deps names name args g :
  foldl (scanArg names name) g args = foldl (addEdge name) g (args ≫= argDeps names).
Proof.
  revert g. induction args as [|a args IH]; intros g; [done|].
  simpl. rewrite foldl_app, IH. f_equal.
  destruct a; try done. simpl. apply addDependency_deps.
Qed.

Lemma scanFields_deps names name fields g :
  foldl (scanField names name) g fields
  = foldl (addEdge name) g (fields ≫= fieldDeps names).
Proof.
  revert g. induction fields as [|f fields IH]; intros g; [done|].
  simpl. rewrite foldl_app, IH. f_equal.
  destruct f as [| | | | |field]; try done. simpl.
  rewrite foldl_app, addDependency_deps.
  destruct (field !! "args") as [[]|]; try done. apply scanArgs_deps.
Qed.

Lemma scanType_deps ix g name :
  scanType ix g name
  = foldl (addEdge name) g (typeDeps (typeNames ix) (typeDefinitions ix !! name)).
Proof.
  unfold scanType, typeDeps.
  destruct (typeDefinitions ix !! name) as [[| | | | |typeDef]|]; try done.
  destruct (typeDef !! "fields") as [[]|]; try done. apply scanFields_deps.
Qed.

Lemma scanTypes_edges ix g names :
  foldl (scanType ix) g names
  = foldl (λ g e, addEdge e.2 g e.1) g (edgesOf ix names).
Proof.
  revert g. induction names as [|name names IH]; intros g; [done|].
  unfold edgesOf in *. simpl. rewrite foldl_app, IH. f_equal.
  rewrite scanType_deps. by rewrite foldl_fmap.
Qed.

Lemma emptyGraph_lookup o (names : gmap string bool) k :
  adjacencia (emptyGraph o names) !! k = (λ _, []) <$> names !! k
  ∧ grauEntrada (emptyGraph o names) !! k = (λ _, 0%Z) <$> names !! k.
Proof.
  unfold emptyGraph.
  assert (∀ (l : list (string * bool)) g,
    let g' := foldl (λ g kv,
                {| adjacencia := <[kv.1 := []]> (adjacencia g);
                   grauEntrada := <[kv.1 := 0%Z]> (grauEntrada g) |}) g l in
    adjacencia g' !! k = (if decide (k ∈ l.*1) then Some [] else adjacencia g !! k)
    ∧ grauEntrada g' !! k
      = (if decide (k ∈ l.*1) then Some 0%Z else grauEntrada g !! k)) as Hfold.
  { induction l as [|[k' b] l IH]; intros g; simpl.
    - done.
    - destruct (IH {| adjacencia := <[k' := []]> (adjacencia g);
                      grauEntrada := <[k' := 0%Z]> (grauEntrada g) |}) as [-> ->].
      simpl. destruct (decide (k ∈ l.*1)) as [Hin|Hin].
      + rewrite !decide_True by (by right). done.
      + rewrite !lookup_insert. destruct (decide (k' = k)) as [->|Hne].
        * rewrite !decide_True by (by left). done.
        * rewrite !decide_False; [done| |];
            by intros [?|?]%elem_of_cons. }
  destruct (Hfold (range o names) {| adjacencia := ∅; grauEntrada := ∅ |}) as [-> ->].
  simpl. rewrite !lookup_empty.
  destruct (decide (k ∈ (range o names).*1)) as [Hin|Hin].
  - apply elem_of_range_fst in Hin as [b ->]. done.
  - rewrite elem_of_range_fst in Hin.
    apply eq_None_not_Some in Hin. by rewrite Hin.
Qed.

Lemma emptyGraph_graphOf o (names : gmap string bool) :
  graphOf names [] (emptyGraph o names).
Proof.
  split.
  - intros k. destruct (emptyGraph_lookup o names k) as [-> _].
    by rewrite fmap_is_Some.
  - intros k. destruct (emptyGraph_lookup o names k) as [_ ->].
    by rewrite fmap_is_Some.
  - intros n. destruct (emptyGraph_lookup o names n) as [_ ->].
    assert (inDegreeFrom (adjacencia (emptyGraph o names)) n = 0) as ->.
    { destruct (decide (0 < inDegreeFrom (adjacencia (emptyGraph o names)) n))
        as [Hpos|]; [|lia].
      apply inDegreeFrom_pos in Hpos as (k & l & Hk & Hn).
      destruct (emptyGraph_lookup o names k) as [Hadj _]. rewrite Hadj in Hk.
      destruct (names !! k); simplify_eq/=. by apply elem_of_nil in Hn. }
    by destruct (names !! n).
  - intros d n. destruct (emptyGraph_lookup o names d) as [-> _].
    destruct (names !! d); simpl; split; by intros ?%elem_of_nil.
Qed.

Lemma addEdge_graphOf names edges g d n :
  is_Some (names !! d) → is_Some (names !! n) →
  graphOf names edges g → graphOf names (edges ++ [(d, n)]) (addEdge n g d).
Proof.
  intros Hd Hn [Hadj Hgrau Hdeg Hedges]. split; simpl.
  - intros k. rewrite lookup_insert_is_Some, Hadj.
    destruct (decide (d = k)) as [->|]; [tauto|]. split; [|by auto].
    by intros [?|[_ ?]].
  - intros k. rewrite lookup_insert_is_Some, Hgrau.
    destruct (decide (n = k)) as [->|]; [tauto|]. split; [|by auto].
    by intros [?|[_ ?]].
  - intros n'. rewrite inDegreeFrom_snoc, lookup_insert.
    destruct (decide (n = n')) as [->|Hne]; simpl.
    + rewrite Hdeg. lia.
    + rewrite Hdeg. lia.
  - intros d' n'. rewrite elem_of_app, list_elem_of_singleton, <-Hedges, lookup_insert.
    destruct (decide (d = d')) as [->|Hne]; simpl.
    + rewrite elem_of_app, list_elem_of_singleton. split.
      * intros [?| ->]; [by left|by right].
      * intros [?|[= ->]]; [by left|by right].
    + split; [by left|]. by intros [?|[= ? ?]].
Qed.

Lemma edges_graphOf names (edges : list (string * string)) g :
  (∀ e, e ∈ edges → is_Some (names !! e.1) ∧ is_Some (names !! e.2)) →
  graphOf names [] g →
  graphOf names edges (foldl (λ g e, addEdge e.2 g e.1) g edges).
Proof.
  intros Hin Hg. induction edges as [|[d n] edges IH] using rev_ind; [done|].
  rewrite foldl_snoc. simpl. apply addEdge_graphOf.
  - apply (Hin (d, n)). apply elem_of_app. right. by left.
  - apply (Hin (d, n)). apply elem_of_app. right. by left.
  - apply IH. intros e He. apply Hin. apply elem_of_app. by left.
Qed.

Lemma in_edgesOf ix names d n :
  (d, n) ∈ edgesOf ix names ↔
    n ∈ names ∧ d ∈ typeDeps (typeNames ix) (typeDefinitions ix !! n).
Proof.
  unfold edgesOf. rewrite list_elem_of_bind. split.
  - intros (name & Hin & Hname).
    apply list_elem_of_fmap in Hin as (d' & [= -> ->] & Hd). done.
  - intros [Hn Hd]. exists n. split; [|done].
    apply list_elem_of_fmap. by exists d.
Qed.

(** The graph built from the entries of [types]. *)
Lemma buildGraph_graphOf o rawTypes :
  let ix := indexTypes rawTypes in
  graphOf (typeNames ix) (edgesOf ix (range o (typeNames ix)).*1) (buildGraph o ix).
Proof.
  intros ix. unfold buildGraph. rewrite scanTypes_edges.
  apply edges_graphOf; [|apply emptyGraph_graphOf].
  intros [d n] [Hn Hd]%in_edgesOf. simpl.
  apply elem_of_range_fst in Hn. split; [|done].
  destruct (typeDefinitions ix !! n) as [t|]; [|by apply elem_of_nil in Hd].
  by apply in_typeDeps in Hd as [? _].
Qed.

Lemma buildGraph_edge o rawTypes d n :
  n ∈ default [] (adjacencia (buildGraph o (indexTypes rawTypes)) !! d) ↔
    is_Some (typeDefinitions (indexTypes rawTypes) !! d)
    ∧ ∃ t, typeDefinitions (indexTypes rawTypes) !! n = Some t ∧ references t d.
Proof.
  rewrite (graph_edges _ _ _ (buildGraph_graphOf o rawTypes)).
  rewrite in_edgesOf, elem_of_range_fst. set (ix := indexTypes rawTypes). split.
  - intros [Hn Hd].
    destruct (typeDefinitions ix !! n) as [t|] eqn:Ht; [|by apply elem_of_nil in Hd].
    apply in_typeDeps in Hd as [Hd Href]. split; [by apply indexTypes_declared|].
    by exists t.
  - intros [Hd (t & Ht & Href)]. split.
    + apply indexTypes_declared. by exists t.
    + rewrite Ht. apply in_typeDeps. split; [by apply indexTypes_declared|done].
Qed.

(** ** Dependency sorter: Kahn's loop *)

Lemma degree_insert grau k z n :
  degree (<[k := z]> grau) n = if decide (k = n) then z else degree grau n.
Proof. unfold degree. rewrite lookup_insert. by case_decide. Qed.

(** The inner loop: every in-degree drops by the number of times the name
    is listed, and the names whose in-degree reaches zero join the
    queue, once each. *)
Lemma relax_all (neighbors : list string) grau fila :
  (∀ n, (Z.of_nat (occurrences n neighbors) ≤ degree grau n)%Z) →
  ∃ new,
    (foldl relax (grau, fila) neighbors).2 = fila ++ new
    ∧ (∀ n, degree (foldl relax (grau, fila) neighbors).1 n
            = (degree grau n - Z.of_nat (occurrences n neighbors))%Z)
    ∧ NoDup new
    ∧ (∀ n, n ∈ new ↔
            n ∈ neighbors ∧ degree grau n = Z.of_nat (occurrences n neighbors)).
Proof.
  revert grau fila. induction neighbors as [|x rest IH]; intros grau fila Hle.
  - exists []. simpl. split_and!.
    + by rewrite app_nil_r.
    + intros n. rewrite occurrences_nil. lia.
    + apply NoDup_nil_2.
    + intros n. split; [by intros ?%elem_of_nil|by intros [?%elem_of_nil _]].
  - simpl. unfold relax at 2. simpl. fold (degree grau x).
    set (grau1 := <[x := (degree grau x - 1)%Z]> grau).
    set (fila1 := if decide ((degree grau x - 1)%Z = 0%Z)
                  then fila ++ [x] else fila).
    assert (∀ n, degree grau1 n
                 = if decide (x = n) then (degree grau x - 1)%Z else degree grau n)
      as Hdeg1 by (intros n; apply degree_insert).
    assert (∀ n, Z.of_nat (occurrences n (x :: rest))
                 = ((if decide (x = n) then 1 else 0)
                    + Z.of_nat (occurrences n rest))%Z) as Hocc.
    { intros n. rewrite occurrences_cons. case_decide; lia. }
    destruct (IH grau1 fila1) as (new & Hfila & Hdeg & Hnd & Hnew).
    { intros n. specialize (Hle n). rewrite Hocc in Hle. rewrite Hdeg1.
      case_decide; subst; lia. }
    exists ((if decide ((degree grau x - 1)%Z = 0%Z) then [x] else []) ++ new).
    split_and!.
    + rewrite Hfila. unfold fila1. case_decide; by rewrite <-?app_assoc.
    + intros n. rewrite Hdeg, Hdeg1, Hocc. case_decide; subst; lia.
    + case_decide as Hz; [|done]. simpl. apply NoDup_cons. split; [|done].
      intros [Hin Heq]%Hnew. rewrite Hdeg1, decide_True in Heq by done.
      apply occurrences_pos in Hin. lia.
    + intros n. rewrite elem_of_app, Hnew, Hdeg1, elem_of_cons, Hocc.
      specialize (Hle n). rewrite Hocc in Hle.
      pose proof (occurrences_pos n rest) as Hpos.
      destruct (decide (x = n)) as [->|Hne].
      * case_decide as Hz.
        -- rewrite list_elem_of_singleton. split; [|by auto].
           intros [_|[Hin Heq]]; (split; [by left|lia]).
        -- split.
           ++ intros [[]%elem_of_nil|[Hin Heq]]. split; [by left|lia].
           ++ intros [_ Heq]. right. split; [apply Hpos|]; lia.
      * assert (n ∉ (if decide ((degree grau x - 1)%Z = 0%Z) then [x] else []))
          as Hnotin.
        { case_decide; [|apply not_elem_of_nil].
          by intros ->%list_elem_of_singleton. }
        split.
        -- intros [?|[Hin Heq]]; [done|]. split; [by right|lia].
        -- intros [[?|Hin] Heq]; [done|]. right. split; [done|lia].
Qed.

Lemma relax_all_dom (neighbors : list string) grau fila k :
  is_Some ((foldl relax (grau, fila) neighbors).1 !! k) ↔
    is_Some (grau !! k) ∨ k ∈ neighbors.
Proof.
  revert grau fila. induction neighbors as [|x rest IH]; intros grau fila; simpl.
  - split; [by left|]. by intros [?|?%elem_of_nil].
  - unfold relax at 2. simpl. rewrite IH, lookup_insert_is_Some, elem_of_cons.
    destruct (decide (x = k)) as [->|]; [tauto|]. split.
    + intros [[?|[_ ?]]|?]; auto.
    + intros [?|[?|?]]; [by auto|congruence|by auto].
Qed.

Lemma remaining_lookup adj done k :
  remaining adj done !! k = if decide (k ∈ done) then None else adj !! k.
Proof.
  unfold remaining. case_decide as Hk.
  - apply map_lookup_filter_None. right. intros l _. simpl. tauto.
  - destruct (adj !! k) as [l|] eqn:Hl.
    + by apply map_lookup_filter_Some.
    + apply map_lookup_filter_None. by left.
Qed.

Lemma remaining_snoc adj done cur :
  remaining adj (done ++ [cur]) = delete cur (remaining adj done).
Proof.
  apply map_eq. intros k. rewrite lookup_delete, !remaining_lookup.
  destruct (decide (cur = k)) as [->|Hne].
  - rewrite decide_True; [done|]. apply elem_of_app. right. by left.
  - destruct (decide (k ∈ done)) as [Hin|Hin].
    + rewrite decide_True; [done|]. apply elem_of_app. by left.
    + rewrite decide_False; [done|].
      intros [?|?%list_elem_of_singleton]%elem_of_app; congruence.
Qed.

(** A name already dequeued, or waiting in the queue, has no dependency
    left among the names still to come. *)
Lemma drainInv_done_degree defs adj names grau fila sortedTypes done n :
  drainInv defs adj names grau fila sortedTypes done →
  n ∈ done → degree grau n = 0%Z.
Proof.
  intros [_ _ _ Hgrau _ Horder] Hn. rewrite Hgrau.
  destruct (decide (0 < inDegreeFrom (remaining adj done) n)) as [Hpos|]; [|lia].
  apply inDegreeFrom_pos in Hpos as (d & l & Hd & Hl).
  rewrite remaining_lookup in Hd. case_decide as Hdone; [done|].
  apply list_elem_of_lookup in Hn as [i Hi].
  destruct (Horder i n d Hi) as (j & _ & Hj); [by rewrite Hd|].
  destruct Hdone. by eapply list_elem_of_lookup_2.
Qed.

Lemma drain_drained defs adj names grau fila sortedTypes done :
  (∀ k, is_Some (adj !! k) ↔ is_Some (names !! k)) →
  (∀ d n, n ∈ default [] (adj !! d) → is_Some (names !! n)) →
  drainInv defs adj names grau fila sortedTypes done →
  ∃ done',
    drain defs adj grau fila sortedTypes = entriesOf defs done'
    ∧ drained adj names done'.
Proof.
  intros Hadj Hclosed. revert done.
  funelim (drain defs adj grau fila sortedTypes).
  - intros done [Hsorted Hnd Hnames Hgrau Hqueue Horder].
    exists done. split; [done|]. rewrite app_nil_r in *. split; try done.
    intros n Hn Hdone.
    assert (degree grau n ≠ 0%Z) as Hdeg.
    { intros Hz. apply (Hqueue n Hn Hdone) in Hz. by apply elem_of_nil in Hz. }
    rewrite Hgrau in Hdeg.
    assert (0 < inDegreeFrom (remaining adj done) n) as Hpos by lia.
    apply inDegreeFrom_pos in Hpos as (d & l & Hd & Hl).
    rewrite remaining_lookup in Hd. case_decide; [done|].
    exists d. split; [done|]. by rewrite Hd.
  - intros done Hinv. apply (H names Hadj Hclosed (done ++ [currentName])).
    pose proof (λ n, drainInv_done_degree _ _ _ _ _ _ _ n Hinv) as Hdone0.
    destruct Hinv as [Hsorted Hnd Hnames Hgrau Hqueue Horder].
    clear H Heqcall.
    set (neighbors := default [] (adj !! currentName)).
    assert (currentName ∉ done) as Hcur_done.
    { apply NoDup_app in Hnd as (_ & Hdisj & _). intros Hin.
      apply (Hdisj _ Hin). by left. }
    assert (is_Some (names !! currentName)) as Hcur_name.
    { apply Hnames. apply elem_of_app. right. by left. }
    assert (degree grau currentName = 0%Z) as Hcur0.
    { apply Hqueue; [done|done|by left]. }
    assert (∀ n, inDegreeFrom (remaining adj done) n
                 = occurrences n neighbors
                   + inDegreeFrom (remaining adj (done ++ [currentName])) n)
      as Hsplit.
    { intros n. rewrite remaining_snoc. unfold neighbors.
      apply Hadj in Hcur_name as [l Hl]. rewrite Hl. simpl.
      apply inDegreeFrom_delete. rewrite remaining_lookup.
      by rewrite decide_False. }
    destruct (relax_all neighbors grau fila) as (new & Hfila & Hdeg & Hndnew & Hnew).
    { intros n. rewrite Hgrau, Hsplit. lia. }
    assert (∀ n, n ∈ new → n ∉ done ++ currentName :: fila) as Hfresh.
    { intros n [Hin Heq]%Hnew Hold. apply occurrences_pos in Hin.
      assert (degree grau n = 0%Z); [|lia].
      destruct (decide (n ∈ done)) as [?|Hnd']; [by apply Hdone0|].
      apply Hqueue; [|done|].
      - apply Hnames. done.
      - apply elem_of_app in Hold as [?|?]; done. }
    split.
    + rewrite Hsorted. unfold entriesOf. by rewrite fmap_app.
    + rewrite Hfila. rewrite <-app_assoc. simpl.
      change (done ++ currentName :: fila ++ new)
        with (done ++ (currentName :: fila) ++ new).
      rewrite app_assoc. apply NoDup_app. split_and!; [done| |done].
      intros n Hold Hin. by apply (Hfresh n Hin).
    + intros n. rewrite Hfila, <-app_assoc. simpl.
      rewrite elem_of_app, elem_of_cons, elem_of_app.
      intros [?|[?|[?|Hin]]].
      * apply Hnames. apply elem_of_app. by left.
      * by subst.
      * apply Hnames. apply elem_of_app. right. by right.
      * apply Hnew in Hin as [Hin _]. by apply (Hclosed currentName).
    + intros n. rewrite Hdeg, Hgrau, Hsplit. lia.
    + intros n Hn Hnotin. rewrite Hfila, Hdeg, elem_of_app, Hnew.
      assert ((n ∉ done) ∧ n ≠ currentName) as [Hnd' Hne].
      { split; intros ?; apply Hnotin, elem_of_app; [by left|].
        right. by apply list_elem_of_singleton. }
      pose proof (Hqueue n Hn Hnd') as Hq. rewrite elem_of_cons in Hq.
      pose proof (occurrences_pos n neighbors) as Hpos.
      assert (Z.of_nat (occurrences n neighbors) ≤ degree grau n)%Z as Hle
        by (rewrite Hgrau, Hsplit; lia).
      split.
      * intros [Hin|[_ Heq]]; [|lia].
        assert (degree grau n = 0%Z) by (apply Hq; by right). lia.
      * intros Hz. destruct (decide (occurrences n neighbors = 0)) as [Ho|Ho].
        -- left. assert (degree grau n = 0%Z) as [?|?]%Hq by lia; done.
        -- right. split; [apply Hpos|]; lia.
    + intros i n d Hi Hd. apply lookup_snoc_Some in Hi as [[Hlt Hi]|[-> <-]].
      * destruct (Horder i n d Hi Hd) as (j & Hj & Hjd).
        exists j. split; [done|]. by apply lookup_app_l_Some.
      * assert (d ∈ done) as [j Hj]%list_elem_of_lookup.
        { destruct (decide (d ∈ done)) as [|Hdd]; [done|]. exfalso.
          assert (0 < inDegreeFrom (remaining adj done) currentName);
            [|pose proof (Hgrau currentName); lia].
          apply inDegreeFrom_pos.
          destruct (adj !! d) as [l|] eqn:Hl; [|by apply elem_of_nil in Hd].
          exists d, l. split; [|done]. rewrite remaining_lookup.
          by rewrite decide_False. }
        exists j. split; [by eapply lookup_lt_Some|]. by apply lookup_app_l_Some.
Qed.

(** ** Dependency sorter: Kahn's algorithm on the entries of [types] *)

Lemma remaining_nil adj : remaining adj [] = adj.
Proof.
  apply map_eq. intros k. rewrite remaining_lookup.
  by rewrite decide_False by apply not_elem_of_nil.
Qed.

Lemma in_seedQueue o (grau : gmap string Z) n :
  n ∈ seedQueue o grau ↔ grau !! n = Some 0%Z.
Proof.
  unfold seedQueue. rewrite list_elem_of_fmap. split.
  - intros ([n' z] & -> & [Hz Hin]%list_elem_of_filter). simpl in *. subst.
    by apply elem_of_range in Hin.
  - intros Hn. exists (n, 0%Z). split; [done|].
    apply list_elem_of_filter. split; [done|]. by apply elem_of_range.
Qed.

Lemma NoDup_seedQueue o (grau : gmap string Z) : NoDup (seedQueue o grau).
Proof.
  unfold seedQueue.
  apply (sublist_NoDup _ ((range o grau).*1)).
  - apply (NoDup_fst_range o grau).
  - apply fmap_sublist, sublist_filter.
Qed.

(** Kahn's algorithm dequeues distinct declared names, dependencies
    first. *)
Lemma kahn_drained o rawTypes :
  ∃ done,
    kahn o rawTypes = entriesOf (typeDefinitions (indexTypes rawTypes)) done
    ∧ drained (adjacencia (buildGraph o (indexTypes rawTypes)))
              (typeNames (indexTypes rawTypes)) done.
Proof.
  unfold kahn. set (ix := indexTypes rawTypes). set (g := buildGraph o ix).
  pose proof (buildGraph_graphOf o rawTypes) as [Hadj Hgrau Hdeg Hedges].
  fold ix g in Hadj, Hgrau, Hdeg, Hedges.
  apply (drain_drained _ _ (typeNames ix) _ _ _ []).
  - done.
  - intros d n Hn. apply (buildGraph_edge o rawTypes) in Hn as (_ & t & Ht & _).
    apply indexTypes_declared. by exists t.
  - split.
    + done.
    + simpl. apply NoDup_seedQueue.
    + simpl. intros n Hn%in_seedQueue. apply Hgrau. by exists 0%Z.
    + intros n. rewrite remaining_nil. apply Hdeg.
    + intros n Hn _. rewrite in_seedQueue. unfold degree.
      apply Hgrau in Hn as [z ->]. simpl. split; congruence.
    + intros i n d Hi. by rewrite lookup_nil in Hi.
Qed.

Lemma entriesOf_length defs done : length (entriesOf defs done) = length done.
Proof. unfold entriesOf. by rewrite length_fmap. Qed.

Lemma drained_length adj (names : gmap string bool) done :
  drained adj names done → length done ≤ size names.
Proof.
  intros [Hnd Hnames _ _].
  rewrite <-(size_list_to_set (C:=gset string) done Hnd).
  rewrite <-(size_dom (D:=gset string) names).
  apply subseteq_size. intros n Hn%elem_of_list_to_set.
  apply elem_of_dom. by apply Hnames.
Qed.

Lemma drained_all adj (names : gmap string bool) done n :
  drained adj names done → size names ≤ length done →
  is_Some (names !! n) → n ∈ done.
Proof.
  intros [Hnd Hnames _ _] Hsz Hn.
  assert (list_to_set done = (dom names : gset string)) as Heq.
  { apply set_subseteq_size_eq.
    - intros n' Hn'%elem_of_list_to_set. apply elem_of_dom. by apply Hnames.
    - rewrite size_dom, size_list_to_set by done. done. }
  apply (elem_of_list_to_set (C:=gset string)). rewrite Heq. by apply elem_of_dom.
Qed.

Lemma indexTypes_names_size rawTypes :
  size (typeNames (indexTypes rawTypes))
  = size (typeDefinitions (indexTypes rawTypes)).
Proof.
  rewrite <-(size_dom (D:=gset string) (typeNames _)).
  rewrite <-(size_dom (D:=gset string) (typeDefinitions _)). f_equal.
  apply set_eq. intros n. rewrite !elem_of_dom. apply indexTypes_declared.
Qed.

(** The output of Kahn's algorithm is never longer than [types]. *)
Lemma kahn_length o rawTypes : length (kahn o rawTypes) ≤ length rawTypes.
Proof.
  destruct (kahn_drained o rawTypes) as (done & -> & Hdone).
  rewrite entriesOf_length. apply drained_length in Hdone.
  rewrite indexTypes_names_size in Hdone.
  pose proof (indexTypes_size rawTypes). lia.
Qed.

(** When the output is as long as [types], it is [types] reordered with
    every entry after the entries it depends on. *)
Lemma kahn_sound o rawTypes :
  length (kahn o rawTypes) = length rawTypes →
  wellFormed rawTypes
  ∧ kahn o rawTypes ≡ₚ rawTypes
  ∧ ∀ D E, dependsOn rawTypes D E → precedes (kahn o rawTypes) D E.
Proof.
  destruct (kahn_drained o rawTypes) as (done & -> & Hdone).
  set (ix := indexTypes rawTypes) in *. rewrite entriesOf_length. intros Hlen.
  pose proof (drained_length _ _ _ Hdone) as Hle.
  unfold ix in Hle. rewrite indexTypes_names_size in Hle. fold ix in Hle.
  pose proof (indexTypes_size rawTypes) as Hsz. fold ix in Hsz.
  assert (wellFormed rawTypes) as Hwf by (apply indexTypes_full; fold ix; lia).
  assert (∀ n, is_Some (typeNames ix !! n) → n ∈ done) as Hall.
  { intros n. apply (drained_all _ _ _ _ Hdone).
    unfold ix. rewrite indexTypes_names_size. fold ix. lia. }
  assert (∀ n, n ∈ done → ∃ t, typeDefinitions ix !! n = Some t
                               ∧ t ∈ rawTypes ∧ entryName t = Some n) as Hdef.
  { intros n Hn%(drained_names _ _ _ Hdone).
    apply indexTypes_declared in Hn as [t Ht]. exists t. split; [done|].
    by apply indexTypes_lookup. }
  split_and!.
  - done.
  - apply submseteq_length_Permutation.
    + apply NoDup_submseteq.
      * unfold entriesOf. apply NoDup_fmap_2_strong; [|apply Hdone].
        intros n1 n2 Hn1 Hn2 Heq.
        destruct (Hdef n1 Hn1) as (t1 & Ht1 & _ & Hname1).
        destruct (Hdef n2 Hn2) as (t2 & Ht2 & _ & Hname2).
        rewrite Ht1, Ht2 in Heq. simpl in Heq. congruence.
      * intros t (n & -> & Hn)%list_elem_of_fmap.
        destruct (Hdef n Hn) as (t & -> & Ht & _). done.
    + rewrite entriesOf_length. lia.
  - intros D E (HD & HE & d & Hd & Href).
    destruct Hwf as [Hnamed Hnd].
    assert (is_Some (entryName E)) as [e He].
    { rewrite Forall_forall in Hnamed. by apply Hnamed. }
    pose proof (indexTypes_wellFormed_lookup rawTypes D d
                  (conj Hnamed Hnd) HD Hd) as HdefD.
    pose proof (indexTypes_wellFormed_lookup rawTypes E e
                  (conj Hnamed Hnd) HE He) as HdefE.
    assert (e ∈ default [] (adjacencia (buildGraph o ix) !! d)) as Hedge.
    { apply buildGraph_edge. split; [by exists D|]. by exists E. }
    assert (e ∈ done) as [i Hi]%list_elem_of_lookup.
    { apply Hall, indexTypes_declared. by exists E. }
    destruct (drained_order _ _ _ Hdone i e d Hi Hedge) as (j & Hji & Hj).
    exists j, i. split; [done|]. unfold entriesOf. rewrite !list_lookup_fmap.
    rewrite Hi, Hj. simpl. unfold ix. by rewrite HdefD, HdefE.
Qed.

Lemma tc_flip_1 {A} (R : relation A) x y : tc (flip R) x y → tc R y x.
Proof.
  induction 1 as [x y Hxy|x y z Hxy _ IH].
  - by apply tc_once.
  - by eapply tc_r.
Qed.

(** On well-formed, acyclic [types] the output is as long as [types]. *)
Lemma kahn_complete o rawTypes :
  wellFormed rawTypes → acyclic rawTypes →
  length (kahn o rawTypes) = length rawTypes.
Proof.
  intros Hwf Hacyclic.
  destruct (kahn_drained o rawTypes) as (done & -> & Hdone).
  rewrite entriesOf_length.
  set (adj := adjacencia (buildGraph o (indexTypes rawTypes))) in *.
  set (R := λ n d : string, n ∈ default [] (adj !! d)).
  set (entry := λ n : string, default VNull (typeDefinitions (indexTypes rawTypes) !! n)).
  assert (∀ n d, R n d → dependsOn rawTypes (entry d) (entry n)) as Hdep.
  { intros n d [[D HD] (E & HE & Href)]%buildGraph_edge.
    unfold entry. rewrite HD, HE. simpl.
    apply indexTypes_lookup in HD as [? ?]. apply indexTypes_lookup in HE as [? ?].
    split_and!; [done|done|]. by exists d. }
  assert (∀ n, sn R n) as Hsn.
  { intros n. apply tc_finite_sn.
    - intros x Hx. apply (Hacyclic (entry x)). apply tc_flip_1.
      apply (tc_congruence (R:=R) entry (flip (dependsOn rawTypes)) x x); [|done].
      intros x' y'. apply Hdep.
    - exists (map_to_list (typeDefinitions (indexTypes rawTypes))).*1.
      intros d Hd. assert (∃ n', R n' d) as [n' Hn'].
      { induction Hd as [? ? ?|? ? ? ? ? IH]; eauto. }
      apply buildGraph_edge in Hn' as [[D HD] _].
      apply list_elem_of_fmap. exists (d, D). split; [done|].
      by apply elem_of_map_to_list. }
  assert (∀ n, is_Some (typeNames (indexTypes rawTypes) !! n) → n ∈ done) as Hall.
  { intros n. induction (Hsn n) as [n _ IH]. intros Hn.
    destruct (decide (n ∈ done)) as [|Hnotin]; [done|]. exfalso.
    destruct (drained_stuck _ _ _ Hdone n Hn Hnotin) as (d & Hd & Hedge).
    apply Hd, (IH d Hedge).
    apply (buildGraph_edge o rawTypes) in Hedge as [? _].
    by apply indexTypes_declared. }
  pose proof (drained_length _ _ _ Hdone) as Hle.
  assert (size (typeNames (indexTypes rawTypes)) ≤ length done) as Hge.
  { rewrite <-(size_dom (D:=gset string)).
    rewrite <-(size_list_to_set (C:=gset string) done) by apply Hdone.
    apply subseteq_size. intros n Hn%elem_of_dom.
    apply elem_of_list_to_set. by apply Hall. }
  rewrite indexTypes_names_size in Hle, Hge.
  apply indexTypes_full in Hwf. lia.
Qed.

(** ** Dependency sorter: the sort of a document *)

Lemma sortTypesByDependency_Ok o schema schema' :
  sortTypesByDependency o schema = Ok schema' ↔
    ∃ rawTypes query,
      schema !! "types" = Some (VSeq rawTypes)
      ∧ schema !! "query" = Some query
      ∧ length (kahn o rawTypes) = length rawTypes
      ∧ schema' = <["query" := query]> {[ "types" := VSeq (kahn o rawTypes) ]}.
Proof.
  unfold sortTypesByDependency. split.
  - destruct (schema !! "types") as [[| | | |rawTypes|]|]; try done.
    destruct (schema !! "query") as [query|]; [|done].
    case_decide as Hlen; [done|]. intros [= <-].
    exists rawTypes, query. by rewrite insert_empty.
  - intros (rawTypes & query & -> & -> & Hlen & ->).
    rewrite decide_False by lia. by rewrite insert_empty.
Qed.

Lemma sortTypesByDependency_cyclic o schema rawTypes query :
  schema !! "types" = Some (VSeq rawTypes) →
  schema !! "query" = Some query →
  sortTypesByDependency o schema = Err CyclicDependencyError ↔
    length (kahn o rawTypes) < length rawTypes.
Proof.
  intros Ht Hq. unfold sortTypesByDependency. rewrite Ht, Hq.
  pose proof (kahn_length o rawTypes). case_decide; split; (done || lia).
Qed.

Lemma acyclic_ranked rawTypes (rank : value → nat) :
  (∀ D E, dependsOn rawTypes D E → rank D < rank E) → acyclic rawTypes.
Proof.
  intros Hrank t Ht.
  assert (∀ x y, tc (dependsOn rawTypes) x y → rank x < rank y) as Hlt.
  { induction 1 as [x y Hxy|x y z Hxy _ IH].
    - by apply Hrank.
    - apply Hrank in Hxy. lia. }
  apply Hlt in Ht. lia.
Qed.

Lemma cyclic_not_sound rawTypes sortedTypes t :
  (∀ D E, dependsOn rawTypes D E → precedes sortedTypes D E) →
  NoDup sortedTypes →
  ¬ tc (dependsOn rawTypes) t t.
Proof.
  intros Hprec Hnd Ht.
  assert (∀ x y, tc (dependsOn rawTypes) x y → precedes sortedTypes x y) as Htc.
  { induction 1 as [x y Hxy|x y z Hxy _ IH].
    - by apply Hprec.
    - apply Hprec in Hxy as (i & j & Hij & Hi & Hj).
      destruct IH as (j' & k & Hjk & Hj' & Hk).
      assert (j = j') as <- by (by eapply NoDup_lookup).
      exists i, k. split; [lia|done]. }
  apply Htc in Ht as (i & j & Hij & Hi & Hj).
  assert (i = j) by (by eapply NoDup_lookup). lia.
Qed.

Lemma wellFormed_NoDup rawTypes : wellFormed rawTypes → NoDup rawTypes.
Proof. intros [_ Hnd]. by eapply NoDup_fmap_1. Qed.

(** C1 (as the code has it). For a document with a [query] entry whose
    [types] entries declare pairwise distinct names and depend on each
    other without a cycle, the dependency sort succeeds, in every
    iteration order: [types] is replaced by a reordering of its entries
    in which every entry stands after each declared entry that one of its
    fields, or of their arguments, names in [ofType]. A name that no
    entry declares gives no dependency. Whenever the sort succeeds at
    all, its result is such an order. An acyclic [types] sequence alone
    is not enough: the names have to be distinct and the [query] entry
    has to be there. *)
Theorem sort_topological (o : MapOrder) (schema : gmap string value)
    (rawTypes : list value) (query : value) :
  schema !! "types" = Some (VSeq rawTypes) →
  (schema !! "query" = Some query → wellFormed rawTypes → acyclic rawTypes →
   ∃ sortedTypes,
     sortTypesByDependency o schema
     = Ok (<["query" := query]> {[ "types" := VSeq sortedTypes ]})
     ∧ sortedTypes ≡ₚ rawTypes
     ∧ ∀ D E, dependsOn rawTypes D E → precedes sortedTypes D E)
  ∧ (∀ schema',
       sortTypesByDependency o schema = Ok schema' →
       ∃ sortedTypes,
         schema' !! "types" = Some (VSeq sortedTypes)
         ∧ sortedTypes ≡ₚ rawTypes
         ∧ ∀ D E, dependsOn rawTypes D E → precedes sortedTypes D E).
Proof.
  intros Ht. split.
  - intros Hq Hwf Hacyclic.
    pose proof (kahn_complete o rawTypes Hwf Hacyclic) as Hlen.
    destruct (kahn_sound o rawTypes Hlen) as (_ & Hperm & Horder).
    exists (kahn o rawTypes). split_and!; [|done|done].
    apply sortTypesByDependency_Ok. by exists rawTypes, query.
  - intros schema' (raw' & q' & Ht' & Hq' & Hlen & ->)%sortTypesByDependency_Ok.
    rewrite Ht in Ht'. injection Ht' as <-.
    destruct (kahn_sound o rawTypes Hlen) as (_ & Hperm & Horder).
    exists (kahn o rawTypes). split_and!; [|done|done].
    rewrite lookup_insert_ne by done. apply lookup_singleton_eq.
Qed.


(** C3 (as the code has it). On success the mapping is emptied and
    rebuilt: it holds the sorted sequence under [types], a reordering of
    the one it held, the value it held under [query], and no other
    key. *)
Theorem sort_rebuilds_schema (o : MapOrder) (schema schema' : gmap string value) :
  sortTypesByDependency o schema = Ok schema' →
  (∃ rawTypes sortedTypes,
     schema !! "types" = Some (VSeq rawTypes)
     ∧ schema' !! "types" = Some (VSeq sortedTypes)
     ∧ sortedTypes ≡ₚ rawTypes)
  ∧ is_Some (schema !! "query")
  ∧ schema' !! "query" = schema !! "query"
  ∧ ∀ key, key ≠ "types" → key ≠ "query" → schema' !! key = None.
Proof.
  intros (rawTypes & query & Ht & Hq & Hlen & ->)%sortTypesByDependency_Ok.
  destruct (kahn_sound o rawTypes Hlen) as (_ & Hperm & _).
  split_and!.
  - exists rawTypes, (kahn o rawTypes). split_and!; [done| |done].
    rewrite lookup_insert_ne by done. apply lookup_singleton_eq.
  - by rewrite Hq.
  - by rewrite Hq, lookup_insert_eq.
  - intros key Hkt Hkq.
    rewrite lookup_insert_ne, lookup_singleton_ne by done. done.
Qed.

(** ** Worked examples of the dependency sort *)

Lemma declared_in_index rawTypes D d :
  D ∈ rawTypes → entryName D = Some d →
  is_Some (typeNames (indexTypes rawTypes) !! d).
Proof.
  intros HD Hd. apply indexTypes_declared, indexTypes_is_Some.
  rewrite <-Hd. by apply list_elem_of_fmap_2.
Qed.

Lemma dependsOn_typeDeps rawTypes D E :
  dependsOn rawTypes D E ↔
    D ∈ rawTypes ∧ E ∈ rawTypes
    ∧ ∃ d, entryName D = Some d
           ∧ d ∈ typeDeps (typeNames (indexTypes rawTypes)) (Some E).
Proof.
  unfold dependsOn. split.
  - intros (HD & HE & d & Hd & Href). split_and!; [done|done|].
    exists d. split; [done|]. apply in_typeDeps. split; [|done].
    apply (declared_in_index rawTypes D d HD Hd).
  - intros (HD & HE & d & Hd & Hdeps). split_and!; [done|done|].
    exists d. split; [done|]. by apply in_typeDeps in Hdeps as [_ ?].
Qed.

Lemma respectsOrder_acyclic rawTypes order :
  respectsOrder rawTypes order = true → acyclic rawTypes.
Proof.
  intros Hcheck. apply (acyclic_ranked rawTypes (positionIn order)).
  intros D E (HD & HE & d & Hd & Hdeps)%dependsOn_typeDeps.
  unfold respectsOrder in Hcheck. rewrite forallb_forall in Hcheck.
  specialize (Hcheck E (proj1 (list_elem_of_In _ _) HE)).
  rewrite forallb_forall in Hcheck.
  specialize (Hcheck D (proj1 (list_elem_of_In _ _) HD)).
  rewrite Hd, decide_True in Hcheck by done.
  by apply bool_decide_eq_true in Hcheck.
Qed.

Lemma exampleTypes_wellFormed : wellFormed exampleTypes.
Proof.
  split.
  - repeat (apply Forall_cons; split; [by eexists|]). apply Forall_nil_2.
  - compute_done.
Qed.

(** The declared types of the example are sorted, dependencies first. *)
Lemma sort_topological_witness :
  ∃ sortedTypes,
    sortTypesByDependency canonicalOrder exampleSchema
    = Ok (<["query" := VStr "Query"]> {[ "types" := VSeq sortedTypes ]})
    ∧ sortedTypes ≡ₚ exampleTypes
    ∧ ∀ D E, dependsOn exampleTypes D E → precedes sortedTypes D E.
Proof.
  apply (sort_topological canonicalOrder exampleSchema exampleTypes (VStr "Query")).
  - reflexivity.
  - reflexivity.
  - apply exampleTypes_wellFormed.
  - apply (respectsOrder_acyclic _ ["Address"; "Filter"; "User"; "Query"]).
    by vm_compute.
Defined.

(** C1 as stated fails: an acyclic [types] sequence does not make the
    sort succeed. Two entries that declare the same name [A] and depend
    on nothing are indexed as one type, so that the output of Kahn's
    algorithm is shorter than [types] and a circular dependency is
    reported; and the acyclic types of the worked example, in a document
    without a [query] entry, are refused before any sorting. *)
Lemma sort_topological_counterexample :
  (acyclic [typeEntry "A" []; typeEntry "A" []]
   ∧ sortTypesByDependency canonicalOrder
       {[ "types" := VSeq [typeEntry "A" []; typeEntry "A" []]; "query" := VNull ]}
     = Err CyclicDependencyError)
  ∧ (acyclic exampleTypes
     ∧ sortTypesByDependency canonicalOrder {[ "types" := VSeq exampleTypes ]}
       = Err QueryNotFoundError).
Proof.
  split; split.
  - apply (respectsOrder_acyclic _ ["A"]). by vm_compute.
  - by vm_compute.
  - apply (respectsOrder_acyclic _ ["Address"; "Filter"; "User"; "Query"]).
    by vm_compute.
  - by vm_compute.
Qed.



(** A sorted schema keeps [types] and [query] and nothing else. *)
Lemma sort_rebuilds_schema_witness :
  (<["query" := VStr "Query"]>
     {[ "types" := VSeq (kahn canonicalOrder exampleTypes) ]}
   : gmap string value) !! "mutation" = None.
Proof.
  assert (sortTypesByDependency canonicalOrder exampleSchema
          = Ok (<["query" := VStr "Query"]>
                  {[ "types" := VSeq (kahn canonicalOrder exampleTypes) ]}))
    as Hsort by (by vm_compute).
  destruct (sort_rebuilds_schema canonicalOrder exampleSchema _ Hsort)
    as (_ & _ & _ & Hothers).
  by apply Hothers.
Defined.

(** C3 as stated fails: a third top-level key is dropped by a successful
    sort. *)
Lemma sort_rebuilds_schema_counterexample :
  ∃ schema',
    sortTypesByDependency canonicalOrder
      {[ "types" := VSeq []; "query" := VNull; "extra" := VNum 1 ]}
    = Ok schema'
    ∧ ({[ "types" := VSeq []; "query" := VNull; "extra" := VNum 1 ]}
       : gmap string value) !! "extra" = Some (VNum 1)
    ∧ schema' !! "extra" = None.
Proof.
  exists {[ "types" := VSeq []; "query" := VNull ]}. by vm_compute.
Qed.

(** Outside that domain, with an entry that declares no name or a name
    declared twice, the length test fails and the sort reports a cycle. *)
Lemma sort_needs_wellFormed o (schema : gmap string value) rawTypes query :
  schema !! "types" = Some (VSeq rawTypes) →
  schema !! "query" = Some query →
  ¬ wellFormed rawTypes →
  sortTypesByDependency o schema = Err CyclicDependencyError.
Proof.
  intros Ht Hq Hwf.
  apply (sortTypesByDependency_cyclic o schema rawTypes query Ht Hq).
  pose proof (kahn_length o rawTypes).
  destruct (decide (length (kahn o rawTypes) = length rawTypes)) as [Hlen|]; [|lia].
  by destruct (kahn_sound o rawTypes Hlen) as (? & _ & _).
Qed.

(** A type that names itself in a field is a cycle of length one. *)
Example self_reference_refused :
  sortTypesByDependency canonicalOrder
    {[ "types" := VSeq [typeEntry "Node" ["Node"]]; "query" := VNull ]}
  = Err CyclicDependencyError.
Proof. by vm_compute. Qed.

(** * Further properties *)

(** ** The functions of package [strings] *)

Lemma append_nil_l s : "" +:+ s = s.
Proof. reflexivity. Qed.

Lemma append_cons c s t : String c s +:+ t = String c (s +:+ t).
Proof. reflexivity. Qed.

Lemma append_empty_r s : s +:+ "" = s.
Proof. induction s as [|c s IH]; [done|]. by rewrite append_cons, IH. Qed.

Lemma append_assoc s t u : (s +:+ t) +:+ u = s +:+ t +:+ u.
Proof. induction s as [|c s IH]; [done|]. by rewrite !append_cons, IH. Qed.

Lemma HasPrefix_app s rest : GoStrings.HasPrefix (s +:+ rest) s = true.
Proof.
  induction s as [|c s IH]; [by destruct rest|].
  rewrite append_cons. simpl. by case_decide.
Qed.

Lemma drop_app s rest : GoStrings.drop (String.length s) (s +:+ rest) = rest.
Proof. induction s as [|c s IH]; [by destruct rest|]. by rewrite append_cons. Qed.

Lemma TrimPrefix_app s rest : GoStrings.TrimPrefix (s +:+ rest) s = rest.
Proof. unfold GoStrings.TrimPrefix. by rewrite HasPrefix_app, drop_app. Qed.

Lemma HasPrefix_slash s :
  GoStrings.HasPrefix s "/" = bool_decide (firstByte s = Some GoStrings.slash).
Proof.
  destruct s as [|c s]; simpl; [done|].
  case_decide as Hc; case_bool_decide as Hb.
  - by destruct s.
  - destruct Hb. by rewrite <-Hc.
  - destruct Hc. by injection Hb.
  - done.
Qed.

Lemma rev_app_rev_app s acc acc' :
  String.rev_app (String.rev_app s acc) acc' = String.rev_app acc (s +:+ acc').
Proof.
  revert acc. induction s as [|c s IH]; intros acc; simpl; [done|].
  by rewrite IH.
Qed.

Lemma rev_rev s : String.rev (String.rev s) = s.
Proof. unfold String.rev. rewrite rev_app_rev_app. apply append_empty_r. Qed.

Lemma rev_app_snoc s c acc :
  String.rev_app (s +:+ String c "") acc = String c (String.rev_app s acc).
Proof.
  revert acc. induction s as [|d s IH]; intros acc; [done|].
  rewrite append_cons. simpl. apply IH.
Qed.

Lemma lastByte_is_Some c s : is_Some (lastByte (String c s)).
Proof.
  revert c. induction s as [|d s IH]; intros c; simpl; [by eexists|apply IH].
Qed.

Lemma firstByte_rev_app s acc :
  firstByte (String.rev_app s acc) =
    match lastByte s with Some c => Some c | None => firstByte acc end.
Proof.
  revert acc. induction s as [|c s IH]; intros acc; [done|].
  cbn [String.rev_app]. rewrite IH. simpl. destruct s as [|d s]; [done|].
  by destruct (lastByte_is_Some d s) as [e ->].
Qed.

Lemma firstByte_rev s : firstByte (String.rev s) = lastByte s.
Proof. unfold String.rev. rewrite firstByte_rev_app. by destruct (lastByte s). Qed.

Lemma lastByte_app s t : t ≠ "" → lastByte (s +:+ t) = lastByte t.
Proof.
  intros Ht. induction s as [|d s IH]; [done|].
  rewrite append_cons. simpl. rewrite IH.
  destruct (s +:+ t) eqn:Hst; [|done]. by destruct s, t.
Qed.

(** [strings.TrimSuffix(s, "/")] removes one trailing slash. *)
Lemma TrimSuffix_slash s : GoStrings.TrimSuffix (s +:+ "/") "/" = s.
Proof.
  assert (String.rev (s +:+ "/") = String GoStrings.slash (String.rev s)) as Hrev
    by apply rev_app_snoc.
  unfold GoStrings.TrimSuffix, GoStrings.TrimPrefix.
  change (String.rev "/") with "/". rewrite HasPrefix_slash, Hrev. simpl.
  apply rev_rev.
Qed.

Lemma TrimSuffix_none s :
  lastByte s ≠ Some GoStrings.slash → GoStrings.TrimSuffix s "/" = s.
Proof.
  intros Hs. unfold GoStrings.TrimSuffix, GoStrings.TrimPrefix.
  change (String.rev "/") with "/".
  rewrite HasPrefix_slash, firstByte_rev, bool_decide_eq_false_2 by done.
  apply rev_rev.
Qed.

Lemma inCutset_slash c : GoStrings.inCutset c "/" = bool_decide (c = GoStrings.slash).
Proof. simpl. unfold GoStrings.slash. case_decide; case_bool_decide; done. Qed.

Lemma TrimLeft_none s :
  firstByte s ≠ Some GoStrings.slash → GoStrings.TrimLeft s "/" = s.
Proof.
  destruct s as [|c s]; [done|]. intros Hc. cbn [GoStrings.TrimLeft].
  rewrite inCutset_slash, bool_decide_eq_false_2; [done|].
  intros ->. by destruct Hc.
Qed.

Lemma firstByte_TrimLeft s : firstByte (GoStrings.TrimLeft s "/") ≠ Some GoStrings.slash.
Proof.
  induction s as [|c s IH]; [done|]. cbn [GoStrings.TrimLeft].
  rewrite inCutset_slash. case_bool_decide as Hc; [done|].
  simpl. by intros [= ->].
Qed.

Lemma TrimRight_cons c s :
  GoStrings.TrimRight (String c s) "/" =
    if decide (GoStrings.TrimRight s "/" = "" ∧ c = GoStrings.slash) then ""
    else String c (GoStrings.TrimRight s "/").
Proof.
  cbn [GoStrings.TrimRight]. rewrite inCutset_slash.
  destruct (GoStrings.TrimRight s "/") as [|d r].
  - case_bool_decide as Hc; case_decide as Hd; try done.
    + by destruct Hd.
    + by destruct Hd as [_ ?].
  - rewrite decide_False; [done|]. by intros [? _].
Qed.

Lemma TrimRight_none s :
  lastByte s ≠ Some GoStrings.slash → GoStrings.TrimRight s "/" = s.
Proof.
  induction s as [|c s IH]; [done|]. intros Hs. rewrite TrimRight_cons.
  destruct s as [|d s].
  - simpl. rewrite decide_False; [done|]. intros [_ ->]. by destruct Hs.
  - rewrite IH by done. rewrite decide_False; [done|]. by intros [? _].
Qed.

Lemma lastByte_TrimRight s : lastByte (GoStrings.TrimRight s "/") ≠ Some GoStrings.slash.
Proof.
  induction s as [|c s IH]; [done|]. rewrite TrimRight_cons.
  case_decide as Hc; [done|].
  destruct (GoStrings.TrimRight s "/") as [|d r] eqn:Hr; [|done].
  simpl. intros [= ->]. by destruct Hc.
Qed.

Lemma firstByte_TrimRight s :
  firstByte s ≠ Some GoStrings.slash →
  firstByte (GoStrings.TrimRight s "/") ≠ Some GoStrings.slash.
Proof.
  destruct s as [|c s]; [done|]. intros Hc. rewrite TrimRight_cons.
  by case_decide.
Qed.

Lemma Trim_noEdgeSlash s : noEdgeSlash (GoStrings.Trim s "/").
Proof.
  split.
  - apply firstByte_TrimRight, firstByte_TrimLeft.
  - apply lastByte_TrimRight.
Qed.

Lemma Trim_none s : noEdgeSlash s → GoStrings.Trim s "/" = s.
Proof.
  intros [Hf Hl]. unfold GoStrings.Trim.
  by rewrite TrimLeft_none, TrimRight_none.
Qed.

Lemma Trim_slash s : GoStrings.Trim (String GoStrings.slash s) "/" = GoStrings.Trim s "/".
Proof. reflexivity. Qed.

Lemma Split_cons c s :
  GoStrings.Split (String c s) =
    if decide (c = GoStrings.slash) then "" :: GoStrings.Split s
    else match GoStrings.Split s with
         | part :: parts => String c part :: parts
         | [] => [String c ""]
         end.
Proof. reflexivity. Qed.

(** The parts of [a/b] are the parts of [a] followed by the parts of [b]. *)
Lemma Split_app a b :
  GoStrings.Split (a +:+ String GoStrings.slash b)
  = GoStrings.Split a ++ GoStrings.Split b.
Proof.
  induction a as [|c a IH].
  - rewrite append_nil_l, Split_cons, decide_True by done. done.
  - rewrite append_cons, !Split_cons, IH.
    pose proof (Split_nonempty a). case_decide; [done|].
    by destruct (GoStrings.Split a).
Qed.

Lemma Split_flat s : GoStrings.Contains s = false → GoStrings.Split s = [s].
Proof.
  induction s as [|c s IH]; [done|]. simpl. case_decide; [done|].
  intros Hs. by rewrite IH.
Qed.

Lemma Split_parts_flat s :
  Forall (λ part, GoStrings.Contains part = false) (GoStrings.Split s).
Proof.
  induction s as [|c s IH]; simpl.
  - by repeat constructor.
  - pose proof (Split_nonempty s). case_decide as Hc.
    + by constructor.
    + destruct (GoStrings.Split s) as [|part parts]; [done|].
      apply Forall_cons in IH as [Hpart Hparts]. constructor; [|done].
      simpl. by rewrite decide_False.
Qed.

Lemma Split_Join parts :
  parts ≠ [] → Forall (λ part, GoStrings.Contains part = false) parts →
  GoStrings.Split (GoStrings.Join parts) = parts.
Proof.
  induction parts as [|part parts IH]; [done|]. intros _ Hall.
  apply Forall_cons in Hall as [Hpart Hparts].
  destruct parts as [|part' parts]; [by apply Split_flat|].
  change (GoStrings.Join (part :: part' :: parts))
    with (part +:+ String GoStrings.slash (GoStrings.Join (part' :: parts))).
  rewrite Split_app, (Split_flat part), IH by done. done.
Qed.

Lemma Split_first s :
  s ≠ "" → firstByte s ≠ Some GoStrings.slash →
  head (GoStrings.Split s) ≠ Some "".
Proof.
  destruct s as [|c s]; [done|]. intros _ Hc. rewrite Split_cons.
  rewrite decide_False by (intros ->; by destruct Hc).
  by destruct (GoStrings.Split s).
Qed.

Lemma last_Split_app dir seg :
  GoStrings.Contains seg = false →
  getLastPathSegment (dir +:+ String GoStrings.slash seg) = seg.
Proof.
  intros Hseg. unfold getLastPathSegment.
  rewrite Split_app, (Split_flat seg) by done. apply List.last_last.
Qed.

Lemma flat_last (parts : list string) :
  Forall (λ part, GoStrings.Contains part = false) parts →
  GoStrings.Contains (List.last parts "") = false.
Proof.
  induction parts as [|part parts IH]; [done|]. intros [Hp Hps]%Forall_cons.
  destruct parts as [|part' parts]; [done|]. by apply IH.
Qed.

Lemma Join_snoc (parts : list string) part :
  parts ≠ [] →
  GoStrings.Join (parts ++ [part])
  = GoStrings.Join parts +:+ String GoStrings.slash part.
Proof.
  induction parts as [|p parts IH]; [done|]. intros _.
  destruct parts as [|p' parts]; [done|].
  change (GoStrings.Join ((p :: p' :: parts) ++ [part]))
    with (p +:+ String GoStrings.slash (GoStrings.Join ((p' :: parts) ++ [part]))).
  rewrite IH by done.
  change (GoStrings.Join (p :: p' :: parts))
    with (p +:+ String GoStrings.slash (GoStrings.Join (p' :: parts))).
  by rewrite append_assoc, append_cons.
Qed.

(** ** Path classifier: more of [extractRelativePath] and [getLastPathSegment] *)

Lemma extractRelativePath_strip fullPath basePath :
  extractRelativePath fullPath basePath true
  = GoStrings.Trim (GoStrings.TrimPrefix fullPath (GoStrings.TrimSuffix basePath "/")) "/".
Proof. reflexivity. Qed.

(** X1. Stripping the prefix undoes joining a relative path to it: for a
    base path given without a trailing slash, the name [basePath/relative]
    has the relative path [relative], whether the prefix is passed with
    or without a trailing slash, and the base path itself has the empty
    relative path. More generally the relative path of a name that starts
    with the base path is what follows it, with the slashes at both ends
    removed: the prefix is cut wherever it ends, also inside a
    segment. *)
Theorem extractRelativePath_joined (basePath : string) :
  lastByte basePath ≠ Some GoStrings.slash →
  (∀ relative, noEdgeSlash relative →
     extractRelativePath (basePath +:+ "/" +:+ relative) basePath true = relative
     ∧ extractRelativePath (basePath +:+ "/" +:+ relative) (basePath +:+ "/") true
       = relative)
  ∧ extractRelativePath basePath basePath true = ""
  ∧ (∀ rest,
       extractRelativePath (basePath +:+ rest) basePath true = GoStrings.Trim rest "/"
       ∧ extractRelativePath (basePath +:+ rest) (basePath +:+ "/") true
         = GoStrings.Trim rest "/").
Proof.
  intros Hbase.
  assert (∀ rest,
    extractRelativePath (basePath +:+ rest) basePath true = GoStrings.Trim rest "/"
    ∧ extractRelativePath (basePath +:+ rest) (basePath +:+ "/") true
      = GoStrings.Trim rest "/") as Hrest.
  { intros rest. rewrite !extractRelativePath_strip.
    by rewrite TrimSuffix_slash, TrimSuffix_none, TrimPrefix_app. }
  split_and!.
  - intros relative Hrel. destruct (Hrest ("/" +:+ relative)) as [-> ->].
    change ("/" +:+ relative) with (String GoStrings.slash relative).
    by rewrite Trim_slash, Trim_none.
  - destruct (Hrest "") as [Hempty _]. by rewrite append_empty_r in Hempty.
  - done.
Qed.

Lemma extractRelativePath_joined_witness :
  extractRelativePath ("/app" +:+ "/" +:+ "db/host") "/app" true = "db/host"
  ∧ extractRelativePath ("/app" +:+ "/" +:+ "db/host") ("/app" +:+ "/") true = "db/host"
  ∧ extractRelativePath ("/app" +:+ "li/ance/") "/app" true = "li/ance".
Proof.
  destruct (extractRelativePath_joined "/app") as (Hjoined & _ & Hrest); [done|].
  destruct (Hjoined "db/host") as [H1 H2]; [by split|].
  destruct (Hrest "li/ance/") as [H3 _].
  split_and!; [exact H1|exact H2|exact H3].
Defined.

(** X2. The last path segment holds no slash, it is the whole path when
    the path holds none, and it is [segment] for a path [dir/segment]
    whose last part [segment] holds no slash. *)
Theorem getLastPathSegment_spec (path : string) :
  GoStrings.Contains (getLastPathSegment path) = false
  ∧ (GoStrings.Contains path = false → getLastPathSegment path = path)
  ∧ (∀ dir segment,
       GoStrings.Contains segment = false → path = dir +:+ "/" +:+ segment →
       getLastPathSegment path = segment)
  ∧ ∃ dir, path = dir +:+ getLastPathSegment path
           ∧ (dir = "" ∨ lastByte dir = Some GoStrings.slash).
Proof.
  split_and!.
  - apply flat_last, Split_parts_flat.
  - intros Hflat. unfold getLastPathSegment. by rewrite Split_flat.
  - intros dir segment Hseg ->. by apply last_Split_app.
  - unfold getLastPathSegment. pose proof (Join_Split path) as Hjoin.
    pose proof (Split_nonempty path) as Hne.
    destruct (GoStrings.Split path) as [|part parts _] using rev_ind; [done|].
    rewrite List.last_last.
    destruct parts as [|part' parts].
    + exists "". split; [by rewrite <-Hjoin|by left].
    + rewrite Join_snoc in Hjoin by done.
      exists (GoStrings.Join (part' :: parts) +:+ "/"). split.
      * by rewrite append_assoc.
      * right. by rewrite lastByte_app.
Qed.

Lemma getLastPathSegment_spec_witness :
  getLastPathSegment "/app/schema/User" = "User".
Proof.
  destruct (getLastPathSegment_spec "/app/schema/User") as (_ & _ & Hlast & _).
  apply (Hlast "/app/schema" "User"); reflexivity.
Defined.

(** ** Tree assembler: how the parameters are filed *)

Lemma levelOf_Split basePath stripPrefix q L rest :
  extractRelativePath (Name q) basePath stripPrefix ≠ "" →
  GoStrings.Split (extractRelativePath (Name q) basePath stripPrefix) = L :: rest →
  levelOf basePath stripPrefix q
  = (L, match rest with [] => "." | _ => GoStrings.Join rest end).
Proof.
  intros Hrel Hsplit. unfold levelOf. rewrite decide_False by done.
  rewrite Hsplit. by destruct rest.
Qed.

(** X3. The slot of a parameter. A parameter whose relative path is empty
    is filed in the root level [.] under the last segment of its name.
    Any other parameter is filed under the first segment of its relative
    path, which holds no slash and, when the prefix is stripped, is not
    empty; its child key is [.] when the relative path has one segment,
    and otherwise the rest of the relative path, so that level key, slash
    and child key give the relative path back and the segments of the
    child key are the remaining segments of the relative path. *)
Theorem levelOf_path (basePath : string) (stripPrefix : bool) (q : SsmParameter) :
  let relative := extractRelativePath (Name q) basePath stripPrefix in
  let slot := levelOf basePath stripPrefix q in
  (relative = "" → slot = (".", getLastPathSegment (Name q)))
  ∧ (relative ≠ "" →
     GoStrings.Contains slot.1 = false
     ∧ (stripPrefix = true → slot.1 ≠ "")
     ∧ ((slot.2 = "." ∧ relative = slot.1)
        ∨ (relative = slot.1 +:+ "/" +:+ slot.2
           ∧ GoStrings.Split relative = slot.1 :: GoStrings.Split slot.2))).
Proof.
  intros relative slot. split; [apply levelOf_root|]. intros Hrel.
  pose proof (Split_parts_flat relative) as Hflat.
  pose proof (Join_Split relative) as Hjoin.
  destruct (GoStrings.Split relative) as [|L rest] eqn:Hsplit;
    [by destruct (Split_nonempty relative)|].
  unfold slot. rewrite (levelOf_Split _ _ _ L rest Hrel Hsplit). simpl.
  apply Forall_cons in Hflat as [HL Hrest]. split_and!.
  - done.
  - intros ->. pose proof (Split_first relative Hrel) as Hfirst.
    rewrite Hsplit in Hfirst. simpl in Hfirst. intros ->. apply Hfirst; [|done].
    apply Trim_noEdgeSlash.
  - destruct rest as [|part rest]; [left; by rewrite <-Hjoin|].
    right. split; [by rewrite <-Hjoin|].
    by rewrite Split_Join.
Qed.

Lemma levelOf_path_witness :
  levelOf "/app" true (mkSsmParameter "/app/db/primary/host" "h")
  = ("db", "primary/host")
  ∧ "db/primary/host" = "db" +:+ "/" +:+ "primary/host".
Proof.
  destruct (levelOf_path "/app" true (mkSsmParameter "/app/db/primary/host" "h"))
    as [_ Hnested].
  destruct Hnested as (_ & _ & [[Hdot _]|[Hjoin _]]); [done|done|].
  split; [reflexivity|exact Hjoin].
Defined.

Section filing_facts.
Context (basePath : string) (stripPrefix : bool).

Local Abbreviation slotOf := (levelOf basePath stripPrefix).
Local Abbreviation file := (fileParameter basePath stripPrefix).

Lemma filed_file levels q L c :
  filed (file levels q) L c =
    if decide (slotOf q = (L, c)) then Some q else filed levels L c.
Proof.
  unfold filed. rewrite file_lookup.
  destruct (slotOf q) as [lk ck] eqn:Hq; simpl.
  destruct (decide (lk = L)) as [->|HL]; simpl.
  - rewrite lookup_insert. destruct (decide (ck = c)) as [->|Hc].
    + by rewrite decide_True.
    + rewrite decide_False by congruence. by destruct (levels !! L).
  - by rewrite decide_False by congruence.
Qed.

Lemma filed_fold (l : list SsmParameter) levels L c :
  filed (foldl file levels l) L c =
    match last (filter (λ q, slotOf q = (L, c)) l) with
    | Some q => Some q
    | None => filed levels L c
    end.
Proof.
  revert levels. induction l as [|q l IH]; intros levels; [done|].
  simpl. rewrite IH, filed_file, filter_cons.
  destruct (decide (slotOf q = (L, c))) as [Hq|Hq]; [|done].
  rewrite last_cons. by destruct (last _).
Qed.

Lemma file_nonempty (l : list SsmParameter) levels L m :
  (∀ L m, levels !! L = Some m → m ≠ ∅) →
  foldl file levels l !! L = Some m → m ≠ ∅.
Proof.
  revert levels. induction l as [|q l IH]; intros levels Hlevels; simpl.
  - apply Hlevels.
  - apply IH. intros L' m'. rewrite file_lookup. case_decide.
    + intros [= <-]. apply insert_non_empty.
    + apply Hlevels.
Qed.

End filing_facts.

Lemma filed_organize (params : list SsmParameter) basePath stripPrefix L c :
  filed (organizeParametersByLevel params basePath stripPrefix) L c
  = last (filter (λ q, levelOf basePath stripPrefix q = (L, c)) params).
Proof. rewrite organize_fold, filed_fold. by destruct (last _). Qed.

Lemma organize_level_is_Some (params : list SsmParameter) basePath stripPrefix L :
  is_Some (organizeParametersByLevel params basePath stripPrefix !! L) ↔
    ∃ q, q ∈ params ∧ (levelOf basePath stripPrefix q).1 = L.
Proof.
  rewrite organize_fold, organize_is_Some, lookup_empty.
  split; [|by right]. by intros [[? [=]]|?].
Qed.

Lemma organize_level_nonempty (params : list SsmParameter) basePath stripPrefix L m :
  organizeParametersByLevel params basePath stripPrefix !! L = Some m → m ≠ ∅.
Proof.
  rewrite organize_fold. apply file_nonempty.
  intros L' m'. by rewrite lookup_empty.
Qed.

(** X4. [organizeParametersByLevel] files every parameter in its slot and
    nothing else: the slot (level, child key) holds the last parameter of
    the input that belongs there, so that of two parameters with one slot
    the later silently replaces the earlier; a level exists exactly when
    some parameter has it as its level key, and no level is empty. *)
Theorem organize_filed (params : list SsmParameter) (basePath : string)
    (stripPrefix : bool) :
  let levels := organizeParametersByLevel params basePath stripPrefix in
  (∀ L c, filed levels L c
          = last (filter (λ q, levelOf basePath stripPrefix q = (L, c)) params))
  ∧ (∀ L, is_Some (levels !! L) ↔
          ∃ q, q ∈ params ∧ (levelOf basePath stripPrefix q).1 = L)
  ∧ (∀ L m, levels !! L = Some m → m ≠ ∅).
Proof.
  intros levels. split_and!.
  - apply filed_organize.
  - apply organize_level_is_Some.
  - apply organize_level_nonempty.
Qed.

Lemma levels_eq (levels1 levels2 : gmap string (gmap string SsmParameter)) :
  (∀ L, is_Some (levels1 !! L) ↔ is_Some (levels2 !! L)) →
  (∀ L c, filed levels1 L c = filed levels2 L c) →
  levels1 = levels2.
Proof.
  intros Hdom Hfiled. apply map_eq. intros L.
  specialize (Hdom L). pose proof (Hfiled L) as HL. unfold filed in HL.
  destruct (levels1 !! L) as [m1|], (levels2 !! L) as [m2|]; simpl in HL.
  - f_equal. by apply map_eq.
  - by destruct (proj1 Hdom) as [? [=]].
  - by destruct (proj2 Hdom) as [? [=]].
  - done.
Qed.

Lemma filter_short {A} (P : A → Prop) `{!∀ x, Decision (P x)}
    (f : A → string * string) (l : list A) :
  (∀ x y, P x → P y → f x = f y) →
  NoDup (f <$> l) → length (filter P l) ≤ 1.
Proof.
  intros HP Hnd.
  destruct (filter P l) as [|x [|y rest]] eqn:Hf; simpl; [lia|lia|].
  assert (NoDup (f <$> filter P l)) as Hnd'.
  { eapply sublist_NoDup; [done|]. apply fmap_sublist, sublist_filter. }
  rewrite Hf in Hnd'. simpl in Hnd'. apply NoDup_cons in Hnd' as [Hx _].
  destruct Hx. rewrite (HP x y); [by left| |].
  - assert (x ∈ filter P l) as Hin by (rewrite Hf; by left).
    by apply list_elem_of_filter in Hin as [? _].
  - assert (y ∈ filter P l) as Hin by (rewrite Hf; right; by left).
    by apply list_elem_of_filter in Hin as [? _].
Qed.

Lemma last_filter_unique {A} (P : A → Prop) `{!∀ x, Decision (P x)}
    (f : A → string * string) (l : list A) q :
  (∀ x y, P x → P y → f x = f y) →
  NoDup (f <$> l) →
  last (filter P l) = Some q ↔ q ∈ l ∧ P q.
Proof.
  intros HP Hnd. pose proof (filter_short P f l HP Hnd) as Hshort.
  pose proof (list_elem_of_filter P l q) as Hin. revert Hshort Hin.
  generalize (filter P l). intros fl Hshort Hin.
  rewrite (comm (∧)), <-Hin.
  destruct fl as [|x [|y rest]]; simpl in *; [| |lia].
  - split; [done|]. by intros ?%elem_of_nil.
  - rewrite list_elem_of_singleton. split; [by intros [= ->]|by intros ->].
Qed.

Lemma last_filter_Permutation {A} (P : A → Prop) `{!∀ x, Decision (P x)}
    (f : A → string * string) (l1 l2 : list A) :
  (∀ x y, P x → P y → f x = f y) →
  NoDup (f <$> l1) → l1 ≡ₚ l2 →
  last (filter P l1) = last (filter P l2).
Proof.
  intros HP Hnd Hperm.
  assert (NoDup (f <$> l2)) as Hnd2 by (by rewrite <-Hperm).
  apply option_eq. intros q.
  rewrite !(last_filter_unique P f) by done. by rewrite Hperm.
Qed.

(** X5. The tree of a prefix depends on the set of its parameters only:
    when no two parameters have the same slot, every reordering of the
    input gives the same levels and, in each iteration order of the maps,
    the same tree. The sort by name of [getParametersByPath] has no
    effect on the JSON document. *)
Theorem buildStructure_reordered (params params' : list SsmParameter)
    (basePath : string) (stripPrefix : bool) :
  NoDup (levelOf basePath stripPrefix <$> params) →
  params ≡ₚ params' →
  organizeParametersByLevel params basePath stripPrefix
  = organizeParametersByLevel params' basePath stripPrefix
  ∧ ∀ o dec sortByDependencies,
      buildStructure o dec params basePath stripPrefix sortByDependencies
      = buildStructure o dec params' basePath stripPrefix sortByDependencies.
Proof.
  intros Hnd Hperm.
  assert (organizeParametersByLevel params basePath stripPrefix
          = organizeParametersByLevel params' basePath stripPrefix) as Hlevels.
  { apply levels_eq.
    - intros L.
      rewrite !organize_level_is_Some. by setoid_rewrite Hperm.
    - intros L c. rewrite !filed_organize.
      apply (last_filter_Permutation _ (levelOf basePath stripPrefix));
        [congruence|done|done]. }
  split; [done|]. intros o dec sortByDependencies. unfold buildStructure.
  rewrite Hlevels. destruct params as [|q params], params' as [|q' params']; try done.
  - by apply Permutation_nil_cons in Hperm.
  - symmetry in Hperm. by apply Permutation_nil_cons in Hperm.
Qed.

Lemma buildStructure_reordered_witness :
  buildStructure reverseOrder exampleDecoders
    [mkSsmParameter "/p/b/y" "2"; mkSsmParameter "/p/a" "1"] "/p" true false
  = buildStructure reverseOrder exampleDecoders
      [mkSsmParameter "/p/a" "1"; mkSsmParameter "/p/b/y" "2"] "/p" true false.
Proof.
  apply (buildStructure_reordered
           [mkSsmParameter "/p/b/y" "2"; mkSsmParameter "/p/a" "1"]
           [mkSsmParameter "/p/a" "1"; mkSsmParameter "/p/b/y" "2"] "/p" true).
  - apply (bool_decide_unpack _). by vm_compute.
  - apply Permutation_swap.
Defined.

(** ** Tree assembler: nested objects and nested structures *)

Lemma getPath_cons part rest (m : gmap string value) :
  getPath (part :: rest) (VMap m) = m !! part ≫= getPath rest.
Proof. reflexivity. Qed.

Lemma getPath_empty path : path ≠ [] → getPath path (VMap ∅) = None.
Proof. destruct path; [done|]. intros _. by rewrite getPath_cons, lookup_empty. Qed.

Lemma getPath_scalar path v :
  path ≠ [] → (∀ m, v ≠ VMap m) → getPath path v = None.
Proof. destruct path; [done|]. intros _ Hv. destruct v; try done. by destruct (Hv m). Qed.

Lemma getPath_insert part rest (m : gmap string value) v :
  getPath (part :: rest) (VMap (<[part := v]> m)) = getPath rest v.
Proof. by rewrite getPath_cons, lookup_insert_eq. Qed.

Lemma nestedObject_cons part part' rest leaf :
  nestedObject (part :: part' :: rest) leaf
  = {[ part := VMap (nestedObject (part' :: rest) leaf) ]}.
Proof. reflexivity. Qed.

Lemma setPath_cons part part' rest leaf current :
  setPath (part :: part' :: rest) leaf current
  = <[part := VMap (setPath (part' :: rest) leaf
                      match current !! part with
                      | Some (VMap childMap) => childMap
                      | _ => ∅
                      end)]> current.
Proof. reflexivity. Qed.

(** On an empty tree the walk of [buildNestedStructure] builds what
    [buildNestedObject] builds. *)
Lemma setPath_empty pathParts leaf :
  setPath pathParts leaf ∅ = nestedObject pathParts leaf.
Proof.
  induction pathParts as [|part rest IH]; [done|].
  destruct rest as [|part' rest]; [simpl; by rewrite insert_empty|].
  rewrite setPath_cons, nestedObject_cons, lookup_empty, IH.
  by rewrite insert_empty.
Qed.

Lemma getPath_setPath pathParts leaf current :
  pathParts ≠ [] →
  getPath pathParts (VMap (setPath pathParts leaf current)) = Some leaf.
Proof.
  revert current. induction pathParts as [|part rest IH]; [done|].
  intros current _. destruct rest as [|part' rest].
  - simpl. by rewrite lookup_insert_eq.
  - rewrite setPath_cons, getPath_insert. by apply IH.
Qed.

(** A walk leaves alone what lies on a path that neither continues its
    own path nor is continued by it. *)
Lemma getPath_setPath_other pathParts leaf current other :
  ¬ pathParts `prefix_of` other → ¬ other `prefix_of` pathParts →
  getPath other (VMap (setPath pathParts leaf current))
  = getPath other (VMap current).
Proof.
  revert current other. induction pathParts as [|part rest IH];
    intros current other Hpo Hop.
  { destruct Hpo. apply prefix_nil. }
  destruct other as [|part0 other]; [destruct Hop; apply prefix_nil|].
  destruct (decide (part0 = part)) as [->|Hne].
  2:{ rewrite !getPath_cons. destruct rest as [|part' rest].
      - simpl. by rewrite lookup_insert_ne.
      - rewrite setPath_cons. by rewrite lookup_insert_ne. }
  assert (¬ rest `prefix_of` other) as Hpo' by (intros ?; apply Hpo; by apply prefix_cons).
  assert (¬ other `prefix_of` rest) as Hop' by (intros ?; apply Hop; by apply prefix_cons).
  destruct rest as [|part' rest]; [destruct Hpo'; apply prefix_nil|].
  assert (other ≠ []) as Hother by (intros ->; apply Hop'; apply prefix_nil).
  rewrite setPath_cons, getPath_insert, getPath_cons.
  rewrite IH by done.
  destruct (current !! part) as [[]|]; simpl;
    try (by rewrite getPath_empty; [symmetry; apply getPath_scalar|]);
    try done.
  by apply getPath_empty.
Qed.

Lemma getPath_nestedObject_chain pathParts leaf path :
  is_Some (getPath path (VMap (nestedObject pathParts leaf))) →
  path `prefix_of` pathParts ∨ pathParts `prefix_of` path.
Proof.
  revert path. induction pathParts as [|part rest IH]; intros path.
  { intros _. right. apply prefix_nil. }
  destruct path as [|part0 path]; [intros _; left; apply prefix_nil|].
  rewrite getPath_cons. destruct rest as [|part' rest].
  - simpl. intros [v Hv]. apply bind_Some in Hv as (w & Hw & _).
    apply lookup_singleton_Some in Hw as [<- _].
    right. apply prefix_cons, prefix_nil.
  - rewrite nestedObject_cons. intros [v Hv]. apply bind_Some in Hv as (w & Hw & Hv).
    apply lookup_singleton_Some in Hw as [<- <-].
    destruct (IH path) as [?|?]; [by eexists| |]; [left|right]; by apply prefix_cons.
Qed.

Section nested_facts.
Context (o : MapOrder) (dec : Decoders).

Local Abbreviation leafOf p := (parseParameterValue dec (Value p)).
Local Abbreviation walk :=
  (λ (result : gmap string value) (kv : string * SsmParameter),
     setPath (GoStrings.Split kv.1) (parseParameterValue dec (Value kv.2)) result).

Lemma walks_other (l : list (string * SsmParameter)) result path :
  (∀ kv, kv ∈ l → ¬ GoStrings.Split kv.1 `prefix_of` path
                  ∧ ¬ path `prefix_of` GoStrings.Split kv.1) →
  getPath path (VMap (foldl walk result l)) = getPath path (VMap result).
Proof.
  revert result. induction l as [|kv l IH]; intros result Hl; [done|].
  simpl. rewrite IH by (intros kv' ?; apply Hl; by right).
  destruct (Hl kv) as [? ?]; [by left|]. by apply getPath_setPath_other.
Qed.

Lemma setPath_is_Some pathParts leaf current k :
  is_Some (setPath pathParts leaf current !! k) ↔
    is_Some (current !! k) ∨ head pathParts = Some k.
Proof.
  destruct pathParts as [|part [|part' rest]].
  - simpl. split; [auto|]. by intros [?|[=]].
  - simpl. rewrite lookup_insert_is_Some'. split.
    + intros [->|?]; auto.
    + intros [?|[= ->]]; auto.
  - rewrite setPath_cons, lookup_insert_is_Some'. simpl. split.
    + intros [->|?]; auto.
    + intros [?|[= ->]]; auto.
Qed.

Lemma walks_is_Some (l : list (string * SsmParameter)) result k :
  is_Some (foldl walk result l !! k) ↔
    is_Some (result !! k) ∨ ∃ kv, kv ∈ l ∧ head (GoStrings.Split kv.1) = Some k.
Proof.
  revert result. induction l as [|kv l IH]; intros result; simpl.
  - split; [auto|]. intros [?|(kv & []%elem_of_nil & _)]. done.
  - rewrite IH, setPath_is_Some. split.
    + intros [[?|?]|(kv' & ? & ?)]; [by left| |].
      * right. exists kv. split; [by left|done].
      * right. exists kv'. split; [by right|done].
    + intros [?|(kv' & [->|?]%elem_of_cons & ?)]; [by auto|by auto|].
      right. by exists kv'.
Qed.

End nested_facts.

Lemma getPath_buildNestedObject (dec : Decoders) childPath (param : SsmParameter) :
  getPath (GoStrings.Split childPath) (VMap (buildNestedObject dec childPath param))
  = Some (parseParameterValue dec (Value param)).
Proof.
  unfold buildNestedObject. rewrite <-setPath_empty.
  apply getPath_setPath, Split_nonempty.
Qed.

Lemma getPath_buildNestedStructure (o : MapOrder) (dec : Decoders)
    (levelParams : gmap string SsmParameter) childPath param :
  prefixFree levelParams →
  levelParams !! childPath = Some param →
  getPath (GoStrings.Split childPath) (VMap (buildNestedStructure o dec levelParams))
  = Some (parseParameterValue dec (Value param)).
Proof.
  intros Hfree Hc. unfold buildNestedStructure.
  destruct (range_split o levelParams childPath param Hc)
    as (l1 & l2 & Heq & Hl2 & _).
  rewrite Heq, foldl_app. simpl.
  rewrite walks_other.
  - apply getPath_setPath, Split_nonempty.
  - intros [c q] Hin. simpl.
    assert ((c, q) ∈ range o levelParams) as Hin'.
    { rewrite Heq. apply elem_of_app. right. by right. }
    apply elem_of_range in Hin'.
    assert (c ≠ childPath) as Hne.
    { intros ->. apply Hl2. apply list_elem_of_fmap. by exists (childPath, q). }
    split; intros Hpre; apply Hne.
    + by apply Hfree.
    + symmetry. by apply Hfree.
Qed.

(** X6. [buildNestedObject] builds a chain: the parsed value of the
    parameter is found by following the segments of the child path, and
    every path that leads to a value runs along these segments. A nested
    structure built from that one child is the same object, so that the
    two branches of [processNestedLevel] agree on it. *)
Theorem buildNestedObject_chain (dec : Decoders) (childPath : string)
    (param : SsmParameter) :
  getPath (GoStrings.Split childPath) (VMap (buildNestedObject dec childPath param))
  = Some (parseParameterValue dec (Value param))
  ∧ (∀ path,
       is_Some (getPath path (VMap (buildNestedObject dec childPath param))) →
       path `prefix_of` GoStrings.Split childPath
       ∨ GoStrings.Split childPath `prefix_of` path)
  ∧ (∀ o : MapOrder,
       buildNestedStructure o dec {[ childPath := param ]}
       = buildNestedObject dec childPath param).
Proof.
  split_and!.
  - apply getPath_buildNestedObject.
  - intros path. apply getPath_nestedObject_chain.
  - intros o. unfold buildNestedStructure, buildNestedObject.
    destruct (range_singleton_size o ({[ childPath := param ]} : gmap string SsmParameter))
      as (c & q & Heq & ->); [apply map_size_singleton|].
    assert (({[ childPath := param ]} : gmap string SsmParameter) !! c = Some q) as Hc
      by (rewrite Heq; apply lookup_singleton_eq).
    apply lookup_singleton_Some in Hc as [<- <-]. simpl. apply setPath_empty.
Qed.

(** X7. [buildNestedStructure] keeps every child of a level whose child
    paths do not continue one another: in every iteration order the
    parsed value of each child is found by following the segments of its
    child path, and the keys of the structure are the first segments of
    the child paths. *)
Theorem buildNestedStructure_paths (o : MapOrder) (dec : Decoders)
    (levelParams : gmap string SsmParameter) :
  prefixFree levelParams →
  (∀ childPath param,
     levelParams !! childPath = Some param →
     getPath (GoStrings.Split childPath)
             (VMap (buildNestedStructure o dec levelParams))
     = Some (parseParameterValue dec (Value param)))
  ∧ (∀ k, is_Some (buildNestedStructure o dec levelParams !! k) ↔
          ∃ childPath, is_Some (levelParams !! childPath)
                       ∧ head (GoStrings.Split childPath) = Some k).
Proof.
  intros Hfree. split.
  - intros childPath param Hc. by apply getPath_buildNestedStructure.
  - intros k. unfold buildNestedStructure.
    rewrite walks_is_Some, lookup_empty. split.
    + intros [[? [=]]|([c q] & Hin%elem_of_range & Hk)]. exists c. eauto.
    + intros (c & [q Hq] & Hk). right. exists (c, q).
      split; [by apply elem_of_range|done].
Qed.

(** A leaf next to two deeper children. *)
Lemma buildNestedStructure_paths_witness :
  getPath (GoStrings.Split "primary/host")
    (VMap (buildNestedStructure reverseOrder exampleDecoders
             {[ "primary/host" := mkSsmParameter "/p/db/primary/host" "1";
                "primary/port" := mkSsmParameter "/p/db/primary/port" "5432";
                "name" := mkSsmParameter "/p/db/name" "7" ]}))
  = Some (parseParameterValue exampleDecoders "1").
Proof.
  refine (proj1 (buildNestedStructure_paths reverseOrder exampleDecoders
           {[ "primary/host" := mkSsmParameter "/p/db/primary/host" "1";
              "primary/port" := mkSsmParameter "/p/db/primary/port" "5432";
              "name" := mkSsmParameter "/p/db/name" "7" ]} _)
           "primary/host" (mkSsmParameter "/p/db/primary/host" "1") _);
    [|reflexivity].
  intros c1 c2 [q1 H1] [q2 H2].
  repeat (apply lookup_insert_Some in H1 as [[<- _]|[_ H1]];
          [|try apply lookup_singleton_Some in H1 as [<- _]]);
  repeat (apply lookup_insert_Some in H2 as [[<- _]|[_ H2]];
          [|try apply lookup_singleton_Some in H2 as [<- _]]);
  vm_compute; try done;
  intros [k Hk]; repeat (destruct k as [|? k]; try discriminate).
Defined.

(** ** Tree assembler: where the value of a parameter ends up *)

Lemma organize_level_entries (params : list SsmParameter) basePath stripPrefix L m :
  NoDup (levelOf basePath stripPrefix <$> params) →
  organizeParametersByLevel params basePath stripPrefix !! L = Some m →
  map_to_list m ≡ₚ
    (λ q, ((levelOf basePath stripPrefix q).2, q))
      <$> filter (λ q, (levelOf basePath stripPrefix q).1 = L) params.
Proof.
  intros Hnd Hm. apply NoDup_Permutation.
  - apply NoDup_map_to_list.
  - apply NoDup_fmap_2_strong.
    + by intros q1 q2 _ _ [= _ ->].
    + apply NoDup_filter. by eapply NoDup_fmap_1.
  - intros [c q]. rewrite elem_of_map_to_list.
    assert (m !! c = filed (organizeParametersByLevel params basePath stripPrefix) L c)
      as -> by (unfold filed; by rewrite Hm).
    rewrite filed_organize.
    rewrite (last_filter_unique _ (levelOf basePath stripPrefix)) by (done || congruence).
    rewrite list_elem_of_fmap. split.
    + intros [Hq Hslot]. exists q. rewrite Hslot. split; [done|].
      apply list_elem_of_filter. split; [by rewrite Hslot|done].
    + intros (q' & [= -> <-] & [HL Hq]%list_elem_of_filter). split; [done|].
      rewrite <-HL. by destruct (levelOf basePath stripPrefix q).
Qed.

Section placement_facts.
Context (o : MapOrder) (dec : Decoders).

Lemma buildArrayFromMap_Permutation (m : gmap string SsmParameter) :
  buildArrayFromMap o dec m
  ≡ₚ (λ kv, parseParameterValue dec (Value kv.2)) <$> map_to_list m.
Proof. unfold buildArrayFromMap. by rewrite (range_perm o). Qed.

Lemma processNestedLevel_single result L c (q : SsmParameter) :
  processNestedLevel o dec result L {[ c := q ]}
  = <[L := if decide (c = ".") then parseParameterValue dec (Value q)
           else VMap (buildNestedObject dec c q)]> result.
Proof.
  unfold processNestedLevel. rewrite map_size_singleton, decide_True by done.
  destruct (range_singleton_size o ({[ c := q ]} : gmap string SsmParameter))
    as (c' & q' & Heq & ->); [apply map_size_singleton|].
  assert (({[ c := q ]} : gmap string SsmParameter) !! c' = Some q') as Hc
    by (rewrite Heq; apply lookup_singleton_eq).
  apply lookup_singleton_Some in Hc as [<- <-]. simpl. by case_decide.
Qed.

Lemma processNestedLevel_many result L (m : gmap string SsmParameter) :
  size m ≠ 1 →
  processNestedLevel o dec result L m
  = <[L := if shouldBeArray o m then VSeq (buildArrayFromMap o dec m)
           else VMap (buildNestedStructure o dec m)]> result.
Proof.
  intros Hsz. unfold processNestedLevel. rewrite decide_False by done.
  by destruct (shouldBeArray o m).
Qed.

End placement_facts.

Lemma buildStructure_keys (o : MapOrder) (dec : Decoders)
    (params : list SsmParameter) basePath stripPrefix sortByDependencies k :
  (∀ q, q ∈ params → (levelOf basePath stripPrefix q).1 ≠ ".") →
  is_Some (buildStructure o dec params basePath stripPrefix sortByDependencies !! k)
  ↔ ∃ q, q ∈ params ∧ (levelOf basePath stripPrefix q).1 = k.
Proof.
  intros Hnoroot.
  pose proof (organize_level_is_Some params basePath stripPrefix) as Hdom.
  destruct params as [|q0 params].
  { simpl. rewrite lookup_empty. split; [by intros [? [=]]|].
    by intros (q & []%elem_of_nil & _). }
  unfold buildStructure.
  rewrite buildGenericStructure_is_Some. split.
  - intros [(m0 & Hm0 & _)|[_ Hk]]; [|by apply Hdom].
    assert (is_Some (organizeParametersByLevel (q0 :: params) basePath stripPrefix
                     !! ".")) as (q & Hq & Hl)%Hdom by eauto.
    by destruct (Hnoroot q).
  - intros Hk. right. split; [|by apply Hdom].
    destruct Hk as (q & Hq & <-). by apply Hnoroot.
Qed.

(** X8. Where the nested levels put the values. For a parameter set with
    no parameter in the root level, the keys of the tree are the level
    keys of the parameters, and under the key of a level [L]:
    - the only child of the level is stored as its parsed value when its
      child key is [.], and otherwise at the end of the chain of its
      child path;
    - several children whose child keys hold no slash are stored as a
      sequence of their parsed values, in some order;
    - several children of which one child key holds a slash are stored
      as a mapping in which, when no child path continues another one,
      each parsed value is found along the segments of its child path. *)
Theorem buildStructure_placement (o : MapOrder) (dec : Decoders)
    (params : list SsmParameter) (basePath : string)
    (stripPrefix sortByDependencies : bool) :
  let levels := organizeParametersByLevel params basePath stripPrefix in
  let tree := buildStructure o dec params basePath stripPrefix sortByDependencies in
  let leaf param := parseParameterValue dec (Value param) in
  let flat (m : gmap string SsmParameter) :=
    ∀ c, is_Some (m !! c) → GoStrings.Count c = 0%Z in
  (∀ q, q ∈ params → (levelOf basePath stripPrefix q).1 ≠ ".") →
  (∀ k, is_Some (tree !! k) ↔
        ∃ q, q ∈ params ∧ (levelOf basePath stripPrefix q).1 = k)
  ∧ ∀ L m, levels !! L = Some m →
      (∀ c param, m = {[ c := param ]} →
         if decide (c = ".") then tree !! L = Some (leaf param)
         else getPath (L :: GoStrings.Split c) (VMap tree) = Some (leaf param))
      ∧ (1 < size m → flat m →
         ∃ items, tree !! L = Some (VSeq items)
                  ∧ items ≡ₚ (λ kv, leaf kv.2) <$> map_to_list m)
      ∧ (1 < size m → ¬ flat m → prefixFree m →
         ∀ c param, m !! c = Some param →
           getPath (L :: GoStrings.Split c) (VMap tree) = Some (leaf param)).
Proof.
  intros levels tree leaf flat Hnoroot.
  pose proof (organize_level_is_Some params basePath stripPrefix) as Hdom.
  fold levels in Hdom.
  assert (levels !! "." = None) as Hdot.
  { apply eq_None_not_Some. rewrite Hdom. intros (q & Hq & Hl). by apply (Hnoroot q). }
  split.
  - intros k. by apply buildStructure_keys.
  - intros L m Hm.
    assert (L ≠ ".") as HL by (intros ->; congruence).
    assert (tree = buildGenericStructure o dec levels) as Htree.
    { unfold tree, buildStructure. destruct params; [|done].
      assert (is_Some (levels !! L)) as Hsome by eauto.
      apply Hdom in Hsome as (q & []%elem_of_nil & _). }
    assert (∀ v, (∀ result, processNestedLevel o dec result L m = <[L := v]> result) →
                 tree !! L = Some v) as Hemit.
    { intros v Hv. rewrite Htree.
      apply (buildGenericStructure_nested o dec levels L m v HL Hm Hv).
      intros m0. by rewrite Hdot. }
    split_and!.
    + intros c param ->.
      pose proof (Hemit _ (λ result, processNestedLevel_single o dec result L c param))
        as Hv.
      case_decide as Hc; [done|]. rewrite getPath_cons, Hv. simpl.
      apply getPath_buildNestedObject.
    + intros Hsz Hflat. exists (buildArrayFromMap o dec m). split.
      * apply Hemit. intros result. rewrite processNestedLevel_many by lia.
        assert (shouldBeArray o m = true) as -> by (by apply shouldBeArray_spec).
        done.
      * apply buildArrayFromMap_Permutation.
    + intros Hsz Hflat Hfree c param Hc.
      rewrite getPath_cons, (Hemit (VMap (buildNestedStructure o dec m))).
      * simpl. by apply getPath_buildNestedStructure.
      * intros result. rewrite processNestedLevel_many by lia.
        destruct (shouldBeArray o m) eqn:Hsba; [|done].
        apply shouldBeArray_spec in Hsba as [_ ?]. done.
Qed.

(** The only child of level [db] is found at the end of its path. *)
Lemma buildStructure_placement_witness :
  getPath ("db" :: GoStrings.Split "primary/host")
    (VMap (buildStructure reverseOrder exampleDecoders
             [mkSsmParameter "/p/db/primary/host" "1"; mkSsmParameter "/p/ttl" "30"]
             "/p" true false))
  = Some (parseParameterValue exampleDecoders "1").
Proof.
  destruct (buildStructure_placement reverseOrder exampleDecoders
              [mkSsmParameter "/p/db/primary/host" "1"; mkSsmParameter "/p/ttl" "30"]
              "/p" true false) as [_ Hlevel].
  - intros q [->|[->|[]%elem_of_nil]%elem_of_cons]%elem_of_cons; by vm_compute.
  - destruct (Hlevel "db" {[ "primary/host" := mkSsmParameter "/p/db/primary/host" "1" ]})
      as (Hsingle & _ & _); [by vm_compute|].
    exact (Hsingle "primary/host" (mkSsmParameter "/p/db/primary/host" "1") eq_refl).
Defined.

(** X9. The root level with several entries. When more than one
    parameter is filed in the root level, no two parameters share a slot
    and no parameter has the level key [items], the tree holds under
    [items] a sequence with exactly the parsed values of the root-level
    parameters, in some order. *)
Theorem buildStructure_root_items (o : MapOrder) (dec : Decoders)
    (params : list SsmParameter) (basePath : string)
    (stripPrefix sortByDependencies : bool) :
  let roots := filter (λ q, (levelOf basePath stripPrefix q).1 = ".") params in
  NoDup (levelOf basePath stripPrefix <$> params) →
  1 < length roots →
  (∀ q, q ∈ params → (levelOf basePath stripPrefix q).1 ≠ "items") →
  ∃ items,
    buildStructure o dec params basePath stripPrefix sortByDependencies !! "items"
    = Some (VSeq items)
    ∧ items ≡ₚ (λ q, parseParameterValue dec (Value q)) <$> roots.
Proof.
  intros roots Hnd Hroots Hitems.
  set (levels := organizeParametersByLevel params basePath stripPrefix).
  pose proof (organize_level_is_Some params basePath stripPrefix) as Hdom.
  fold levels in Hdom.
  assert (is_Some (levels !! ".")) as [m0 Hm0].
  { apply Hdom. destruct roots as [|q roots'] eqn:Hr; [simpl in Hroots; lia|].
    assert (q ∈ roots) as Hq by (rewrite Hr; by left).
    apply list_elem_of_filter in Hq as [? ?]. eauto. }
  pose proof (organize_level_entries params basePath stripPrefix "." m0 Hnd Hm0)
    as Hentries. fold roots in Hentries.
  assert (size m0 = length roots) as Hsize.
  { by rewrite <-length_map_to_list, Hentries, length_fmap. }
  exists (buildArrayFromMap o dec m0). split.
  - assert (buildStructure o dec params basePath stripPrefix sortByDependencies
            = buildGenericStructure o dec levels) as ->.
    { unfold buildStructure. destruct params; [|done]. simpl in Hroots. lia. }
    apply (buildGenericStructure_root o dec levels m0); [done| |].
    + unfold emitLevel, processRootLevel. simpl.
      rewrite decide_True by lia. apply lookup_insert_eq.
    + apply eq_None_not_Some. rewrite Hdom. intros (q & Hq & Hl).
      by apply (Hitems q).
  - rewrite buildArrayFromMap_Permutation, Hentries, <-list_fmap_compose. done.
Qed.

(** The prefix itself and the prefix with a trailing slash are both at
    the root level. *)
Lemma buildStructure_root_items_witness :
  ∃ items,
    buildStructure reverseOrder exampleDecoders
      [mkSsmParameter "/p" "1"; mkSsmParameter "/p/" "2"; mkSsmParameter "/p/a" "3"]
      "/p" true false !! "items" = Some (VSeq items)
    ∧ items ≡ₚ [VNum 1; VNum 2].
Proof.
  apply (buildStructure_root_items reverseOrder exampleDecoders
           [mkSsmParameter "/p" "1"; mkSsmParameter "/p/" "2"; mkSsmParameter "/p/a" "3"]
           "/p" true false).
  - apply (bool_decide_unpack _). by vm_compute.
  - vm_compute. lia.
  - intros q [->|[->|[->|[]%elem_of_nil]%elem_of_cons]%elem_of_cons]%elem_of_cons;
      by vm_compute.
Defined.

(** X10. Without prefix stripping the relative path is the name itself:
    a parameter whose name starts with a slash, as the names of the
    parameter store do, is filed under the empty level key with the rest
    of its name as child key, and the tree of a non-empty parameter list
    has the empty string as its only key. *)
Theorem buildStructure_unstripped (o : MapOrder) (dec : Decoders)
    (params : list SsmParameter) (basePath : string) (sortByDependencies : bool) :
  params ≠ [] →
  (∀ q, q ∈ params → firstByte (Name q) = Some GoStrings.slash) →
  (∀ q, q ∈ params →
        ∃ rest, Name q = String GoStrings.slash rest
                ∧ levelOf basePath false q = ("", rest))
  ∧ ∀ k, is_Some (buildStructure o dec params basePath false sortByDependencies !! k)
         ↔ k = "".
Proof.
  intros Hne Hslash.
  assert (∀ q, q ∈ params →
            ∃ rest, Name q = String GoStrings.slash rest
                    ∧ levelOf basePath false q = ("", rest)) as Hslot.
  { intros q Hq. specialize (Hslash q Hq).
    destruct (Name q) as [|c rest] eqn:Hname; [done|].
    injection Hslash as ->. exists rest. split; [done|].
    rewrite (levelOf_Split basePath false q "" (GoStrings.Split rest)).
    - pose proof (Split_nonempty rest). pose proof (Join_Split rest) as Hjoin.
      destruct (GoStrings.Split rest); [done|]. by rewrite Hjoin.
    - simpl. by rewrite Hname.
    - simpl. rewrite Hname, Split_cons. by rewrite decide_True. }
  split; [done|]. intros k. rewrite buildStructure_keys.
  - split.
    + intros (q & Hq & <-). by destruct (Hslot q Hq) as (rest & _ & ->).
    + intros ->. destruct params as [|q params]; [done|]. exists q.
      split; [by left|]. destruct (Hslot q) as (rest & _ & ->); [by left|done].
  - intros q Hq. by destruct (Hslot q Hq) as (rest & _ & ->).
Qed.

Lemma buildStructure_unstripped_witness :
  is_Some (buildStructure canonicalOrder exampleDecoders
             [mkSsmParameter "/p/a" "1"; mkSsmParameter "/p/b" "2"] "/p" false false
           !! "")
  ∧ ¬ is_Some (buildStructure canonicalOrder exampleDecoders
                 [mkSsmParameter "/p/a" "1"; mkSsmParameter "/p/b" "2"] "/p" false false
               !! "a").
Proof.
  destruct (buildStructure_unstripped canonicalOrder exampleDecoders
              [mkSsmParameter "/p/a" "1"; mkSsmParameter "/p/b" "2"] "/p" false)
    as [_ Hkeys]; [done| |].
  - intros q [->|[->|[]%elem_of_nil]%elem_of_cons]%elem_of_cons; reflexivity.
  - split; [by apply Hkeys|]. by intros ?%Hkeys.
Defined.

(** ** Deep merger: units and disjoint maps *)

Lemma mergeMaps_is_Some dest src k :
  is_Some (mergeMaps dest src !! k) ↔ is_Some (dest !! k) ∨ is_Some (src !! k).
Proof.
  rewrite mergeMaps_lookup. destruct (src !! k) as [v|].
  - split; [by right; eauto|by eauto].
  - split; [by left|]. by intros [?|[? [=]]].
Qed.

Lemma mergeMaps_empty_r dest : mergeMaps dest ∅ = dest.
Proof. apply map_eq. intros k. by rewrite mergeMaps_lookup, lookup_empty. Qed.

Lemma mergeMaps_empty_l src : mergeMaps ∅ src = src.
Proof.
  apply map_eq. intros k. rewrite mergeMaps_lookup, lookup_empty.
  by destruct (src !! k).
Qed.

Lemma mergeMaps_disjoint_union dest src :
  dest ##ₘ src → mergeMaps dest src = dest ∪ src.
Proof.
  intros Hdisj. apply map_eq. intros k. rewrite mergeMaps_lookup.
  destruct (src !! k) as [v|] eqn:Hs.
  - assert (dest !! k = None) as Hd by (by eapply map_disjoint_Some_r).
    rewrite Hd. symmetry. by apply lookup_union_Some_r.
  - symmetry. destruct (dest !! k) as [w|] eqn:Hd.
    + by apply lookup_union_Some_l.
    + by apply lookup_union_None_2.
Qed.

(** X11. The empty map is a unit of [mergeMaps] on both sides, and the
    keys of a merge are the keys of either side: the merge adds and
    replaces keys and never removes one. *)
Theorem mergeMaps_units (dest src : gmap string value) :
  mergeMaps dest ∅ = dest
  ∧ mergeMaps ∅ src = src
  ∧ ∀ key, is_Some (mergeMaps dest src !! key) ↔
           is_Some (dest !! key) ∨ is_Some (src !! key).
Proof.
  split_and!.
  - apply mergeMaps_empty_r.
  - apply mergeMaps_empty_l.
  - apply mergeMaps_is_Some.
Qed.

(** X12. On maps without a common key the merge is the union, and then
    the order of the two arguments does not matter; with a common key it
    does, since the value of the second argument is the one that wins
    over a scalar. *)
Theorem mergeMaps_disjoint (dest src : gmap string value) :
  dest ##ₘ src →
  mergeMaps dest src = dest ∪ src
  ∧ mergeMaps src dest = mergeMaps dest src.
Proof.
  intros Hdisj. split; [by apply mergeMaps_disjoint_union|].
  rewrite !mergeMaps_disjoint_union by done. by apply map_union_comm.
Qed.

Lemma mergeMaps_disjoint_witness :
  mergeMaps {[ "a" := VNum 1 ]} {[ "b" := VNum 2 ]}
  = ({[ "a" := VNum 1 ]} : gmap string value) ∪ {[ "b" := VNum 2 ]}
  ∧ mergeMaps {[ "a" := VNum 1 ]} {[ "a" := VNum 2 ]}
    ≠ mergeMaps {[ "a" := VNum 2 ]} {[ "a" := VNum 1 ]}.
Proof.
  split.
  - apply (mergeMaps_disjoint {[ "a" := VNum 1 ]} {[ "b" := VNum 2 ]}).
    by apply map_disjoint_singleton_l, lookup_singleton_ne.
  - intros Heq. apply (f_equal (λ m : gmap string value, m !! "a")) in Heq.
    vm_compute in Heq. discriminate.
Defined.

(** ** YAML rules: errors and keys *)

Section yaml_more.
Context (dec : Decoders) (basePath : string) (stripPrefix : bool).

Local Abbreviation relative q := (extractRelativePath (Name q) basePath stripPrefix).
Local Abbreviation rules := (yamlRules dec basePath stripPrefix).

Lemma yamlRules_Err (params : list SsmParameter) result e :
  rules result params = Err e →
  ∃ before p after doc,
    params = before ++ p :: after
    ∧ rules result before = Ok doc
    ∧ yamlRule dec basePath stripPrefix doc p = Err e.
Proof.
  revert result. induction params as [|q params IH]; intros result; simpl; [done|].
  destruct (yamlRule dec basePath stripPrefix result q) as [result'|e'] eqn:Hq.
  - intros (before & p & after & doc & -> & Hbefore & Hp)%IH.
    exists (q :: before), p, after, doc. simpl. by rewrite Hq.
  - intros [= ->]. by exists [], q, params, result.
Qed.

Lemma yamlRule_Err doc p e :
  yamlRule dec basePath stripPrefix doc p = Err e →
  (e = UnsupportedNestingError (Name p) ∧ GoStrings.Contains (relative p) = true)
  ∨ (e = ValueParseError (Name p)
     ∧ GoStrings.Contains (relative p) = false
     ∧ yaml_unmarshal_map dec (Value p) = None
     ∧ yaml_unmarshal_slice dec (Value p) = None)
  ∨ (e = DuplicateKeyError (ruleKey basePath stripPrefix p)
     ∧ GoStrings.Contains (relative p) = false
     ∧ yaml_unmarshal_map dec (Value p) = None
     ∧ is_Some (yaml_unmarshal_slice dec (Value p))
     ∧ is_Some (doc !! ruleKey basePath stripPrefix p)).
Proof.
  unfold yamlRule, ruleKey.
  destruct (GoStrings.Contains (relative p)); [intros [= <-]; by left|].
  destruct (yaml_unmarshal_map dec (Value p)); [done|].
  destruct (yaml_unmarshal_slice dec (Value p)) as [l|].
  - case_decide; [|done]. intros [= <-]. right. right. eauto 10.
  - intros [= <-]. right. left. done.
Qed.

Lemma yamlRules_is_Some (params : list SsmParameter) result doc k :
  rules result params = Ok doc →
  is_Some (doc !! k) ↔
    is_Some (result !! k)
    ∨ ∃ p, p ∈ params
           ∧ ((∃ m, yaml_unmarshal_map dec (Value p) = Some m ∧ is_Some (m !! k))
              ∨ (yaml_unmarshal_map dec (Value p) = None
                 ∧ k = ruleKey basePath stripPrefix p)).
Proof.
  revert result. induction params as [|q params IH]; intros result; simpl.
  - intros [= <-]. split; [by left|]. by intros [?|(p & []%elem_of_nil & _)].
  - destruct (yamlRule dec basePath stripPrefix result q) as [result'|] eqn:Hq; [|done].
    intros Hrest. rewrite (IH _ Hrest). clear IH Hrest.
    assert (is_Some (result' !! k) ↔
              is_Some (result !! k)
              ∨ (∃ m, yaml_unmarshal_map dec (Value q) = Some m ∧ is_Some (m !! k))
              ∨ (yaml_unmarshal_map dec (Value q) = None
                 ∧ k = ruleKey basePath stripPrefix q)) as ->.
    { revert Hq. unfold yamlRule, ruleKey.
      destruct (GoStrings.Contains (relative q)); [done|].
      destruct (yaml_unmarshal_map dec (Value q)) as [m|].
      - intros [= <-]. rewrite mergeMaps_is_Some. split.
        + intros [?|?]; [by left|]. right. left. eauto.
        + intros [?|[(m' & [= <-] & ?)|[[=] _]]]; [by left|by right].
      - destruct (yaml_unmarshal_slice dec (Value q)) as [l|]; [|done].
        case_decide; [done|]. intros [= <-]. rewrite lookup_insert_is_Some'. split.
        + intros [<-|?]; [right; by right|by left].
        + intros [?|[(m' & [=] & _)|[_ ->]]]; [by right|by left]. }
    split.
    + intros [[?|Hq']|(p & Hp & Hk)]; [by left| |].
      * right. exists q. split; [by left|done].
      * right. exists p. split; [by right|done].
    + intros [?|(p & [->|Hp]%elem_of_cons & Hk)]; [by left; left|by left; right|].
      right. by exists p.
Qed.

End yaml_more.

(** X13. Every error of the YAML rules names the first parameter that
    cannot be taken: the parameters before it gave a document, and the
    error is the nesting error with its name when its relative path holds
    a slash, the parse error with its name when its flat value decodes
    neither as a mapping nor as a sequence, or the duplicate-key error
    with its rule key. Conversely a parameter with a slash in its
    relative path, or with a flat value that decodes as neither, fails
    the build in this way once the parameters before it have been taken;
    the nesting test comes before any decoding. *)
Theorem yaml_errors (dec : Decoders) (basePath : string) (stripPrefix : bool) :
  let relative q := extractRelativePath (Name q) basePath stripPrefix in
  let build params := buildYAMLStructure dec params basePath stripPrefix in
  (∀ params e,
     build params = Err e →
     ∃ before p after doc,
       params = before ++ p :: after
       ∧ build before = Ok doc
       ∧ ((e = UnsupportedNestingError (Name p)
           ∧ GoStrings.Contains (relative p) = true)
          ∨ (e = ValueParseError (Name p)
             ∧ GoStrings.Contains (relative p) = false
             ∧ yaml_unmarshal_map dec (Value p) = None
             ∧ yaml_unmarshal_slice dec (Value p) = None)
          ∨ (e = DuplicateKeyError (ruleKey basePath stripPrefix p)
             ∧ GoStrings.Contains (relative p) = false
             ∧ yaml_unmarshal_map dec (Value p) = None
             ∧ is_Some (yaml_unmarshal_slice dec (Value p))
             ∧ is_Some (doc !! ruleKey basePath stripPrefix p))))
  ∧ (∀ before p after,
       is_Ok (build before) →
       (GoStrings.Contains (relative p) = true →
        build (before ++ p :: after) = Err (UnsupportedNestingError (Name p)))
       ∧ (GoStrings.Contains (relative p) = false →
          yaml_unmarshal_map dec (Value p) = None →
          yaml_unmarshal_slice dec (Value p) = None →
          build (before ++ p :: after) = Err (ValueParseError (Name p)))).
Proof.
  intros relative build. split.
  - intros params e (before & p & after & doc & -> & Hbefore & Hp)%yamlRules_Err.
    exists before, p, after, doc. split_and!; [done|done|].
    by apply yamlRule_Err.
  - intros before p after Hok. unfold build, buildYAMLStructure in *.
    rewrite yamlRules_app.
    destruct (yamlRules dec basePath stripPrefix ∅ before) as [doc|]; [|done].
    simpl. unfold yamlRule. fold (relative p). split.
    + by intros ->.
    + by intros -> -> ->.
Qed.

Lemma yaml_errors_witness :
  buildYAMLStructure exampleDecoders
    ([mkSsmParameter "/r/a" "[1.2.3.4]"]
       ++ mkSsmParameter "/r/b/c" "[5.6.7.8]" :: []) "/r" true
  = Err (UnsupportedNestingError "/r/b/c")
  ∧ buildYAMLStructure exampleDecoders
      ([mkSsmParameter "/r/a" "[1.2.3.4]"]
         ++ mkSsmParameter "/r/b" "no rule" :: []) "/r" true
    = Err (ValueParseError "/r/b").
Proof.
  destruct (yaml_errors exampleDecoders "/r" true) as [_ Hconv].
  split.
  - apply (Hconv [mkSsmParameter "/r/a" "[1.2.3.4]"]
                 (mkSsmParameter "/r/b/c" "[5.6.7.8]") []); by vm_compute.
  - apply (Hconv [mkSsmParameter "/r/a" "[1.2.3.4]"]
                 (mkSsmParameter "/r/b" "no rule") []); by vm_compute.
Defined.

(** X14. Without prefix stripping the YAML rules take no parameter whose
    name holds a slash: a parameter list that starts with such a
    parameter, as every list returned by the parameter store does, fails
    with the nesting error for it, and so does the build of a prefix that
    is fetched first. *)
Theorem yaml_unstripped (o : MapOrder) (dec : Decoders) (p : SsmParameter)
    (rest : list SsmParameter) (basePath : string) :
  GoStrings.Contains (Name p) = true →
  buildYAMLStructure dec (p :: rest) basePath false
  = Err (UnsupportedNestingError (Name p))
  ∧ ∀ getParametersByPath opts others,
      YAMLRules opts = true → StripPrefix opts = false →
      Prefixes opts = basePath :: others →
      getParametersByPath basePath = Some (p :: rest) →
      BuildConfigFromPrefixes o dec getParametersByPath opts
      = Err (UnsupportedNestingError (Name p)).
Proof.
  intros Hname.
  assert (buildYAMLStructure dec (p :: rest) basePath false
          = Err (UnsupportedNestingError (Name p))) as Hbuild.
  { unfold buildYAMLStructure. simpl. unfold yamlRule. simpl. by rewrite Hname. }
  split; [done|].
  intros fetch opts others Hyaml Hstrip Hprefixes Hfetch.
  unfold BuildConfigFromPrefixes. rewrite Hyaml, Hprefixes. simpl.
  by rewrite Hfetch, Hstrip, Hbuild.
Qed.

Lemma yaml_unstripped_witness :
  buildYAMLStructure exampleDecoders [mkSsmParameter "/r/blockedIps" "[1.2.3.4]"]
    "/r" false
  = Err (UnsupportedNestingError "/r/blockedIps").
Proof.
  apply (yaml_unstripped canonicalOrder exampleDecoders
           (mkSsmParameter "/r/blockedIps" "[1.2.3.4]") [] "/r").
  reflexivity.
Defined.

(** X15. The keys of a document built by the YAML rules are the top-level
    keys of the mappings its parameters decode to, together with the
    rule keys of the parameters that do not decode as a mapping; an
    empty parameter list gives the empty document. *)
Theorem yaml_document_keys (dec : Decoders) (params : list SsmParameter)
    (basePath : string) (stripPrefix : bool) (doc : gmap string value) :
  buildYAMLStructure dec params basePath stripPrefix = Ok doc →
  (∀ k, is_Some (doc !! k) ↔
        ∃ p, p ∈ params
             ∧ ((∃ m, yaml_unmarshal_map dec (Value p) = Some m ∧ is_Some (m !! k))
                ∨ (yaml_unmarshal_map dec (Value p) = None
                   ∧ k = ruleKey basePath stripPrefix p)))
  ∧ (params = [] → doc = ∅).
Proof.
  intros Hdoc. split.
  - intros k. unfold buildYAMLStructure in Hdoc.
    rewrite (yamlRules_is_Some dec basePath stripPrefix params ∅ doc k Hdoc).
    rewrite lookup_empty. split; [|by right]. by intros [[? [=]]|?].
  - intros ->. by injection Hdoc.
Qed.

Lemma yaml_document_keys_witness :
  is_Some (({[ "blockedIps" := VSeq [VStr "1.2.3.4"];
               "more" := VSeq [VStr "5.6.7.8"] ]} : gmap string value) !! "all") ↔
    ∃ p, p ∈ [mkSsmParameter "/r/all" "blockedIps: [1.2.3.4]";
              mkSsmParameter "/r/more" "[5.6.7.8]"]
         ∧ ((∃ m, yaml_unmarshal_map exampleDecoders (Value p) = Some m
                  ∧ is_Some (m !! "all"))
            ∨ (yaml_unmarshal_map exampleDecoders (Value p) = None
               ∧ "all" = ruleKey "/r" true p)).
Proof.
  apply (yaml_document_keys exampleDecoders
           [mkSsmParameter "/r/all" "blockedIps: [1.2.3.4]";
            mkSsmParameter "/r/more" "[5.6.7.8]"] "/r" true).
  by vm_compute.
Defined.

(** ** Dependency sorter: when it succeeds, and sorting again *)

Lemma tc_subrel_1 {A} (R1 R2 : relation A) x y :
  (∀ x y, R1 x y → R2 x y) → tc R1 x y → tc R2 x y.
Proof.
  intros Hsub. induction 1 as [x y Hxy|x y z Hxy _ IH].
  - apply tc_once. by apply Hsub.
  - eapply tc_l; [by apply Hsub|done].
Qed.

Lemma dependsOn_Permutation rawTypes rawTypes' D E :
  rawTypes ≡ₚ rawTypes' → dependsOn rawTypes D E → dependsOn rawTypes' D E.
Proof.
  intros Hperm (HD & HE & Hdep). split_and!; [by rewrite <-Hperm..|done].
Qed.

Lemma wellFormed_Permutation rawTypes rawTypes' :
  rawTypes ≡ₚ rawTypes' → wellFormed rawTypes → wellFormed rawTypes'.
Proof. intros Hperm [Hnamed Hnd]. split; by rewrite <-Hperm. Qed.

Lemma acyclic_Permutation rawTypes rawTypes' :
  rawTypes ≡ₚ rawTypes' → acyclic rawTypes → acyclic rawTypes'.
Proof.
  intros Hperm Hacyclic t Ht. apply (Hacyclic t).
  eapply tc_subrel_1; [|done]. intros D E. by apply dependsOn_Permutation.
Qed.

Lemma kahn_full_iff o rawTypes :
  length (kahn o rawTypes) = length rawTypes ↔
    wellFormed rawTypes ∧ acyclic rawTypes.
Proof.
  split.
  - intros Hlen. destruct (kahn_sound o rawTypes Hlen) as (Hwf & Hperm & Horder).
    split; [done|]. intros t.
    apply (cyclic_not_sound rawTypes (kahn o rawTypes) t Horder).
    rewrite Hperm. by apply wellFormed_NoDup.
  - intros [Hwf Hacyclic]. by apply kahn_complete.
Qed.

Lemma sortTypesByDependency_is_Ok o schema rawTypes query :
  schema !! "types" = Some (VSeq rawTypes) →
  schema !! "query" = Some query →
  is_Ok (sortTypesByDependency o schema) ↔
    length (kahn o rawTypes) = length rawTypes.
Proof.
  intros Ht Hq. unfold sortTypesByDependency. rewrite Ht, Hq.
  destruct (decide (length (kahn o rawTypes) ≠ length rawTypes)) as [Hlen|Hlen]; simpl.
  - split; [done|]. intros ?. by destruct Hlen.
  - by apply dec_stable in Hlen.
Qed.

(** X16. For a document with a [query] entry and a sequence under
    [types], the sort succeeds exactly when the entries declare pairwise
    distinct names and their dependencies have no cycle; in every other
    case, an unnamed or twice-declared entry included, it reports a
    circular dependency. Whether it succeeds does not depend on the
    iteration order of the maps. *)
Theorem sort_succeeds_iff (o : MapOrder) (schema : gmap string value)
    (rawTypes : list value) (query : value) :
  schema !! "types" = Some (VSeq rawTypes) →
  schema !! "query" = Some query →
  (is_Ok (sortTypesByDependency o schema) ↔
     wellFormed rawTypes ∧ acyclic rawTypes)
  ∧ (¬ (wellFormed rawTypes ∧ acyclic rawTypes) →
     sortTypesByDependency o schema = Err CyclicDependencyError)
  ∧ (∀ o', is_Ok (sortTypesByDependency o schema) ↔
           is_Ok (sortTypesByDependency o' schema)).
Proof.
  intros Ht Hq. split_and!.
  - by rewrite (sortTypesByDependency_is_Ok o schema rawTypes query), kahn_full_iff.
  - intros Hbad.
    apply (sortTypesByDependency_cyclic o schema rawTypes query Ht Hq).
    pose proof (kahn_length o rawTypes).
    destruct (decide (length (kahn o rawTypes) = length rawTypes)) as [Hlen|]; [|lia].
    by apply kahn_full_iff in Hlen.
  - intros o'.
    by rewrite !(sortTypesByDependency_is_Ok _ schema rawTypes query), !kahn_full_iff.
Qed.

(** A second declaration of [A] is reported as a cycle. *)
Lemma sort_succeeds_iff_witness :
  sortTypesByDependency canonicalOrder
    {[ "types" := VSeq [typeEntry "A" []; typeEntry "A" []]; "query" := VNull ]}
  = Err CyclicDependencyError.
Proof.
  refine (proj1 (proj2 (sort_succeeds_iff canonicalOrder
            {[ "types" := VSeq [typeEntry "A" []; typeEntry "A" []]; "query" := VNull ]}
            [typeEntry "A" []; typeEntry "A" []] VNull _ _)) _);
    [reflexivity|reflexivity|].
  intros [[_ Hnd] _]. vm_compute in Hnd.
  apply NoDup_cons in Hnd as [Hin _]. apply Hin. by left.
Defined.

(** X17. Sorting again. The document returned by a successful sort is
    sorted successfully once more, in whatever iteration order: the
    second result holds the same entries, again with every entry after
    the entries it depends on, and the same [query]. *)
Theorem sort_again (o o' : MapOrder) (schema schema' : gmap string value) :
  sortTypesByDependency o schema = Ok schema' →
  ∃ schema'' sorted sorted',
    schema' !! "types" = Some (VSeq sorted)
    ∧ sortTypesByDependency o' schema' = Ok schema''
    ∧ schema'' !! "types" = Some (VSeq sorted')
    ∧ sorted' ≡ₚ sorted
    ∧ (∀ D E, dependsOn sorted D E → precedes sorted' D E)
    ∧ schema'' !! "query" = schema' !! "query".
Proof.
  intros (rawTypes & query & Ht & Hq & Hlen & ->)%sortTypesByDependency_Ok.
  pose proof (proj1 (kahn_full_iff o rawTypes) Hlen) as [Hwf Hacyclic].
  destruct (kahn_sound o rawTypes Hlen) as (_ & Hperm & _).
  set (sorted := kahn o rawTypes) in *.
  assert (length (kahn o' sorted) = length sorted) as Hlen'.
  { apply kahn_full_iff. split.
    - by apply (wellFormed_Permutation rawTypes).
    - by apply (acyclic_Permutation rawTypes). }
  destruct (kahn_sound o' sorted Hlen') as (_ & Hperm' & Horder').
  exists (<["query" := query]> {[ "types" := VSeq (kahn o' sorted) ]}),
         sorted, (kahn o' sorted).
  split_and!; try done.
  apply sortTypesByDependency_Ok. exists sorted, query. done.
Qed.

Lemma sort_again_witness :
  match sortTypesByDependency canonicalOrder exampleSchema with
  | Ok schema' => is_Ok (sortTypesByDependency reverseOrder schema')
  | Err _ => False
  end.
Proof.
  destruct (sortTypesByDependency canonicalOrder exampleSchema) as [schema'|e] eqn:Hs.
  - destruct (sort_again canonicalOrder reverseOrder exampleSchema schema' Hs)
      as (schema'' & _ & _ & _ & -> & _). exact I.
  - by vm_compute in Hs.
Defined.

(** ** Façade: the simplified entry points and the options *)

Section facade_facts.
Context (o : MapOrder) (dec : Decoders).
Context (getParametersByPath : string → option (list SsmParameter)).

Local Abbreviation jsonLoop := (jsonPrefixes o dec getParametersByPath).
Local Abbreviation yamlLoop := (yamlPrefixes dec getParametersByPath).
Local Abbreviation build := (BuildConfigFromPrefixes o dec getParametersByPath).

Lemma jsonPrefixes_options opts opts' configMap prefixes :
  StripPrefix opts = StripPrefix opts' →
  jsonLoop opts configMap prefixes = jsonLoop opts' configMap prefixes.
Proof.
  intros Hstrip. revert configMap.
  induction prefixes as [|prefix rest IH]; intros configMap; simpl; [done|].
  destruct (getParametersByPath prefix) as [params|]; [|done].
  rewrite Hstrip. apply IH.
Qed.

Lemma yamlPrefixes_options opts opts' configMap prefixes :
  StripPrefix opts = StripPrefix opts' →
  yamlLoop opts configMap prefixes = yamlLoop opts' configMap prefixes.
Proof.
  intros Hstrip. revert configMap.
  induction prefixes as [|prefix rest IH]; intros configMap; simpl; [done|].
  destruct (getParametersByPath prefix) as [params|]; [|done].
  rewrite Hstrip. destruct (buildYAMLStructure _ _ _ _); [apply IH|done].
Qed.

Lemma jsonPrefixes_app opts configMap before after :
  jsonLoop opts configMap (before ++ after) =
    match jsonLoop opts configMap before with
    | Ok configMap' => jsonLoop opts configMap' after
    | Err e => Err e
    end.
Proof.
  revert configMap. induction before as [|prefix rest IH]; intros configMap; simpl;
    [done|].
  destruct (getParametersByPath prefix) as [params|]; [apply IH|done].
Qed.

Lemma yamlPrefixes_app opts configMap before after :
  yamlLoop opts configMap (before ++ after) =
    match yamlLoop opts configMap before with
    | Ok configMap' => yamlLoop opts configMap' after
    | Err e => Err e
    end.
Proof.
  revert configMap. induction before as [|prefix rest IH]; intros configMap; simpl;
    [done|].
  destruct (getParametersByPath prefix) as [params|]; [|done].
  destruct (buildYAMLStructure _ _ _ _); [apply IH|done].
Qed.

End facade_facts.

(** X18. The simplified entry points are the pipeline of one prefix with
    the prefix stripped. [BuildJsonFromPrefix] serializes, indented, the
    tree of the parameters of the prefix, after the dependency sort when
    it is asked for, whose error it wraps; [BuildYamlFromPrefix]
    serializes the document of the YAML rules and returns their error as
    it is, whatever its sort argument; both report a failed fetch as the
    fetch error of the prefix. *)
Theorem single_prefix_pipeline (o : MapOrder) (dec : Decoders)
    (getParametersByPath : string → option (list SsmParameter)) (prefix : string) :
  (getParametersByPath prefix = None →
   ∀ sortByDependencies,
     BuildJsonFromPrefix o dec getParametersByPath prefix sortByDependencies
     = Err (SourceFetchError prefix)
     ∧ BuildYamlFromPrefix o dec getParametersByPath prefix sortByDependencies
       = Err (SourceFetchError prefix))
  ∧ (∀ params,
       getParametersByPath prefix = Some params →
       BuildJsonFromPrefix o dec getParametersByPath prefix false
       = Ok (IndentedJSON (buildStructure o dec params prefix true false))
       ∧ BuildJsonFromPrefix o dec getParametersByPath prefix true
         = match sortTypesByDependency o (buildStructure o dec params prefix true true) with
           | Ok schema => Ok (IndentedJSON schema)
           | Err e => Err (SortError e)
           end
       ∧ ∀ sortByDependencies,
           BuildYamlFromPrefix o dec getParametersByPath prefix sortByDependencies
           = match buildYAMLStructure dec params prefix true with
             | Ok doc => Ok (YAMLDocument doc)
             | Err e => Err e
             end).
Proof.
  split.
  - intros Hfetch sortByDependencies.
    unfold BuildJsonFromPrefix, BuildYamlFromPrefix, BuildConfigFromPrefixes.
    simpl. by rewrite Hfetch.
  - intros params Hfetch.
    unfold BuildJsonFromPrefix, BuildYamlFromPrefix, BuildConfigFromPrefixes.
    cbn -[buildStructure mergeMaps buildYAMLStructure sortTypesByDependency].
    rewrite Hfetch, !mergeMaps_empty_l. split_and!.
    + done.
    + by destruct (sortTypesByDependency _ _).
    + intros _. destruct (buildYAMLStructure _ _ _ _); [|done].
      by rewrite mergeMaps_empty_l.
Qed.

Lemma single_prefix_pipeline_witness :
  BuildJsonFromPrefix canonicalOrder exampleDecoders
    (λ _, Some [mkSsmParameter "/p/a" "1"]) "/p" false
  = Ok (IndentedJSON (buildStructure canonicalOrder exampleDecoders
                        [mkSsmParameter "/p/a" "1"] "/p" true false))
  ∧ BuildJsonFromPrefix canonicalOrder exampleDecoders (λ _, None) "/p" false
    = Err (SourceFetchError "/p").
Proof.
  split.
  - apply (proj2 (single_prefix_pipeline canonicalOrder exampleDecoders
                    (λ _, Some [mkSsmParameter "/p/a" "1"]) "/p")
             [mkSsmParameter "/p/a" "1"] eq_refl).
  - apply (proj1 (single_prefix_pipeline canonicalOrder exampleDecoders
                    (λ _, None) "/p") eq_refl false).
Defined.

(** X19. What the options do not change. In YAML-rules mode the result
    depends on the prefixes and on [StripPrefix] only: [JSONOutput] and
    [SortByDependencies] are not looked at, and no dependency sort is
    made. In JSON mode [JSONOutput] chooses between the indented and the
    compact serializer and nothing else: both are handed the same map,
    or the build fails with the same error. *)
Theorem options_ignored (o : MapOrder) (dec : Decoders)
    (getParametersByPath : string → option (list SsmParameter))
    (opts : BuildOptions) :
  (YAMLRules opts = true →
   ∀ jsonOutput sortByDependencies,
     BuildConfigFromPrefixes o dec getParametersByPath
       {| Prefixes := Prefixes opts; StripPrefix := StripPrefix opts;
          JSONOutput := jsonOutput; YAMLRules := true;
          SortByDependencies := sortByDependencies |}
     = BuildConfigFromPrefixes o dec getParametersByPath opts)
  ∧ (YAMLRules opts = false →
     match BuildConfigFromPrefixes o dec getParametersByPath
             {| Prefixes := Prefixes opts; StripPrefix := StripPrefix opts;
                JSONOutput := true; YAMLRules := false;
                SortByDependencies := SortByDependencies opts |},
           BuildConfigFromPrefixes o dec getParametersByPath
             {| Prefixes := Prefixes opts; StripPrefix := StripPrefix opts;
                JSONOutput := false; YAMLRules := false;
                SortByDependencies := SortByDependencies opts |}
     with
     | Ok indented, Ok compact =>
         indented = IndentedJSON (configMapOf indented)
         ∧ compact = CompactJSON (configMapOf indented)
     | Err e, Err e' => e = e'
     | _, _ => False
     end).
Proof.
  split.
  - intros Hyaml jsonOutput sortByDependencies.
    unfold BuildConfigFromPrefixes. rewrite Hyaml. simpl.
    by rewrite (yamlPrefixes_options dec getParametersByPath _ opts).
  - intros Hjson. unfold BuildConfigFromPrefixes. simpl.
    rewrite (jsonPrefixes_options o dec getParametersByPath
               {| Prefixes := Prefixes opts; StripPrefix := StripPrefix opts;
                  JSONOutput := false; YAMLRules := false;
                  SortByDependencies := SortByDependencies opts |}
               {| Prefixes := Prefixes opts; StripPrefix := StripPrefix opts;
                  JSONOutput := true; YAMLRules := false;
                  SortByDependencies := SortByDependencies opts |}) by done.
    destruct (jsonPrefixes _ _ _ _ _ _) as [configMap|e]; [|done].
    destruct (SortByDependencies opts); [|done].
    by destruct (sortTypesByDependency o configMap).
Qed.

Lemma options_ignored_witness :
  BuildConfigFromPrefixes canonicalOrder exampleDecoders
    (λ _, Some [mkSsmParameter "/r/blockedIps" "[1.2.3.4]"])
    {| Prefixes := ["/r"]; StripPrefix := true; JSONOutput := true;
       YAMLRules := true; SortByDependencies := true |}
  = BuildConfigFromPrefixes canonicalOrder exampleDecoders
      (λ _, Some [mkSsmParameter "/r/blockedIps" "[1.2.3.4]"])
      {| Prefixes := ["/r"]; StripPrefix := true; JSONOutput := false;
         YAMLRules := true; SortByDependencies := false |}.
Proof.
  apply (proj1 (options_ignored canonicalOrder exampleDecoders
                  (λ _, Some [mkSsmParameter "/r/blockedIps" "[1.2.3.4]"])
                  {| Prefixes := ["/r"]; StripPrefix := true; JSONOutput := false;
                     YAMLRules := true; SortByDependencies := false |}) eq_refl
           true true).
Defined.

(** X20. A prefix without parameters adds nothing: when the fetch of a
    prefix returns the empty list, the build gives what it gives without
    that prefix, in both modes. *)
Theorem empty_prefix_neutral (o : MapOrder) (dec : Decoders)
    (getParametersByPath : string → option (list SsmParameter))
    (opts : BuildOptions) (before after : list string) (prefix : string) :
  getParametersByPath prefix = Some [] →
  Prefixes opts = before ++ prefix :: after →
  BuildConfigFromPrefixes o dec getParametersByPath opts
  = BuildConfigFromPrefixes o dec getParametersByPath
      {| Prefixes := before ++ after; StripPrefix := StripPrefix opts;
         JSONOutput := JSONOutput opts; YAMLRules := YAMLRules opts;
         SortByDependencies := SortByDependencies opts |}.
Proof.
  intros Hfetch Hprefixes. unfold BuildConfigFromPrefixes. simpl.
  rewrite Hprefixes.
  rewrite (jsonPrefixes_options o dec getParametersByPath
             {| Prefixes := before ++ after; StripPrefix := StripPrefix opts;
                JSONOutput := JSONOutput opts; YAMLRules := YAMLRules opts;
                SortByDependencies := SortByDependencies opts |} opts) by done.
  rewrite (yamlPrefixes_options dec getParametersByPath
             {| Prefixes := before ++ after; StripPrefix := StripPrefix opts;
                JSONOutput := JSONOutput opts; YAMLRules := YAMLRules opts;
                SortByDependencies := SortByDependencies opts |} opts) by done.
  rewrite !jsonPrefixes_app, !yamlPrefixes_app. simpl. rewrite Hfetch. simpl.
  destruct (YAMLRules opts).
  - destruct (yamlPrefixes _ _ _ _ before) as [configMap|]; [|done].
    by rewrite mergeMaps_empty_r.
  - destruct (jsonPrefixes _ _ _ _ _ before) as [configMap|]; [|done].
    by rewrite mergeMaps_empty_r.
Qed.

Lemma empty_prefix_neutral_witness :
  BuildConfigFromPrefixes canonicalOrder exampleDecoders
    (λ prefix, if decide (prefix = "/empty") then Some []
               else Some [mkSsmParameter "/p/a" "1"])
    {| Prefixes := ["/p"] ++ "/empty" :: []; StripPrefix := true; JSONOutput := true;
       YAMLRules := false; SortByDependencies := false |}
  = BuildConfigFromPrefixes canonicalOrder exampleDecoders
      (λ prefix, if decide (prefix = "/empty") then Some []
                 else Some [mkSsmParameter "/p/a" "1"])
      {| Prefixes := ["/p"] ++ []; StripPrefix := true; JSONOutput := true;
         YAMLRules := false; SortByDependencies := false |}.
Proof.
  apply (empty_prefix_neutral canonicalOrder exampleDecoders
           (λ prefix, if decide (prefix = "/empty") then Some []
                      else Some [mkSsmParameter "/p/a" "1"])
           {| Prefixes := ["/p"] ++ "/empty" :: []; StripPrefix := true;
              JSONOutput := true; YAMLRules := false; SortByDependencies := false |}
           ["/p"] [] "/empty"); reflexivity.
Defined.

(** ** Parameter fetch *)

Section fetch_facts.
Context (ssmClient : string → option string → option SsmPage) (sorter : SliceSort).

Lemma fetchPages_pages (pages : list SsmPage) path nextToken allParams fuel :
  pagesFrom ssmClient path nextToken pages →
  length pages ≤ fuel →
  fetchPages ssmClient fuel path nextToken allParams
  = Some (Some (allParams ++ pages ≫= Parameters)).
Proof.
  revert nextToken allParams fuel.
  induction pages as [|page rest IH]; intros nextToken allParams fuel; [done|].
  intros [Hpage Hrest] Hfuel. destruct fuel as [|fuel]; [simpl in Hfuel; lia|].
  simpl. rewrite Hpage. destruct rest as [|page' rest].
  - rewrite Hrest. simpl. by rewrite (right_id_L [] (++)).
  - destruct Hrest as [[token Htoken] Hrest]. rewrite Htoken.
    rewrite Htoken in Hrest. rewrite (IH _ _ _ Hrest) by (simpl in *; lia).
    by rewrite <-(assoc_L (++)).
Qed.

Lemma fetchPages_fails (pages : list SsmPage) path nextToken allParams fuel :
  failsAfter ssmClient path nextToken pages →
  length pages < fuel →
  fetchPages ssmClient fuel path nextToken allParams = Some None.
Proof.
  revert nextToken allParams fuel.
  induction pages as [|page rest IH]; intros nextToken allParams fuel.
  - intros Hfail Hfuel. destruct fuel as [|fuel]; [lia|]. simpl in *. by rewrite Hfail.
  - intros (Hpage & [token Htoken] & Hrest) Hfuel.
    destruct fuel as [|fuel]; [lia|]. simpl. rewrite Hpage, Htoken.
    rewrite Htoken in Hrest. apply IH; [done|]. simpl in Hfuel. lia.
Qed.

End fetch_facts.

Lemma nameLe_trans : Transitive nameLe.
Proof. intros p q r. unfold nameLe. apply transitivity. Qed.

Lemma sorted_by_name_unique (l1 l2 : list SsmParameter) :
  NoDup (Name <$> l1) → Sorted nameLe l1 → Sorted nameLe l2 → l1 ≡ₚ l2 → l1 = l2.
Proof.
  intros Hnd H1 H2 Hperm.
  apply (@Sorted_unique_strong _ nameLe nameLe_trans); try done.
  intros p q Hp Hq Hpq Hqp. rewrite <-Hperm in Hq.
  assert (Name p = Name q) as Hname by (by apply (anti_symm String.le)).
  apply list_elem_of_lookup in Hp as [i Hi]. apply list_elem_of_lookup in Hq as [j Hj].
  assert (i = j) as <-.
  { apply (NoDup_lookup (Name <$> l1) i j (Name p)); [done|..];
      rewrite list_lookup_fmap; [by rewrite Hi|by rewrite Hj, Hname]. }
  congruence.
Qed.

(** X21. The fetch of a prefix. When the parameter store answers the
    calls for a path with a series of pages, of which only the last has
    no token, [getParametersByPath] makes one call per page, each with
    the token of the page before, and returns the parameters of all the
    pages rearranged so that the names ascend; any bound on the number
    of calls that is at least the number of pages gives this result.
    When a call fails after pages that all had a token, the fetch fails
    and returns no parameter. When the names are pairwise distinct the
    returned list does not depend on how [sort.Slice] treats equal
    elements. *)
Theorem getParametersByPath_pages
    (ssmClient : string → option string → option SsmPage) (sorter : SliceSort)
    (path : string) (pages : list SsmPage) (fuel : nat) :
  (pagesFrom ssmClient path None pages → length pages ≤ fuel →
   ∃ allParams,
     getParametersByPath ssmClient sorter fuel path = Some (Some allParams)
     ∧ allParams ≡ₚ pages ≫= Parameters
     ∧ Sorted nameLe allParams
     ∧ (NoDup (Name <$> allParams) →
        ∀ sorter', getParametersByPath ssmClient sorter' fuel path
                   = Some (Some allParams)))
  ∧ (failsAfter ssmClient path None pages → length pages < fuel →
     getParametersByPath ssmClient sorter fuel path = Some None).
Proof.
  split.
  - intros Hpages Hfuel. exists (sortSlice sorter (pages ≫= Parameters)).
    unfold getParametersByPath.
    rewrite (fetchPages_pages ssmClient pages path None [] fuel Hpages Hfuel). simpl.
    split_and!; [done|apply sortSlice_perm|apply sortSlice_sorted|].
    intros Hnd sorter'. do 2 f_equal. symmetry.
    apply sorted_by_name_unique; [done|apply sortSlice_sorted..|].
    by rewrite !sortSlice_perm.
  - intros Hfail Hfuel. unfold getParametersByPath.
    by rewrite (fetchPages_fails ssmClient pages path None [] fuel Hfail Hfuel).
Qed.

Lemma getParametersByPath_pages_witness :
  ∃ allParams,
    getParametersByPath exampleClient exampleSorter 2 "/p" = Some (Some allParams)
    ∧ allParams ≡ₚ examplePages ≫= Parameters
    ∧ Sorted nameLe allParams.
Proof.
  destruct (proj1 (getParametersByPath_pages exampleClient exampleSorter "/p"
                     examplePages 2)) as (allParams & Hfetch & Hperm & Hsorted & _).
  - split; [reflexivity|]. split; [by eexists|]. split; reflexivity.
  - simpl. lia.
  - by exists allParams.
Defined.

(** ** YAML rules over several prefixes *)

Lemma mergeMaps_singleton_seq key (l1 l2 : list value) :
  mergeMaps {[ key := VSeq l1 ]} {[ key := VSeq l2 ]} = {[ key := VSeq (l1 ++ l2) ]}.
Proof.
  apply map_eq. intros k. rewrite mergeMaps_lookup.
  destruct (decide (k = key)) as [->|Hne].
  - by rewrite !lookup_singleton_eq.
  - by rewrite !lookup_singleton_ne.
Qed.

(** X22. The duplicate check of the YAML rules does not reach across
    prefixes. When two prefixes each hold one flat parameter whose value
    decodes as a sequence and not as a mapping, and the two rule keys are
    the same, the build succeeds and the document holds under that key
    the elements of the first sequence followed by those of the second:
    the documents of the prefixes are deep-merged. *)
Theorem yaml_duplicate_across_prefixes (o : MapOrder) (dec : Decoders)
    (getParametersByPath : string → option (list SsmParameter))
    (opts : BuildOptions) (prefix1 prefix2 : string) (p1 p2 : SsmParameter)
    (l1 l2 : list value) :
  let flatSequence prefix p l :=
    GoStrings.Contains (extractRelativePath (Name p) prefix (StripPrefix opts)) = false
    ∧ yaml_unmarshal_map dec (Value p) = None
    ∧ yaml_unmarshal_slice dec (Value p) = Some l in
  YAMLRules opts = true →
  Prefixes opts = [prefix1; prefix2] →
  getParametersByPath prefix1 = Some [p1] →
  getParametersByPath prefix2 = Some [p2] →
  flatSequence prefix1 p1 l1 → flatSequence prefix2 p2 l2 →
  ruleKey prefix1 (StripPrefix opts) p1 = ruleKey prefix2 (StripPrefix opts) p2 →
  BuildConfigFromPrefixes o dec getParametersByPath opts
  = Ok (YAMLDocument {[ ruleKey prefix1 (StripPrefix opts) p1 := VSeq (l1 ++ l2) ]}).
Proof.
  intros flatSequence Hyaml Hprefixes Hfetch1 Hfetch2
    (Hflat1 & Hmap1 & Hslice1) (Hflat2 & Hmap2 & Hslice2) Hkey.
  unfold BuildConfigFromPrefixes. rewrite Hyaml, Hprefixes. simpl.
  rewrite Hfetch1, Hfetch2. unfold buildYAMLStructure. simpl.
  rewrite (yamlRule_slice dec prefix1 _ ∅ p1 l1 Hflat1 Hmap1 Hslice1).
  rewrite (yamlRule_slice dec prefix2 _ ∅ p2 l2 Hflat2 Hmap2 Hslice2).
  rewrite !decide_False by (rewrite lookup_empty; by intros [? [=]]).
  rewrite <-Hkey, !insert_empty, mergeMaps_empty_l, mergeMaps_singleton_seq.
  done.
Qed.

Lemma yaml_duplicate_across_prefixes_witness :
  BuildConfigFromPrefixes canonicalOrder exampleDecoders
    (λ prefix, if decide (prefix = "/r1")
               then Some [mkSsmParameter "/r1/blockedIps" "[1.2.3.4]"]
               else Some [mkSsmParameter "/r2/blockedIps" "[5.6.7.8]"])
    {| Prefixes := ["/r1"; "/r2"]; StripPrefix := true; JSONOutput := false;
       YAMLRules := true; SortByDependencies := false |}
  = Ok (YAMLDocument {[ "blockedIps" := VSeq [VStr "1.2.3.4"; VStr "5.6.7.8"] ]}).
Proof.
  apply (yaml_duplicate_across_prefixes canonicalOrder exampleDecoders
           (λ prefix, if decide (prefix = "/r1")
                      then Some [mkSsmParameter "/r1/blockedIps" "[1.2.3.4]"]
                      else Some [mkSsmParameter "/r2/blockedIps" "[5.6.7.8]"])
           {| Prefixes := ["/r1"; "/r2"]; StripPrefix := true; JSONOutput := false;
              YAMLRules := true; SortByDependencies := false |}
           "/r1" "/r2" (mkSsmParameter "/r1/blockedIps" "[1.2.3.4]")
           (mkSsmParameter "/r2/blockedIps" "[5.6.7.8]")
           [VStr "1.2.3.4"] [VStr "5.6.7.8"]); by vm_compute.
Defined.

(** ** Tree assembler: a flat prefix *)

(** X23. A flat prefix. When every parameter has a relative path of one
    segment, other than [.], and no two parameters have the same relative
    path, the tree maps each relative path to the parsed value of its
    parameter and has no other key, in every iteration order. *)
Theorem buildStructure_flat (o : MapOrder) (dec : Decoders)
    (params : list SsmParameter) (basePath : string)
    (stripPrefix sortByDependencies : bool) :
  let relative q := extractRelativePath (Name q) basePath stripPrefix in
  (∀ q, q ∈ params →
        relative q ≠ "" ∧ relative q ≠ "." ∧ GoStrings.Contains (relative q) = false) →
  NoDup (relative <$> params) →
  buildStructure o dec params basePath stripPrefix sortByDependencies
  = list_to_map ((λ q, (relative q, parseParameterValue dec (Value q))) <$> params).
Proof.
  intros relative Hflat Hnd.
  assert (∀ q, q ∈ params → levelOf basePath stripPrefix q = (relative q, ".")) as Hslot.
  { intros q Hq. destruct (Hflat q Hq) as (Hne & _ & Hcon).
    rewrite (levelOf_Split basePath stripPrefix q (relative q) []); [done|done|].
    by apply Split_flat. }
  assert (NoDup (levelOf basePath stripPrefix <$> params)) as Hnd'.
  { assert (levelOf basePath stripPrefix <$> params
            = (λ r, (r, ".")) <$> (relative <$> params)) as ->.
    { rewrite <-list_fmap_compose. apply list_fmap_ext. intros i q Hi.
      apply Hslot. by eapply list_elem_of_lookup_2. }
    apply NoDup_fmap_2; [|done]. by intros r1 r2 [= ->]. }
  assert (∀ q, q ∈ params → (levelOf basePath stripPrefix q).1 ≠ ".") as Hnoroot.
  { intros q Hq. rewrite Hslot by done. simpl. by apply Hflat. }
  apply map_eq. intros k.
  destruct (decide (k ∈ relative <$> params)) as [Hk|Hk].
  - apply list_elem_of_fmap in Hk as (q & -> & Hq). symmetry.
    assert (list_to_map ((λ q, (relative q, parseParameterValue dec (Value q))) <$> params)
              !! relative q = Some (parseParameterValue dec (Value q))) as ->.
    { apply elem_of_list_to_map.
      - by rewrite <-list_fmap_compose.
      - apply list_elem_of_fmap. by exists q. }
    symmetry.
    destruct (proj2 (organize_level_is_Some params basePath stripPrefix (relative q)))
      as [m Hm].
    { exists q. by rewrite Hslot. }
    assert (m = {[ "." := q ]}) as ->.
    { apply map_eq. intros c.
      assert (m !! c = filed (organizeParametersByLevel params basePath stripPrefix)
                             (relative q) c) as -> by (unfold filed; by rewrite Hm).
      rewrite filed_organize. destruct (decide (c = ".")) as [->|Hc].
      - rewrite lookup_singleton_eq.
        apply (last_filter_unique _ (levelOf basePath stripPrefix));
          [congruence|done|]. split; [done|by apply Hslot].
      - rewrite lookup_singleton_ne by done.
        destruct (last _) as [q'|] eqn:Hlast; [|done].
        apply (last_filter_unique _ (levelOf basePath stripPrefix)) in Hlast
          as [Hq' Hslot']; [|congruence|done].
        rewrite Hslot in Hslot' by done. by injection Hslot' as _ <-. }
    assert (buildStructure o dec params basePath stripPrefix sortByDependencies
            = buildGenericStructure o dec
                (organizeParametersByLevel params basePath stripPrefix)) as ->.
    { unfold buildStructure. destruct params; [by apply elem_of_nil in Hq|done]. }
    apply (buildGenericStructure_nested o dec _ (relative q) {[ "." := q ]}).
    + by apply Hflat.
    + done.
    + intros result. apply processNestedLevel_leaf.
    + intros m0 Hm0.
      assert (is_Some (organizeParametersByLevel params basePath stripPrefix !! "."))
        as (q' & Hq' & Hl)%organize_level_is_Some by eauto.
      by destruct (Hnoroot q').
  - rewrite (not_elem_of_list_to_map_1 _ k) by (by rewrite <-list_fmap_compose).
    apply eq_None_not_Some. rewrite buildStructure_keys by done.
    intros (q & Hq & Hl). apply Hk. apply list_elem_of_fmap. exists q.
    split; [|done]. rewrite Hslot in Hl by done. done.
Qed.

Lemma buildStructure_flat_witness :
  buildStructure reverseOrder exampleDecoders
    [mkSsmParameter "/p/host" "db.local"; mkSsmParameter "/p/port" "5432";
     mkSsmParameter "/p/debug" "true"] "/p" true false
  = list_to_map [("host", VStr "db.local"); ("port", VNum 5432); ("debug", VBool true)].
Proof.
  apply (buildStructure_flat reverseOrder exampleDecoders
           [mkSsmParameter "/p/host" "db.local"; mkSsmParameter "/p/port" "5432";
            mkSsmParameter "/p/debug" "true"] "/p" true false).
  - intros q [->|[->|[->|[]%elem_of_nil]%elem_of_cons]%elem_of_cons]%elem_of_cons;
      by vm_compute.
  - apply (bool_decide_unpack _). by vm_compute.
Defined.
